(** * [ms_feature_validation/lcms.py]: the ROI construction engine and the
      helpers around it

    A shallow embedding of [_RoiProcessor], [_match_mz], [tmp_roi_to_roi]
    and the scan loop of [make_roi], followed by [chromatogram], the
    parameter helpers ([make_widths_lc], [make_widths_ms],
    [get_lc_cwt_params], [get_ms_cwt_params], [get_roi_params]), the
    constructor and [find_peaks] of [MSSpectrum], the isotopic distribution
    search and the feature labels of [detect_roi_peaks].

    Conventions of the embedding:
    - a one-dimensional numpy array is a [list]; float64 entries are exact
      rationals [Q] (rounding, infinities and not-a-number operands are left
      out); the not-a-number filling of a finished ROI is [None] in a
      [list (option Q)];
    - numpy [int] arrays ([n_missing], [length], [roi_index]) and the Python
      scan counter are unbounded [Z]: the overflow of a 64-bit integer is
      left out, so a statement that a call returns takes the integer
      settings in the 64-bit range;
    - a Python exception is the [Raise] branch of [result];
    - [temp_roi_dict] is a [gmap] from identities to [TempRoi] records;
    - a keyword dictionary is a [gmap] from names to values;
    - functions of other modules ([find_closest] of [utils.py] in the
      isotopic search, [pick_cwt] of [peaks.py]) are arguments of the
      definitions that call them. *)

From Stdlib Require Import QArith Qabs Ascii.
From stdpp Require Import numbers sorting strings pretty gmap option list_monad list.

Local Open Scope string_scope.
Local Open Scope Z_scope.
Local Open Scope nat_scope.
Local Open Scope list_scope.

(** ** Exceptions *)

Inductive exn : Set :=
  | ValueError | IndexError | KeyError | TypeError | AssertionError.

Inductive result (A : Type) : Type :=
  | Ok (a : A)
  | Raise (e : exn).
Arguments Ok {A} a.
Arguments Raise {A} e.

#[global] Instance result_ret : MRet result := λ A a, Ok a.
#[global] Instance result_bind : MBind result := λ A B f m,
  match m with Ok a => f a | Raise e => Raise e end.

Definition is_Ok {A} (r : result A) : Prop := ∃ a, r = Ok a.
Definition is_Raise {A} (r : result A) : Prop := ∃ e, r = Raise e.

(** ** numpy primitives on one-dimensional arrays *)

(** [a[i]] for a non-negative index. *)
Definition getitem {A} (a : list A) (i : nat) : result A :=
  match a !! i with Some x => Ok x | None => Raise IndexError end.

(** [a[idx]] for an integer index array. *)
Definition np_take {A} (a : list A) (idx : list nat) : result (list A) :=
  mapM (getitem a) idx.

(** The entries of [a] under the true entries of a mask. *)
Fixpoint select {A} (m : list bool) (a : list A) : list A :=
  match m, a with
  | b :: m', x :: a' => if b then x :: select m' a' else select m' a'
  | _, _ => []
  end.

(** [a[m]] for a boolean mask: the mask must have the length of [a]. *)
Definition np_mask {A} (a : list A) (m : list bool) : result (list A) :=
  if decide (length m = length a) then Ok (select m a) else Raise IndexError.

(** [a[i] = v] for one index, then [a[idx] = vals] entry by entry. *)
Definition setitem {A} (a : list A) (i : nat) (v : A) : result (list A) :=
  if decide (i < length a) then Ok (<[i:=v]> a) else Raise IndexError.

Fixpoint put_seq {A} (a : list A) (ivs : list (nat * A)) : result (list A) :=
  match ivs with
  | [] => Ok a
  | (i, v) :: ivs' => a' ← setitem a i v; put_seq a' ivs'
  end.

(** [a[idx] = vals]: [vals] has the length of [idx], or length one and is
    broadcast. *)
Definition np_put {A} (a : list A) (idx : list nat) (vals : list A)
  : result (list A) :=
  if decide (length vals = length idx) then put_seq a (zip idx vals)
  else match vals with
       | [v] => put_seq a (zip idx (replicate (length idx) v))
       | _ => Raise ValueError
       end.

(** [a[idx] = v] for a scalar [v]. *)
Definition np_put_all {A} (a : list A) (idx : list nat) (v : A)
  : result (list A) :=
  put_seq a (zip idx (replicate (length idx) v)).

(** [np.where(m)[0]]. *)
Definition np_where (m : list bool) : list nat :=
  select m (seq 0 (length m)).

(** [a[m] = vals]: one value for each true entry of the mask. *)
Fixpoint mask_fill {A} (m : list bool) (a vals : list A) : list A :=
  match m, a with
  | b :: m', x :: a' =>
      if b then match vals with
               | v :: vals' => v :: mask_fill m' a' vals'
               | [] => x :: mask_fill m' a' []
               end
      else x :: mask_fill m' a' vals
  | _, _ => a
  end.

Definition count_true (m : list bool) : nat := length (filter (λ b, b = true) m).

Definition np_mask_put {A} (a : list A) (m : list bool) (vals : list A)
  : result (list A) :=
  if decide (length m = length a) then
    if decide (length vals = count_true m) then Ok (mask_fill m a vals)
    else Raise ValueError
  else Raise IndexError.

(** [a[m] = v] for a scalar [v]. *)
Definition np_mask_put_all {A} (a : list A) (m : list bool) (v : A)
  : result (list A) :=
  if decide (length m = length a)
  then Ok (zip_with (λ (b : bool) x, if b then v else x) m a)
  else Raise IndexError.

(** Element-wise binary operation on arrays of the same shape. *)
Definition np_zip {A B C} (f : A → B → C) (a : list A) (b : list B)
  : result (list C) :=
  if decide (length a = length b) then Ok (zip_with f a b) else Raise ValueError.

(** [a[i:j]]; a Python slice is clipped to the array. *)
Definition slice {A} (a : list A) (i j : nat) : list A := take (j - i) (drop i a).

(** [np.arange(i, j)] on naturals. *)
Definition arange (i j : nat) : list nat := seq i (j - i).

(** [np.argmin]: the first position of the least entry. *)
Fixpoint argmin_from (best : Q) (bi i : nat) (l : list Q) : nat :=
  match l with
  | [] => bi
  | x :: l' => if Qlt_le_dec x best then argmin_from x i (S i) l'
               else argmin_from best bi (S i) l'
  end.

Definition np_argmin (l : list Q) : result nat :=
  match l with
  | [] => Raise ValueError
  | x :: l' => Ok (argmin_from x 0 1 l')
  end.

(** [np.setdiff1d(r, i)] for [r] an [arange]: already sorted and without
    repetition, so only [i] is taken out. *)
Definition np_setdiff1d (r : list nat) (i : nat) : list nat :=
  filter (λ j, j ≠ i) r.

(** [np.unique(l, return_index=True, return_counts=True)]: the sorted
    distinct values, the position of the first occurrence of each and the
    number of occurrences of each. *)
Fixpoint first_occ (v : nat) (l : list nat) : nat :=
  match l with
  | [] => 0
  | x :: l' => if decide (x = v) then 0 else S (first_occ v l')
  end.

Definition count_occ_nat (v : nat) (l : list nat) : nat :=
  length (filter (λ x, x = v) l).

Definition np_unique (l : list nat) : list nat * list nat * list nat :=
  let u := merge_sort le (remove_dups l) in
  (u, (λ v, first_occ v l) <$> u, (λ v, count_occ_nat v l) <$> u).

(** [np.max] of an integer array; the empty array has no maximum. *)
Definition np_max (l : list Z) : result Z :=
  match l with
  | [] => Raise ValueError
  | x :: l' => Ok (foldl Z.max x l')
  end.

(** [np.maximum] of two numbers. *)
Definition Qmaximum (a b : Q) : Q := if Qle_bool a b then b else a.

Definition Qsum (l : list Q) : Q := foldr Qplus 0%Q l.

(** [np.sum] and [np.mean]. *)
Definition np_sum (l : list Q) : Q := Qsum l.
Definition np_mean (l : list Q) : Q :=
  (Qsum l / inject_Z (Z.of_nat (length l)))%Q.

(** [np.diff] and the loop's check [(np.diff(a) >= 0).all()]. *)
Definition np_diff (l : list Q) : list Q :=
  zip_with (λ a b, (b - a)%Q) l (tail l).

Definition diff_nonneg (l : list Q) : bool :=
  forallb (λ d, Qle_bool 0 d) (np_diff l).

(** [np.argsort]: a stable sort of the positions by their keys. *)
Definition key_le (p q : Q * nat) : Prop := (p.1 <= q.1)%Q.

#[global] Instance key_le_dec : RelDecision key_le.
Proof.
  intros p q. unfold key_le.
  destruct (Qlt_le_dec q.1 p.1) as [H|H].
  - right. intros H'. exact (Qlt_not_le _ _ H H').
  - left. exact H.
Defined.

Definition np_argsort (l : list Q) : list nat :=
  snd <$> merge_sort key_le (zip l (seq 0 (length l))).

(** ** The nearest-trace search *)

(** Modelled from the spec: [find_closest] of [utils.py], which is not part
    of the sources at hand.  For every incoming peak it finds the nearest
    entry of the sorted array: the insertion point of the peak is located
    and the nearer of its two neighbours is taken. *)
Fixpoint searchsorted (x : list Q) (q : Q) : nat :=
  match x with
  | [] => 0
  | a :: x' => if Qlt_le_dec a q then S (searchsorted x' q) else 0
  end.

Definition nth_Q (x : list Q) (i : nat) : Q := nth i x 0%Q.

Definition closest_one (x : list Q) (q : Q) : nat :=
  let ind := searchsorted x q in
  if decide (ind = 0) then 0
  else if decide (ind = length x) then ind - 1
  else if Qlt_le_dec (q - nth_Q x (ind - 1)) (nth_Q x ind - q) then ind - 1
  else ind.

Definition find_closest (x xq : list Q) : list nat :=
  closest_one x <$> xq.

(** ** Data model *)

(** [TempRoi]: the three growing sample lists of an open trace. *)
Record TempRoi : Type := mkTempRoi {
  t_mz : list Q;
  t_sp : list Q;
  t_scan : list nat;
}.

Definition make_empty_temp_roi : TempRoi := mkTempRoi [] [] [].

(** [Roi]: the dense record; [None] stands for not-a-number. *)
Record Roi : Type := mkRoi {
  roi_spint : list (option Q);
  roi_mz : list (option Q);
  roi_rt : list Q;
  roi_first_scan : nat;
  roi_mode : string;
}.

(** [Roi.__init__] through [Chromatogram.__init__]: the mode is checked. *)
Definition Roi_init (spint mz : list (option Q)) (rt : list Q)
    (first_scan : nat) (mode : option string) : result Roi :=
  match mode with
  | None => Ok (mkRoi spint mz rt first_scan "uplc")
  | Some m =>
      if decide (m ∈ ["uplc"; "hplc"]) then Ok (mkRoi spint mz rt first_scan m)
      else Raise ValueError
  end.

(** An argument of type [Union[str, Callable]]: a name, a function of the
    caller, or one of the two numpy functions that the constructor puts in
    place of the names ["mean"] and ["sum"]. *)
Inductive reducer : Type :=
  | ByName (s : string)
  | Callable (f : list Q → Q)
  | NpMean
  | NpSum.

(** Calling the reducer; a string is not callable. *)
Definition call (r : reducer) (l : list Q) : result Q :=
  match r with
  | Callable f => Ok (f l)
  | NpMean => Ok (np_mean l)
  | NpSum => Ok (np_sum l)
  | ByName _ => Raise TypeError
  end.

(** A numpy array with its shape, for the seed given to the constructor. *)
Record ndarray : Type := mkArray {
  shape : list nat;
  data : list Q;
}.

Definition vector (l : list Q) : ndarray := mkArray [length l] l.

(** The attributes of [_RoiProcessor]. *)
Record RoiProcessor : Type := mkProc {
  self_mz_reduce : reducer;
  self_spint_reduce : reducer;
  self_mz_mean : list Q;
  self_roi_index : list Z;
  self_n_missing : list Z;
  self_max_intensity : list Q;
  self_length : list Z;
  self_index : nat;
  self_temp_roi_dict : gmap Z TempRoi;
  self_roi : list Roi;
  self_min_intensity : Q;
  self_max_missing : Z;
  self_min_length : Z;
  self_tolerance : Q;
  self_multiple_match : string;
  self_mode : option string;
}.

(** The five parallel arrays of the active set and the two growing stores
    are the only attributes that change after construction. *)
Definition with_arrays (self : RoiProcessor) (mz_mean : list Q)
    (roi_index n_missing : list Z) (max_intensity : list Q) (len : list Z)
    : RoiProcessor :=
  mkProc (self_mz_reduce self) (self_spint_reduce self) mz_mean roi_index
    n_missing max_intensity len (self_index self) (self_temp_roi_dict self)
    (self_roi self) (self_min_intensity self) (self_max_missing self)
    (self_min_length self) (self_tolerance self) (self_multiple_match self)
    (self_mode self).

Definition with_stores (self : RoiProcessor) (index : nat)
    (d : gmap Z TempRoi) (roi : list Roi) : RoiProcessor :=
  mkProc (self_mz_reduce self) (self_spint_reduce self) (self_mz_mean self)
    (self_roi_index self) (self_n_missing self) (self_max_intensity self)
    (self_length self) index d roi (self_min_intensity self)
    (self_max_missing self) (self_min_length self) (self_tolerance self)
    (self_multiple_match self) (self_mode self).

(** ** [_RoiProcessor.__init__] *)

Definition RoiProcessor_init (mz_seed : ndarray) (max_missing min_length : Z)
    (min_intensity tolerance : Q) (multiple_match : string)
    (mz_reduce sp_reduce : reducer) (mode : option string)
    : result RoiProcessor :=
  if decide (length (shape mz_seed) ≠ 1) then Raise ValueError
  else if decide (multiple_match ∉ ["closest"; "reduce"]) then Raise ValueError
  else
    let _mz_reduce :=
      match mz_reduce with
      | ByName "mean" => NpMean
      | _ => mz_reduce
      end in
    let _spint_reduce :=
      match sp_reduce with
      | ByName "mean" => NpMean
      | ByName "sum" => NpSum
      | _ => sp_reduce
      end in
    let n := length (data mz_seed) in
    let roi_index := Z.of_nat <$> seq 0 n in
    Ok {| self_mz_reduce := _mz_reduce;
          self_spint_reduce := _spint_reduce;
          self_mz_mean := data mz_seed;
          self_roi_index := roi_index;
          self_n_missing := replicate n 0%Z;
          self_max_intensity := replicate n 0%Q;
          self_length := replicate n 0%Z;
          self_index := 0;
          self_temp_roi_dict :=
            list_to_map ((λ x, (x, make_empty_temp_roi)) <$> roi_index);
          self_roi := [];
          self_min_intensity := min_intensity;
          self_max_missing := max_missing;
          self_min_length := min_length;
          self_tolerance := tolerance;
          self_multiple_match := multiple_match;
          self_mode := mode |}.

(** ** [_match_mz] *)

(** The loop of the [closest] branch: for each trace with several
    candidates, the position of the nearest one, its values, and the other
    positions of the group. *)
Fixpoint closest_loop (dmz_m mz2_m sp2_m : list Q)
    (iterator : list (nat * nat * nat))
    : result (list nat * list Q * list Q) :=
  match iterator with
  | [] => Ok ([], [], [])
  | (first_ind, index, count) :: rest =>
      c ← np_argmin (slice dmz_m index (index + count));
      let closest := c + index in
      mzc ← getitem mz2_m closest;
      spc ← getitem sp2_m closest;
      let remove := np_setdiff1d (arange index (index + count)) closest in
      '(rm_index, mz_replace, spint_replace) ←
        closest_loop dmz_m mz2_m sp2_m rest;
      Ok (remove ++ rm_index, mzc :: mz_replace, spc :: spint_replace)
  end.

(** The loop of the [reduce] branch. *)
Fixpoint reduce_loop (mz_reduce sp_reduce : reducer) (mz2_m sp2_m : list Q)
    (iterator : list (nat * nat * nat)) (mz_match sp_match : list Q)
    : result (list Q * list Q) :=
  match iterator with
  | [] => Ok (mz_match, sp_match)
  | (first_ind, index, count) :: rest =>
      let mz_multiple_match := slice mz2_m index (index + count) in
      let sp_multiple_match := slice sp2_m index (index + count) in
      m ← call mz_reduce mz_multiple_match;
      mz_match' ← setitem mz_match first_ind m;
      s ← call sp_reduce sp_multiple_match;
      sp_match' ← setitem sp_match first_ind s;
      reduce_loop mz_reduce sp_reduce mz2_m sp2_m rest mz_match' sp_match'
  end.

Definition match_result : Type :=
  list nat * list Q * list Q * list Q * list Q.

Definition _match_mz (mz1 mz2 sp2 : list Q) (tolerance : Q) (mode : string)
    (mz_reduce sp_reduce : reducer) : result match_result :=
  let closest_index := find_closest mz1 mz2 in
  mz1_c ← np_take mz1 closest_index;
  dmz ← np_zip (λ a b, Qabs (a - b)) mz1_c mz2;
  let match_mask := (λ d, Qle_bool d tolerance) <$> dmz in
  let no_match_mask := negb <$> match_mask in
  match_index ← np_mask closest_index match_mask;
  let '(unique, first_index, count_index) := np_unique match_index in
  let match_index := unique in
  sp2_m ← np_mask sp2 match_mask;
  sp_match ← np_take sp2_m first_index;
  mz2_m ← np_mask mz2 match_mask;
  mz_match ← np_take mz2_m first_index;
  let multiple_match_mask := (λ c, bool_decide (1 < c)) <$> count_index in
  first_index ← np_mask first_index multiple_match_mask;
  '(mz_match, sp_match, no_match_mask) ←
    (if decide (0 < length first_index) then
       let first_index_index := np_where multiple_match_mask in
       count_index ← np_mask count_index multiple_match_mask;
       let iterator := zip (zip first_index_index first_index) count_index in
       if decide (mode = "closest") then
         dmz_m ← np_mask dmz match_mask;
         '(rm_index, mz_replace, spint_replace) ←
           closest_loop dmz_m mz2_m sp2_m iterator;
         no_match_mask ← np_put_all no_match_mask rm_index true;
         mz_match ← np_put mz_match first_index_index mz_replace;
         sp_match ← np_put sp_match first_index_index spint_replace;
         Ok (mz_match, sp_match, no_match_mask)
       else if decide (mode = "reduce") then
         '(mz_match, sp_match) ←
           reduce_loop mz_reduce sp_reduce mz2_m sp2_m iterator
             mz_match sp_match;
         Ok (mz_match, sp_match, no_match_mask)
       else Raise ValueError
     else Ok (mz_match, sp_match, no_match_mask));
  mz_no_match ← np_mask mz2 no_match_mask;
  sp_no_match ← np_mask sp2 no_match_mask;
  Ok (match_index, mz_match, sp_match, mz_no_match, sp_no_match).

(** ** [tmp_roi_to_roi] *)

(** [a[i] = v] for a Python integer index: a negative index counts from the
    end. *)
Definition setitem_int {A} (a : list A) (i : Z) (v : A) : result (list A) :=
  let n := Z.of_nat (length a) in
  if decide (0 ≤ i < n)%Z then Ok (<[Z.to_nat i:=v]> a)
  else if decide (- n ≤ i < 0)%Z then Ok (<[Z.to_nat (i + n):=v]> a)
  else Raise IndexError.

Fixpoint put_seq_int {A} (a : list A) (ivs : list (Z * A)) : result (list A) :=
  match ivs with
  | [] => Ok a
  | (i, v) :: ivs' => a' ← setitem_int a i v; put_seq_int a' ivs'
  end.

Definition np_put_int {A} (a : list A) (idx : list Z) (vals : list A)
  : result (list A) :=
  if decide (length vals = length idx) then put_seq_int a (zip idx vals)
  else match vals with
       | [v] => put_seq_int a (zip idx (replicate (length idx) v))
       | _ => Raise ValueError
       end.

(** [np.ones(size) * np.nan]; a negative size is refused. *)
Definition nan_array (size : Z) : result (list (option Q)) :=
  if decide (size < 0)%Z then Raise ValueError
  else Ok (replicate (Z.to_nat size) None).

Definition tmp_roi_to_roi (tmp_roi : TempRoi) (rt : list Q)
    (mode : option string) : result Roi :=
  first_scan ← getitem (t_scan tmp_roi) 0;
  last_scan ← getitem (t_scan tmp_roi) (length (t_scan tmp_roi) - 1);
  let size := (Z.of_nat last_scan + 1 - Z.of_nat first_scan)%Z in
  mz_tmp ← nan_array size;
  let spint_tmp := mz_tmp in
  let tmp_index :=
    (λ s, (Z.of_nat s - Z.of_nat first_scan)%Z) <$> t_scan tmp_roi in
  let rt_tmp := slice rt first_scan (last_scan + 1) in
  mz_tmp ← np_put_int mz_tmp tmp_index (Some <$> t_mz tmp_roi);
  spint_tmp ← np_put_int spint_tmp tmp_index (Some <$> t_sp tmp_roi);
  Roi_init spint_tmp mz_tmp rt_tmp first_scan mode.

(** ** [_RoiProcessor.extend] *)

Definition extend (self : RoiProcessor) (mz sp : list Q) : result RoiProcessor :=
  max_index ← np_max (self_roi_index self);
  let new_indices :=
    (λ i, (Z.of_nat i + max_index + 1)%Z) <$> seq 0 (length mz) in
  let mz_mean_tmp := self_mz_mean self ++ mz in
  let roi_index_tmp := self_roi_index self ++ new_indices in
  let sorted_index := np_argsort mz_mean_tmp in
  let n_missing_tmp :=
    self_n_missing self ++ replicate (length new_indices) 0%Z in
  let length_tmp := self_length self ++ replicate (length new_indices) 1%Z in
  let max_int_tmp :=
    self_max_intensity self ++ replicate (length new_indices) 0%Q in
  let temp_roi_dict :=
    foldl (λ d '(k_index, k_mz, k_sp),
             <[k_index := mkTempRoi [k_mz] [k_sp] [self_index self]]> d)
          (self_temp_roi_dict self) (zip (zip new_indices mz) sp) in
  mz_mean ← np_take mz_mean_tmp sorted_index;
  roi_index ← np_take roi_index_tmp sorted_index;
  n_missing ← np_take n_missing_tmp sorted_index;
  len ← np_take length_tmp sorted_index;
  max_intensity ← np_take max_int_tmp sorted_index;
  Ok (with_arrays
        (with_stores self (self_index self) temp_roi_dict (self_roi self))
        mz_mean roi_index n_missing max_intensity len).

(** ** [_RoiProcessor.add] *)

(** The loop that appends the matched samples to their open traces. *)
Fixpoint append_samples (roi_index : list Z) (index : nat)
    (d : gmap Z TempRoi) (matches : list (nat * Q * Q))
    : result (gmap Z TempRoi) :=
  match matches with
  | [] => Ok d
  | (k, k_mz, k_sp) :: rest =>
      key ← getitem roi_index k;
      match d !! key with
      | None => Raise KeyError
      | Some k_temp_roi =>
          let grown :=
            mkTempRoi (t_mz k_temp_roi ++ [k_mz]) (t_sp k_temp_roi ++ [k_sp])
              (t_scan k_temp_roi ++ [index]) in
          append_samples roi_index index (<[key := grown]> d) rest
      end
  end.

Definition add (self : RoiProcessor) (mz sp : list Q) (targeted : bool)
    : result RoiProcessor :=
  '(match_index, mz_match, sp_match, mz_no_match, sp_no_match) ←
    _match_mz (self_mz_mean self) mz sp (self_tolerance self)
      (self_multiple_match self) (self_mz_reduce self)
      (self_spint_reduce self);
  temp_roi_dict ←
    append_samples (self_roi_index self) (self_index self)
      (self_temp_roi_dict self) (zip (zip match_index mz_match) sp_match);
  mean_m ← np_take (self_mz_mean self) match_index;
  len_m ← np_take (self_length self) match_index;
  weighted ← np_zip (λ m (n : Z), (m * inject_Z n)%Q) mean_m len_m;
  total ← np_zip Qplus weighted mz_match;
  updated_mean ←
    np_zip (λ t (n : Z), (t / inject_Z (n + 1))%Q) total len_m;
  len ← np_put (self_length self) match_index ((λ n, (n + 1)%Z) <$> len_m);
  let n_missing := (λ n, (n + 1)%Z) <$> self_n_missing self in
  n_missing ← np_put_all n_missing match_index 0%Z;
  max_m ← np_take (self_max_intensity self) match_index;
  new_max ← np_zip Qmaximum max_m sp_match;
  max_intensity ← np_put (self_max_intensity self) match_index new_max;
  let self1 :=
    with_arrays
      (with_stores self (self_index self) temp_roi_dict (self_roi self))
      (self_mz_mean self) (self_roi_index self) n_missing max_intensity len in
  self2 ←
    (if targeted then Ok self1
     else
       mz_mean ← np_put (self_mz_mean self) match_index updated_mean;
       extend (with_arrays self1 mz_mean (self_roi_index self1)
                 (self_n_missing self1) (self_max_intensity self1)
                 (self_length self1))
         mz_no_match sp_no_match);
  Ok (with_stores self2 (self_index self2 + 1) (self_temp_roi_dict self2)
        (self_roi self2)).

(** ** [_RoiProcessor.append_to_roi] *)

(** The loop over the completed positions: the trace leaves the table and,
    when valid, is turned into a ROI. *)
Fixpoint close_loop (roi_index : list Z) (is_valid_roi : list bool)
    (rt : list Q) (mode : option string) (completed_index : list nat)
    (d : gmap Z TempRoi) (roi : list Roi)
    : result (gmap Z TempRoi * list Roi) :=
  match completed_index with
  | [] => Ok (d, roi)
  | ind :: rest =>
      roi_ind ← getitem roi_index ind;
      match d !! roi_ind with
      | None => Raise KeyError
      | Some finished_roi =>
          let d' := delete roi_ind d in
          valid ← getitem is_valid_roi ind;
          roi' ← (if (valid : bool) then
                    r ← tmp_roi_to_roi finished_roi rt mode; Ok (roi ++ [r])
                  else Ok roi);
          close_loop roi_index is_valid_roi rt mode rest d' roi'
      end
  end.

Definition append_to_roi (self : RoiProcessor) (rt : list Q) (targeted : bool)
    : result RoiProcessor :=
  let is_completed :=
    (λ n, bool_decide (self_max_missing self < n)%Z) <$> self_n_missing self in
  is_valid_roi ←
    np_zip andb
      ((λ n, bool_decide (self_min_length self ≤ n)%Z) <$> self_length self)
      ((λ x, Qle_bool (self_min_intensity self) x) <$> self_max_intensity self);
  let completed_index := np_where is_completed in
  '(temp_roi_dict, roi) ←
    close_loop (self_roi_index self) is_valid_roi rt (self_mode self)
      completed_index (self_temp_roi_dict self) (self_roi self);
  let self1 := with_stores self (self_index self) temp_roi_dict roi in
  if targeted then
    n_missing ← np_mask_put_all (self_n_missing self) is_completed 0%Z;
    len ← np_mask_put_all (self_length self) is_completed 0%Z;
    max_intensity ← np_mask_put_all (self_max_intensity self) is_completed 0%Q;
    max_roi_ind ← np_max (self_roi_index self);
    let n_completed := count_true is_completed in
    let new_indices :=
      (λ i, (max_roi_ind + 1 + Z.of_nat i)%Z) <$> seq 0 n_completed in
    roi_index ← np_mask_put (self_roi_index self) is_completed new_indices;
    let temp_roi_dict :=
      foldl (λ d k, <[k := make_empty_temp_roi]> d) temp_roi_dict new_indices in
    Ok (with_arrays
          (with_stores self1 (self_index self1) temp_roi_dict (self_roi self1))
          (self_mz_mean self) roi_index n_missing max_intensity len)
  else
    let keep := negb <$> is_completed in
    mz_mean ← np_mask (self_mz_mean self) keep;
    n_missing ← np_mask (self_n_missing self) keep;
    len ← np_mask (self_length self) keep;
    roi_index ← np_mask (self_roi_index self) keep;
    max_intensity ← np_mask (self_max_intensity self) keep;
    Ok (with_arrays self1 mz_mean roi_index n_missing max_intensity len).

(** ** [_RoiProcessor.flag_as_completed] *)

(** [n_missing] is a 64-bit integer array in the source; the assignment is
    modelled for a [max_missing + 1] that fits. *)
Definition flag_as_completed (self : RoiProcessor) : RoiProcessor :=
  with_arrays self (self_mz_mean self) (self_roi_index self)
    ((λ _, (self_max_missing self + 1)%Z) <$> self_n_missing self)
    (self_max_intensity self) (self_length self).

(** ** [make_roi] *)

(** One spectrum of the experiment: retention time, m/z and intensity. *)
Record spectrum : Type := mkSpectrum {
  getRT : Q;
  peaks_mz : list Q;
  peaks_spint : list Q;
}.

(** The experiment is the list of its spectra; a scan number outside of it
    has no spectrum. *)
Definition getSpectrum (msexp : list spectrum) (k : nat) : result spectrum :=
  getitem msexp k.

(** The body of the loop over the scans. *)
Definition scan_step (msexp : list spectrum) (start : nat) (targeted : bool)
    (st : RoiProcessor * list Q) (k_scan : nat)
    : result (RoiProcessor * list Q) :=
  let '(processor, rt) := st in
  sp ← getSpectrum msexp k_scan;
  rt ← setitem rt (k_scan - start) (getRT sp);
  processor ← add processor (peaks_mz sp) (peaks_spint sp) targeted;
  processor ← append_to_roi processor rt targeted;
  if diff_nonneg (self_mz_mean processor) then Ok (processor, rt)
  else Raise AssertionError.

Fixpoint scan_loop (msexp : list spectrum) (start : nat) (targeted : bool)
    (st : RoiProcessor * list Q) (scans : list nat)
    : result (RoiProcessor * list Q) :=
  match scans with
  | [] => Ok st
  | k_scan :: rest =>
      st' ← scan_step msexp start targeted st k_scan;
      scan_loop msexp start targeted st' rest
  end.

Definition make_roi (msexp : list spectrum) (tolerance : Q)
    (max_missing min_length : Z) (min_intensity : Q) (multiple_match : string)
    (targeted_mz : option ndarray) (start end_ : option nat)
    (mz_reduce sp_reduce : reducer) (mode : option string)
    : result (list Roi) :=
  let start := default 0 start in
  let end_ := default (length msexp) end_ in
  '(mz_seed, targeted) ←
    match targeted_mz with
    | None => sp ← getSpectrum msexp start; Ok (vector (peaks_mz sp), false)
    | Some t => Ok (t, true)
    end;
  rt ← (if decide (end_ < start) then Raise ValueError
        else Ok (replicate (end_ - start) 0%Q));
  processor ←
    RoiProcessor_init mz_seed max_missing min_length min_intensity tolerance
      multiple_match mz_reduce sp_reduce mode;
  '(processor, rt) ←
    scan_loop msexp start targeted (processor, rt) (arange start end_);
  let processor := flag_as_completed processor in
  processor ← append_to_roi processor rt false;
  Ok (self_roi processor).

(** ** Parameter dictionaries *)

(** A value of a keyword dictionary. *)
Inductive pyval : Type :=
  | PNone
  | PInt (n : Z)
  | PFloat (x : Q)
  | PStr (s : string).

Definition kwargs : Type := gmap string pyval.

(** [d.update(e)]: the entries of [e] win. *)
Definition dict_update (d e : kwargs) : kwargs := e ∪ d.

(** [np.linspace(start, stop, num)]: [num] evenly spaced samples, the last
    one being [stop] itself. *)
Definition np_linspace (start stop : Q) (num : nat) : list Q :=
  let step := ((stop - start) / inject_Z (Z.of_nat (num - 1)))%Q in
  let y := (λ i, (inject_Z (Z.of_nat i) * step + start)%Q) <$> seq 0 num in
  if decide (1 < num) then <[num - 1 := stop]> y else y.

(** [a[:-1]]. *)
Definition drop_last {A} (a : list A) : list A := take (length a - 1) a.

Definition make_widths_lc (mode : string) : result (list Q) :=
  '(min_width, middle, max_width) ←
    (if decide (mode = "uplc") then Ok (1, 15, 60)%Q
     else if decide (mode = "hplc") then Ok (1, 30, 90)%Q
     else Raise ValueError);
  Ok (drop_last (np_linspace min_width middle 20)
      ++ np_linspace middle max_width 20).

Definition make_widths_ms (mode : string) : result (list Q) :=
  '(min_width, middle, max_width) ←
    (if decide (mode = "qtof") then Ok (5 # 1000, 1 # 10, 2 # 10)%Q
     else if decide (mode = "qtof") then Ok (5 # 10000, 1 # 1000, 5 # 1000)%Q
     else Raise ValueError);
  Ok (drop_last (np_linspace min_width middle 20)
      ++ np_linspace middle max_width 10).

Definition cwt_defaults : kwargs :=
  <["gap_thresh" := PInt 1]> (<["max_distance" := PNone]>
  (<["min_length" := PNone]> (<["bl_ratio" := PInt 2]>
  (<["snr" := PInt 10]> ∅)))).

Definition get_lc_cwt_params (mode : string) : result kwargs :=
  let cwt_params := cwt_defaults in
  if decide (mode = "hplc") then
    Ok (<["max_width" := PInt 90]> (<["min_width" := PInt 10]> cwt_params))
  else if decide (mode = "uplc") then
    Ok (<["max_width" := PInt 60]> (<["min_width" := PInt 5]> cwt_params))
  else Raise ValueError.

Definition get_ms_cwt_params (mode : string) : result kwargs :=
  let cwt_params := cwt_defaults in
  if decide (mode = "qtof") then
    Ok (<["max_width" := PFloat (2 # 10)]>
        (<["min_width" := PFloat (1 # 100)]> cwt_params))
  else if decide (mode = "orbitrap") then
    Ok (<["max_width" := PFloat (5 # 1000)]>
        (<["min_width" := PFloat (5 # 10000)]> cwt_params))
  else Raise ValueError.

Definition get_roi_params (separation instrument : string) : result kwargs :=
  let roi_params : kwargs :=
    <["multiple_match" := PStr "reduce"]> (<["min_intensity" := PInt 500]> ∅) in
  roi_params ←
    (if decide (separation = "uplc") then
       Ok (dict_update roi_params
             (<["min_length" := PInt 10]> (<["max_missing" := PInt 1]> ∅)))
     else if decide (separation = "hplc") then
       Ok (dict_update roi_params
             (<["min_length" := PInt 20]> (<["max_missing" := PInt 1]> ∅)))
     else Raise ValueError);
  roi_params ←
    (if decide (instrument = "qtof") then
       Ok (dict_update roi_params (<["tolerance" := PFloat (1 # 100)]> ∅))
     else if decide (instrument = "orbitrap") then
       Ok (dict_update roi_params (<["tolerance" := PFloat (5 # 1000)]> ∅))
     else Raise ValueError);
  Ok (<["mode" := PStr separation]> roi_params).

(** [MSSpectrum]: the peak type and the peak picker come from the module
    [peaks], which the constructor and [find_peaks] only pass around. *)
Record MSSpectrum (Peak : Type) : Type := mkMSSpectrum {
  ms_mz : list Q;
  ms_spint : list Q;
  ms_peaks : option (list Peak);
  ms_mode : string;
}.
Arguments mkMSSpectrum {Peak} _ _ _ _.
Arguments ms_mz {Peak} _.
Arguments ms_spint {Peak} _.
Arguments ms_peaks {Peak} _.
Arguments ms_mode {Peak} _.

Definition MSSpectrum_init {Peak} (mz spint : list Q) (mode : option string)
    : result (MSSpectrum Peak) :=
  match mode with
  | None => Ok (mkMSSpectrum mz spint None "qtof")
  | Some m =>
      if decide (m ∈ ["qtof"; "orbitrap"]) then Ok (mkMSSpectrum mz spint None m)
      else Raise ValueError
  end.

(** [MSSpectrum.find_peaks]; [pick_cwt] is the peak picker of the module
    [peaks]. *)
Definition MSSpectrum_find_peaks {Peak}
    (pick_cwt : list Q → list Q → list Q → kwargs → result (list Peak))
    (self : MSSpectrum Peak) (mode : string) (cwt_params : option kwargs)
    : result (MSSpectrum Peak) :=
  default_params ← get_ms_cwt_params mode;
  let default_params :=
    match cwt_params with
    | Some c => if decide (c = ∅) then default_params
                else dict_update default_params c
    | None => default_params
    end in
  widths ← make_widths_ms mode;
  peak_list ← pick_cwt (ms_mz self) (ms_spint self) widths default_params;
  Ok (mkMSSpectrum (ms_mz self) (ms_spint self) (Some peak_list) (ms_mode self)).

(** ** The feature labels of [detect_roi_peaks] *)

(** [str(n)] for a non-negative integer. *)
Definition py_str (n : nat) : string := pretty n.

(** [s.rjust(width, fill)]. *)
Fixpoint pad (k : nat) (fill : Ascii.ascii) (s : string) : string :=
  match k with
  | 0 => s
  | S k' => String fill (pad k' fill s)
  end.

Definition rjust (s : string) (width : nat) (fill : Ascii.ascii) : string :=
  pad (width - String.length s) fill s.

(** The inner function [ft_formatter] and the index of the data frame that
    [detect_roi_peaks] returns for [n_features] detected peaks. *)
Definition ft_formatter (max_ft_str_length : nat) (x : nat) : string :=
  "FT" +:+ rjust (py_str (x + 1)) max_ft_str_length "0"%char.

Definition feature_index (n_features : nat) : list string :=
  let max_ft_str_length := String.length (py_str n_features) in
  ft_formatter max_ft_str_length <$> seq 0 n_features.

(** ** Isotopic distributions *)

(** The mass difference that a 13C atom makes. *)
Definition dm : Q := 1003355 # 1000000.

(** [find_isotopic_distribution_aux].  The argument [closest] stands for
    [find_closest] of [utils.py] on one value; on an array it is applied
    entry by entry.  The charge [q] is not zero: a zero charge gives
    infinite masses, which the rationals leave out. *)
Definition find_isotopic_distribution_aux (closest : list Q → Q → nat)
    (mz : list Q) (mz_ft : Q) (q n_isotopes : Z) (tol : Q)
    : result (list nat) :=
  let mono_index := closest mz mz_ft in
  mz_mono ← getitem mz mono_index;
  if Qlt_le_dec tol (Qabs (mz_mono - mz_ft)) then Ok []
  else
    let mz_theoretic :=
      (λ k, (mz_mono + inject_Z (Z.of_nat k) * dm / inject_Z q)%Q)
        <$> seq 0 (Z.to_nat n_isotopes) in
    let closest_ind := closest mz <$> mz_theoretic in
    mz_closest ← np_take mz closest_ind;
    d ← np_zip (λ a b, Qabs (a - b)) mz_closest mz_theoretic;
    let match_ind := np_where ((λ x, Qle_bool x tol) <$> d) in
    np_take closest_ind match_ind.

(** The loop of [find_isotopic_distribution] over the charge states;
    [n_peaks] is never assigned in the loop. *)
Fixpoint charge_loop (closest : list Q → Q → nat) (mz : list Q) (mz_mono : Q)
    (n_isotopes : Z) (tol : Q) (charges : list Z) (best_peaks : list nat)
    (n_peaks : nat) : result (list nat) :=
  match charges with
  | [] => Ok best_peaks
  | q :: rest =>
      tmp ← find_isotopic_distribution_aux closest mz mz_mono q n_isotopes tol;
      let best_peaks :=
        if decide (n_peaks < length tmp) then tmp else best_peaks in
      charge_loop closest mz mz_mono n_isotopes tol rest best_peaks n_peaks
  end.

(** [range(1, q_max + 1)]. *)
Definition charges_upto (q_max : Z) : list Z :=
  (λ i, (Z.of_nat i + 1)%Z) <$> seq 0 (Z.to_nat q_max).

Definition find_isotopic_distribution (closest : list Q → Q → nat)
    (mz : list Q) (mz_mono : Q) (q_max n_isotopes : Z) (tol : Q)
    : result (list nat) :=
  charge_loop closest mz mz_mono n_isotopes tol (charges_upto q_max) [] 0.

(** ** [chromatogram] *)

(** [a[::2]] and [a[1::2]]. *)
Fixpoint evens {A} (l : list A) : list A :=
  match l with
  | [] => []
  | [x] => [x]
  | x :: _ :: l' => x :: evens l'
  end.

Definition odds {A} (l : list A) : list A := evens (tail l).

(** [np.searchsorted(a, v)] for an ascending array [a]: the number of
    entries below each value. *)
Definition np_searchsorted (a v : list Q) : list Z :=
  (λ q, Z.of_nat (searchsorted a q)) <$> v.

(** [np.add.reduceat(a, ind)]: entry [k] is the sum of [a] from [ind[k]]
    up to [ind[k+1]], or the single entry [a[ind[k]]] when the next index
    is not larger; the last one sums to the end.  Every index must be a
    position of [a]. *)
Definition reduceat_entry (a : list Q) (i : Z) (next : option Z) : result Q :=
  if decide (0 ≤ i < Z.of_nat (length a))%Z then
    match next with
    | Some j =>
        if decide (i < j)%Z then Ok (Qsum (slice a (Z.to_nat i) (Z.to_nat j)))
        else getitem a (Z.to_nat i)
    | None => Ok (Qsum (drop (Z.to_nat i) a))
    end
  else Raise IndexError.

Fixpoint np_add_reduceat (a : list Q) (ind : list Z) : result (list Q) :=
  match ind with
  | [] => Ok []
  | i :: rest =>
      x ← reduceat_entry a i (head rest);
      xs ← np_add_reduceat a rest;
      Ok (x :: xs)
  end.

(** The body of the loop over the scans.  The array [eic] is kept by
    columns: its entry [k] is [eic[:, k]]. *)
Definition chromatogram_step (msexp : list spectrum) (mz_intervals : list Q)
    (accumulator : string) (st : list Q * list (list Q)) (ksp : nat)
    : result (list Q * list (list Q)) :=
  let '(rt, eic) := st in
  sp ← getSpectrum msexp ksp;
  rt ← setitem rt ksp (getRT sp);
  let mz_sp := peaks_mz sp in
  let int_sp := peaks_spint sp in
  let ind_sp := np_searchsorted mz_sp mz_intervals in
  let has_mz :=
    zip_with (λ r l, bool_decide (0 < r - l)%Z) (odds ind_sp) (evens ind_sp) in
  let size := Z.of_nat (length int_sp) in
  let ind_sp := (λ i, if decide (size ≤ i)%Z then (size - 1)%Z else i) <$> ind_sp in
  sums ← np_add_reduceat int_sp ind_sp;
  let column :=
    zip_with (λ (b : bool) x, if b then x else 0%Q) has_mz (evens sums) in
  eic ← setitem eic ksp column;
  if decide (accumulator = "mean") then
    let norm := zip_with Z.sub (odds ind_sp) (evens ind_sp) in
    let norm := (λ n, if decide (n = 0)%Z then 1%Z else n) <$> norm in
    column ← getitem eic ksp;
    eic ← setitem eic ksp (zip_with (λ x n, (x / inject_Z n)%Q) column norm);
    Ok (rt, eic)
  else if decide (accumulator = "sum") then Ok (rt, eic)
  else Raise ValueError.

Fixpoint chromatogram_loop (msexp : list spectrum) (mz_intervals : list Q)
    (accumulator : string) (st : list Q * list (list Q)) (scans : list nat)
    : result (list Q * list (list Q)) :=
  match scans with
  | [] => Ok st
  | ksp :: rest =>
      st' ← chromatogram_step msexp mz_intervals accumulator st ksp;
      chromatogram_loop msexp mz_intervals accumulator st' rest
  end.

Definition chromatogram (msexp : list spectrum) (mz : list Q) (window : Q)
    (start end_ : option nat) (accumulator : string)
    : result (list Q * list (list Q)) :=
  let mz_intervals := mjoin ((λ m, [m - window; m + window]%Q) <$> mz) in
  let nsp := length msexp in
  let start := default 0 start in
  let end_ := default nsp end_ in
  if decide (end_ < start) then Raise ValueError
  else
    let eic := replicate (end_ - start) (replicate (length mz) 0%Q) in
    let rt := replicate (end_ - start) 0%Q in
    chromatogram_loop msexp mz_intervals accumulator (rt, eic)
      (arange start end_).

(** * Vocabulary of the statements *)

(** The two masks computed at the start of [append_to_roi]. *)
Definition is_completed (self : RoiProcessor) : list bool :=
  (λ n, bool_decide (self_max_missing self < n)%Z) <$> self_n_missing self.

Definition is_valid_roi (self : RoiProcessor) : list bool :=
  zip_with andb
    ((λ n, bool_decide (self_min_length self ≤ n)%Z) <$> self_length self)
    ((λ x, Qle_bool (self_min_intensity self) x) <$> self_max_intensity self).

(** The number of active traces. *)
Definition active_count (self : RoiProcessor) : nat :=
  length (self_mz_mean self).

(** The identities and the table entries that [extend] creates. *)
Definition new_indices_of (max_index : Z) (n : nat) : list Z :=
  (λ i, (Z.of_nat i + max_index + 1)%Z) <$> seq 0 n.

Definition spawn (index : nat) (d : gmap Z TempRoi)
    (news : list (Z * Q * Q)) : gmap Z TempRoi :=
  foldl (λ d '(k_index, k_mz, k_sp),
           <[k_index := mkTempRoi [k_mz] [k_sp] [index]]> d) d news.

(** The state of [add] before its last branch on [targeted]. *)
Definition add_updated (self : RoiProcessor) (d : gmap Z TempRoi)
    (n_missing : list Z) (max_intensity : list Q) (len : list Z)
    : RoiProcessor :=
  with_arrays (with_stores self (self_index self) d (self_roi self))
    (self_mz_mean self) (self_roi_index self) n_missing max_intensity len.

(** The last statement of [add]: the scan counter moves on. *)
Definition next_scan (self : RoiProcessor) : RoiProcessor :=
  with_stores self (self_index self + 1) (self_temp_roi_dict self)
    (self_roi self).

(** The array [updated_mean] of [add]. *)
Definition updated_mean_of (mean_m : list Q) (len_m : list Z)
    (mz_match : list Q) : list Q :=
  zip_with (λ t (n : Z), (t / inject_Z (n + 1))%Q)
    (zip_with Qplus (zip_with (λ m (n : Z), (m * inject_Z n)%Q) mean_m len_m)
       mz_match)
    len_m.

(** All five parallel arrays have [n] entries. *)
Definition slots (self : RoiProcessor) (n : nat) : Prop :=
  length (self_mz_mean self) = n ∧ length (self_roi_index self) = n ∧
  length (self_n_missing self) = n ∧ length (self_max_intensity self) = n ∧
  length (self_length self) = n.

(** The states a targeted run goes through after construction: any
    sequence of [add] and [append_to_roi] calls with [targeted = True]. *)
Inductive targeted_run (self0 : RoiProcessor) : RoiProcessor → Prop :=
  | run_start : targeted_run self0 self0
  | run_add self mz sp self' :
      targeted_run self0 self → add self mz sp true = Ok self' →
      targeted_run self0 self'
  | run_close self rt self' :
      targeted_run self0 self → append_to_roi self rt true = Ok self' →
      targeted_run self0 self'.

(** What a targeted finalize pass does to one slot. *)
Definition slot_reset (self self' : RoiProcessor) (i : nat) : Prop :=
  self_n_missing self' !! i = Some 0%Z ∧
  self_length self' !! i = Some 0%Z ∧
  self_max_intensity self' !! i = Some 0%Q ∧
  self_mz_mean self' !! i = self_mz_mean self !! i ∧
  ∃ id, self_roi_index self' !! i = Some id ∧
        (id ∉ self_roi_index self) ∧
        self_temp_roi_dict self' !! id = Some make_empty_temp_roi.

(** And to a slot that is not closed. *)
Definition slot_kept (self self' : RoiProcessor) (i : nat) : Prop :=
  self_n_missing self' !! i = self_n_missing self !! i ∧
  self_length self' !! i = self_length self !! i ∧
  self_max_intensity self' !! i = self_max_intensity self !! i ∧
  self_mz_mean self' !! i = self_mz_mean self !! i ∧
  self_roi_index self' !! i = self_roi_index self !! i.

(** A sequence of in-range assignments, as a fold of list updates. *)
Definition put_all {A} (a : list A) (ivs : list (nat * A)) : list A :=
  foldl (λ a p, <[p.1 := p.2]> a) a ivs.

(** The modes that [Roi.__init__] accepts. *)
Definition valid_mode (mode : option string) : Prop :=
  match mode with None => True | Some m => m ∈ ["uplc"; "hplc"] end.

(** The two dense arrays that [tmp_roi_to_roi] fills. *)
Definition dense (first lst : nat) (scan : list nat) (vals : list Q)
    : list (option Q) :=
  put_all (replicate (lst + 1 - first) None)
    (zip ((λ s, s - first) <$> scan) (Some <$> vals)).

(** The trace at position [ind] is closed into the ROI [r]: it passes the
    validity test and [r] is built from its samples. *)
Definition emits (self : RoiProcessor) (rt : list Q) (ind : nat) (r : Roi)
    : Prop :=
  ∃ missing len maxi id tmp_roi,
    self_n_missing self !! ind = Some missing ∧
    (self_max_missing self < missing)%Z ∧
    self_length self !! ind = Some len ∧
    (self_min_length self ≤ len)%Z ∧
    self_max_intensity self !! ind = Some maxi ∧
    (self_min_intensity self <= maxi)%Q ∧
    self_roi_index self !! ind = Some id ∧
    self_temp_roi_dict self !! id = Some tmp_roi ∧
    tmp_roi_to_roi tmp_roi rt (self_mode self) = Ok r.

(** The positions that a finalize pass turns into ROIs, in order. *)
Definition closed_valid (self : RoiProcessor) : list nat :=
  filter (λ i, is_valid_roi self !! i = Some true)
    (np_where (is_completed self)).

(** A processor with the default reducers, [max_missing = 1], tolerance
    0.005 and the [closest] policy. *)
Definition mean_sum_processor (seed : list Q) (min_length : Z)
    (min_intensity : Q) : result RoiProcessor :=
  RoiProcessor_init (vector seed) 1 min_length min_intensity (5 # 1000)
    "closest" (ByName "mean") (ByName "sum") None.

(** [np.argmin] on a non-empty array. *)
Definition argmin_total (s : list Q) : nat :=
  match s with
  | [] => 0
  | x :: s' => argmin_from x 0 1 s'
  end.

(** [a] is the first position of a least entry of [s]. *)
Definition first_min (s : list Q) (a : nat) : Prop :=
  a < length s ∧
  ∀ i x y, s !! i = Some x → s !! a = Some y →
    (i < a → (y < x)%Q) ∧ (a < i → (y <= x)%Q).

(** The group of a trace in the in-range arrays: first position and size;
    its nearest peak and the positions of the other ones. *)
Definition group_winner (d_m : list Q) (g : nat * nat) : nat :=
  argmin_total (slice d_m g.1 (g.1 + g.2)) + g.1.

(** The other positions of the group. *)
Definition group_losers (d_m : list Q) (g : nat * nat) : list nat :=
  filter (λ j, j ≠ group_winner d_m g) (seq g.1 g.2).

(** The group that an entry of the iterator of [_match_mz] stands for. *)
Definition group_of (x : nat * nat * nat) : nat * nat := (x.1.2, x.2).

(** The arrays [dmz] and [match_mask] of [_match_mz]. *)
Definition distances (mz1 mz2 : list Q) : list Q :=
  zip_with (λ a b, Qabs (a - b)) (nth_Q mz1 <$> find_closest mz1 mz2) mz2.

Definition in_range (mz1 mz2 : list Q) (tolerance : Q) : list bool :=
  (λ d, Qle_bool d tolerance) <$> distances mz1 mz2.

(** First position and size of the group of each matched trace. *)
Definition groups (l : list nat) : list (nat * nat) :=
  (λ k, (first_occ k l, count_occ_nat k l))
    <$> merge_sort le (remove_dups l).

(** A group with more than one peak. *)
Definition contended (g : nat * nat) : bool := bool_decide (1 < g.2).

(** The positions, among the in-range peaks, of the peaks that lose. *)
Definition losers (l : list nat) (d_m : list Q) : list nat :=
  mjoin (group_losers d_m <$> filter (λ g, contended g = true) (groups l)).

(** Among the in-range peaks (trace indices [l], distances [d]), the peak at
    position [p] is the nearest one of its trace, and the first such in the
    order of the scan. *)
Definition nearest_first (l : list nat) (d : list Q) (p : nat) : Prop :=
  p < length l ∧
  ∀ p' k x y, l !! p = Some k → l !! p' = Some k →
    d !! p = Some x → d !! p' = Some y →
    (p' < p → (x < y)%Q) ∧ (p < p' → (x <= y)%Q).

(** Three scans: both masses, then twice the first one only. *)
Definition demo_msexp : list spectrum :=
  [mkSpectrum 1 [100; 200]%Q [7; 9]%Q; mkSpectrum 2 [100%Q] [7%Q];
   mkSpectrum 3 [100%Q] [7%Q]].

(** A processor with one trace at 100.0 and one at 200.0, the second one
    silent for two scans. *)
Definition demo_state : result RoiProcessor :=
  p ← mean_sum_processor [100; 200]%Q 1 0;
  p ← add p [100; 200]%Q [7; 9]%Q false;
  p ← add p [100%Q] [7%Q] false;
  add p [100%Q] [7%Q] false.

(** The record of an open trace agrees with its [TempRoi]: [len] counts the
    samples, the three sample lists are parallel, the scans increase and
    lie below [bound], and [maxi] is zero or the intensity of a sample. *)
Definition trace_ok (bound : nat) (t : TempRoi) (len : Z) (maxi : Q) : Prop :=
  len = Z.of_nat (length (t_sp t)) ∧
  length (t_mz t) = length (t_sp t) ∧
  length (t_scan t) = length (t_sp t) ∧
  StronglySorted lt (t_scan t) ∧
  Forall (λ s, s < bound) (t_scan t) ∧
  (maxi = 0%Q ∨ maxi ∈ t_sp t).

(** The arrays are aligned, the identities distinct, and every open trace
    agrees with its entry of the table. *)
Definition consistent_upto (bound : nat) (self : RoiProcessor) : Prop :=
  slots self (length (self_roi_index self)) ∧
  NoDup (self_roi_index self) ∧
  ∀ i id len maxi,
    self_roi_index self !! i = Some id →
    self_length self !! i = Some len →
    self_max_intensity self !! i = Some maxi →
    ∃ t, self_temp_roi_dict self !! id = Some t ∧ trace_ok bound t len maxi.

Definition consistent (self : RoiProcessor) : Prop :=
  consistent_upto (self_index self) self.

(** The sample appended to an open trace. *)
Definition grow (t : TempRoi) (k_mz k_sp : Q) (index : nat) : TempRoi :=
  mkTempRoi (t_mz t ++ [k_mz]) (t_sp t ++ [k_sp]) (t_scan t ++ [index]).

(** The samples that a dense array of a ROI records: its entries that are
    not NaN, in the order of the scans. *)
Definition recorded (a : list (option Q)) : list Q := omap id a.

(** The ROI [r] holds the samples of the trace [t], and nothing else. *)
Definition holds_samples (r : Roi) (t : TempRoi) : Prop :=
  recorded (roi_spint r) = t_sp t ∧ recorded (roi_mz r) = t_mz t.

(** The ROI [r] records at least [min_length] samples, at least one in any
    case, and one of its recorded intensities is at least [min_intensity],
    provided that [min_intensity] is positive or that no recorded intensity
    is negative. *)
Definition roi_valid (min_length : Z) (min_intensity : Q) (r : Roi) : Prop :=
  (min_length ≤ Z.of_nat (length (recorded (roi_spint r))))%Z ∧
  recorded (roi_spint r) ≠ [] ∧
  ((0 < min_intensity)%Q ∨
   Forall (λ x, (0 <= x)%Q) (recorded (roi_spint r)) →
   ∃ x, x ∈ recorded (roi_spint r) ∧ (min_intensity <= x)%Q).

(** The thresholds never change, and only a finalize pass adds ROIs. *)
Definition same_thresholds (self self' : RoiProcessor) : Prop :=
  self_min_length self' = self_min_length self ∧
  self_min_intensity self' = self_min_intensity self.

(** The invariant of a run: the arrays agree with the samples and every
    ROI finished so far is valid. *)
Definition run_ok (min_length : Z) (min_intensity : Q)
    (self : RoiProcessor) : Prop :=
  consistent self ∧
  self_min_length self = min_length ∧
  self_min_intensity self = min_intensity ∧
  Forall (roi_valid min_length min_intensity) (self_roi self).

(** The entries of [l] increase strictly. *)
Fixpoint increasing (l : list Q) : bool :=
  match l with
  | [] => true
  | x :: l' =>
      match l' with
      | [] => true
      | y :: _ => if Qlt_le_dec x y then increasing l' else false
      end
  end.

(** The string starts with the digit zero (or is empty). *)
Definition starts_with_zero (s : string) : Prop :=
  match s with String c _ => c = "0"%char | EmptyString => True end.

(** The theoretical mass of the isotope number [k]. *)
Definition isotope_mass (mz_mono : Q) (q : Z) (k : nat) : Q :=
  (mz_mono + inject_Z (Z.of_nat k) * dm / inject_Z q)%Q.

(** A peak list with the isotopes of a singly and of a doubly charged ion at
    100.0. *)
Definition demo_peaks : list Q :=
  [100; 100501678 # 1000000; 101003355 # 1000000; 102006710 # 1000000]%Q.

(** The two edges of the window of each mass, side by side. *)
Definition intervals (mz : list Q) (window : Q) : list Q :=
  mjoin ((λ m, [m - window; m + window]%Q) <$> mz).

(** An index past the end of a spectrum of [size] peaks is moved to its last
    peak. *)
Definition clamp (size i : nat) : nat :=
  if decide (size ≤ i) then size - 1 else i.

(** The entry of the chromatogram that one spectrum gives for the window
    from [lo] to [hi]. *)
Definition eic_entry (sp : spectrum) (lo hi : Q) : Q :=
  let l := searchsorted (peaks_mz sp) lo in
  let r := searchsorted (peaks_mz sp) hi in
  let size := length (peaks_spint sp) in
  if decide (l < r) then
    if decide (clamp size l < clamp size r)
    then Qsum (slice (peaks_spint sp) (clamp size l) (clamp size r))
    else nth_Q (peaks_spint sp) (clamp size l)
  else 0%Q.

(** The summed intensity of the peaks with [lo <= mz < hi]. *)
Definition in_window (lo hi : Q) (p : Q * Q) : bool :=
  Qle_bool lo p.1 && negb (Qle_bool hi p.1).

Definition window_sum (mz_sp int_sp : list Q) (lo hi : Q) : Q :=
  Qsum ((filter (λ p, in_window lo hi p = true) (zip mz_sp int_sp)).*2).

(** Adding up with [reduceat] over in-range pairs of indices. *)
Definition pair_sum (a : list Q) (l r : nat) : Q :=
  if decide (l < r) then Qsum (slice a l r) else nth_Q a l.

(** The column that the spectrum [sp] gives. *)
Definition eic_column (mz : list Q) (window : Q) (sp : spectrum) : list Q :=
  (λ m, eic_entry sp (m - window) (m + window)%Q) <$> mz.

(** Three scans; the window of the mass 300 reaches beyond the last peak of
    each of them. *)
Definition eic_msexp : list spectrum :=
  [mkSpectrum 1 [100; 200; 300]%Q [7; 9; 11]%Q;
   mkSpectrum 2 [100; 200; 201; 300]%Q [1; 2; 4; 8]%Q;
   mkSpectrum 3 [298; 299; 300]%Q [1; 2; 4]%Q].

(** The arrays of a finished ROI have the same length, and its retention
    times are those of the scans of the experiment that it spans, counted
    from the first scan of the run. *)
Definition roi_aligned (msexp : list spectrum) (start : nat) (r : Roi) : Prop :=
  length (roi_mz r) = length (roi_spint r) ∧
  length (roi_rt r) = length (roi_spint r) ∧
  ∀ o, o < length (roi_rt r) →
    roi_rt r !! o = getRT <$> msexp !! (start + roi_first_scan r + o).

(** The state of the scan loop of [make_roi] after [i] scans. *)
Definition scans_done (msexp : list spectrum) (start i : nat)
    (st : RoiProcessor * list Q) : Prop :=
  consistent st.1 ∧ self_index st.1 = i ∧ i ≤ length st.2 ∧
  (∀ j, j < i → st.2 !! j = getRT <$> msexp !! (start + j)) ∧
  Forall (roi_aligned msexp start) (self_roi st.1).

(** A reducer that can be called: a function, not a name that the
    constructor has left in place. *)
Definition callable (r : reducer) : Prop :=
  match r with ByName _ => False | _ => True end.

(** The value of a callable reducer. *)
Definition apply_reducer (r : reducer) (l : list Q) : Q :=
  match r with
  | Callable f => f l
  | NpMean => np_mean l
  | NpSum => np_sum l
  | ByName _ => 0%Q
  end.

(** The value that the [reduce] policy gives to a trace: the reducer on the
    in-range peaks of its group when there are several, the single peak
    otherwise. *)
Definition group_value (r : reducer) (a : list Q) (g : nat * nat) : Q :=
  if contended g then apply_reducer r (slice a g.1 (g.1 + g.2))
  else nth_Q a g.1.

(** The values of [a] at the positions where the in-range peaks have [k] as
    their nearest trace. *)
Definition peaks_of (k : nat) (l : list nat) (a : list Q) : list Q :=
  (filter (λ p, p.1 = k) (zip l a)).*2.

(** What the [reduce] policy makes of the peaks of one trace. *)
Definition reduced (r : reducer) (peaks : list Q) : Q :=
  match peaks with
  | [x] => x
  | _ => apply_reducer r peaks
  end.

(** The reducers are needed by the [reduce] policy only. *)
Definition policy_ok (mode : string) (mz_reduce sp_reduce : reducer) : Prop :=
  mode = "closest" ∨
  (mode = "reduce" ∧ callable mz_reduce ∧ callable sp_reduce).

(** A reducer given to the constructor that it knows by name, or a
    function. *)
Definition known_reducer (names : list string) (r : reducer) : Prop :=
  match r with ByName s => s ∈ names | _ => True end.

(** A spectrum with ascending m/z values and one intensity for each. *)
Definition ascending (sp : spectrum) : Prop :=
  Sorted Qle (peaks_mz sp) ∧ length (peaks_spint sp) = length (peaks_mz sp).

(** The settings of the engine, which no method changes. *)
Definition settings (self : RoiProcessor)
    : reducer * reducer * Q * Z * Z * Q * string * option string :=
  (self_mz_reduce self, self_spint_reduce self, self_min_intensity self,
   self_max_missing self, self_min_length self, self_tolerance self,
   self_multiple_match self, self_mode self).

(** An integer that fits a numpy [int] array. *)
Definition int64 (n : Z) : Prop := (- 2 ^ 63 ≤ n < 2 ^ 63)%Z.

(** The state of an engine that takes the next scan without raising. *)
Definition engine_ready (targeted : bool) (self : RoiProcessor) : Prop :=
  consistent self ∧ self_mz_mean self ≠ [] ∧
  (targeted = true → Sorted Qle (self_mz_mean self)) ∧
  policy_ok (self_multiple_match self) (self_mz_reduce self)
    (self_spint_reduce self) ∧
  valid_mode (self_mode self) ∧ (0 < self_min_length self)%Z ∧
  (targeted = false → (0 ≤ self_max_missing self)%Z).

(** The states of the engine: whatever the constructor returns, and
    whatever a method returns on such a state. *)
Inductive reachable : RoiProcessor → Prop :=
  | reach_init mz_seed max_missing min_length min_intensity tolerance
      multiple_match mz_reduce sp_reduce mode self :
      RoiProcessor_init mz_seed max_missing min_length min_intensity tolerance
        multiple_match mz_reduce sp_reduce mode = Ok self →
      reachable self
  | reach_add self mz sp targeted self' :
      reachable self → add self mz sp targeted = Ok self' → reachable self'
  | reach_append self rt targeted self' :
      reachable self → append_to_roi self rt targeted = Ok self' →
      reachable self'
  | reach_flag self :
      reachable self → reachable (flag_as_completed self).

(** * Properties *)

(** ** The exception monad *)

Lemma bind_Ok {A B} (m : result A) (f : A → result B) (b : B) :
  m ≫= f = Ok b ↔ ∃ a, m = Ok a ∧ f a = Ok b.
Proof.
  destruct m as [a|e]; simpl; split.
  - intros H. exists a. done.
  - intros (a' & [= <-] & H). done.
  - intros [=].
  - intros (a' & [=] & _).
Qed.

Lemma bind_Raise {A B} (m : result A) (f : A → result B) (e : exn) :
  m ≫= f = Raise e ↔ m = Raise e ∨ ∃ a, m = Ok a ∧ f a = Raise e.
Proof.
  destruct m as [a|e']; simpl; split.
  - intros H. right. by exists a.
  - intros [[=]|(a' & [= <-] & H)]. done.
  - intros [= ->]. by left.
  - intros [[= ->]|(a' & [=] & _)]. done.
Qed.

(** Inversion of a successful chain of binds. *)
Ltac inv_ok :=
  repeat match goal with
  | H : Ok _ = Ok _ |- _ => injection H as H; try subst
  | H : Raise _ = Ok _ |- _ => discriminate H
  | H : mret _ = Ok _ |- _ => unfold mret, result_ret in H
  | H : _ ≫= _ = Ok _ |- _ =>
      let a := fresh "a" in
      let Ha := fresh "Ha" in
      apply bind_Ok in H as (a & Ha & H)
  | H : (let '(_, _) := ?p in _) = Ok _ |- _ => destruct p
  | H : (if decide ?P then _ else _) = Ok _ |- _ => destruct (decide P)
  end.

(** ** Lengths after the array primitives *)

Lemma length_select_le {A} (m : list bool) (a : list A) :
  length (select m a) ≤ length a.
Proof.
  revert a. induction m as [|b m IH]; intros [|x a]; simpl; try lia.
  destruct b; simpl; specialize (IH a); lia.
Qed.

Lemma select_nil_inv {A B} (m : list bool) (a : list A) (b : list B) :
  length m = length a → length m = length b →
  select m a = [] → select m b = [].
Proof.
  revert a b. induction m as [|c m IH]; intros [|x a] [|y b]; simpl; try done.
  destruct c; [done|]. intros [= Ha] [= Hb]. by apply IH.
Qed.

Lemma np_mask_Ok {A} (a : list A) (m : list bool) r :
  np_mask a m = Ok r → length m = length a ∧ r = select m a.
Proof. unfold np_mask. intros H. case_decide; by inv_ok. Qed.

Lemma setitem_Ok {A} (a : list A) i v r :
  setitem a i v = Ok r → i < length a ∧ r = <[i:=v]> a.
Proof. unfold setitem. intros H. case_decide; by inv_ok. Qed.

Lemma put_seq_length {A} (ivs : list (nat * A)) (a r : list A) :
  put_seq a ivs = Ok r → length r = length a.
Proof.
  revert a. induction ivs as [|[i v] ivs IH]; simpl; intros a H.
  - by inv_ok.
  - inv_ok. apply setitem_Ok in Ha as [_ ->].
    apply IH in H. by rewrite length_insert in H.
Qed.

Lemma np_put_length {A} (a : list A) idx vals r :
  np_put a idx vals = Ok r → length r = length a.
Proof.
  unfold np_put. case_decide.
  - apply put_seq_length.
  - destruct vals as [|v [|]]; try done. apply put_seq_length.
Qed.

Lemma np_put_all_length {A} (a : list A) idx v r :
  np_put_all a idx v = Ok r → length r = length a.
Proof. apply put_seq_length. Qed.

Lemma np_take_length {A} (a : list A) idx r :
  np_take a idx = Ok r → length r = length idx.
Proof.
  unfold np_take. revert r. induction idx as [|i idx IH]; simpl; intros r H.
  - by inv_ok.
  - inv_ok. simpl. f_equal. by apply IH.
Qed.

Lemma np_zip_Ok {A B C} (f : A → B → C) a b r :
  np_zip f a b = Ok r → length a = length b ∧ r = zip_with f a b.
Proof. unfold np_zip. intros H. case_decide; by inv_ok. Qed.

Lemma mask_fill_length {A} (m : list bool) (a vals : list A) :
  length (mask_fill m a vals) = length a.
Proof.
  revert a vals. induction m as [|b m IH]; intros [|x a] vals; simpl; try done.
  destruct b; [destruct vals|]; simpl; by rewrite IH.
Qed.

Lemma np_mask_put_Ok {A} (a : list A) m vals r :
  np_mask_put a m vals = Ok r →
  length m = length a ∧ length vals = count_true m ∧ r = mask_fill m a vals.
Proof. unfold np_mask_put. intros H. repeat case_decide; by inv_ok. Qed.

Lemma np_mask_put_all_Ok {A} (a : list A) m v r :
  np_mask_put_all a m v = Ok r →
  length m = length a ∧ r = zip_with (λ (b : bool) x, if b then v else x) m a.
Proof. unfold np_mask_put_all. intros H. case_decide; by inv_ok. Qed.

Lemma np_max_Ok (l : list Z) (m : Z) :
  np_max l = Ok m → l ≠ [] ∧ ∀ x, x ∈ l → (x ≤ m)%Z.
Proof.
  destruct l as [|x l]; simpl; [done|]. intros [= <-]. split; [done|].
  assert (∀ l a, (a ≤ foldl Z.max a l)%Z ∧
                 ∀ y, y ∈ l → (y ≤ foldl Z.max a l)%Z) as Hmax.
  { clear. induction l as [|z l IH]; simpl; intros a.
    - split; [lia|]. intros y Hy. by apply elem_of_nil in Hy.
    - destruct (IH (Z.max a z)) as [H1 H2]. split; [lia|].
      intros y [->|Hy]%elem_of_cons; [lia|auto]. }
  destruct (Hmax l x) as [H1 H2].
  intros y [->|Hy]%elem_of_cons; auto.
Qed.

(** ** Construction *)

(** C9, as stated, fails: a tolerance that is not strictly positive is
    accepted by the constructor. *)
Lemma init_accepts_zero_tolerance :
  ¬ (0 < 0)%Q ∧
  is_Ok (RoiProcessor_init (vector [100%Q]) 1 5 0 0 "closest"
           (ByName "mean") (ByName "sum") None).
Proof. split; [by intros [=]|]. by eexists. Qed.

(** C9 (amended): construction raises [ValueError], and returns no
    processor, exactly when the seed is not one-dimensional or the policy
    name is neither [closest] nor [reduce]; in every other case it succeeds,
    whatever the tolerance. *)
Theorem init_raises_iff (mz_seed : ndarray) (max_missing min_length : Z)
    (min_intensity tolerance : Q) (multiple_match : string)
    (mz_reduce sp_reduce : reducer) (mode : option string) :
  let r := RoiProcessor_init mz_seed max_missing min_length min_intensity
             tolerance multiple_match mz_reduce sp_reduce mode in
  (r = Raise ValueError ↔
     length (shape mz_seed) ≠ 1 ∨ multiple_match ∉ ["closest"; "reduce"]) ∧
  (is_Ok r ↔
     length (shape mz_seed) = 1 ∧ multiple_match ∈ ["closest"; "reduce"]).
Proof.
  unfold RoiProcessor_init; simpl.
  destruct (decide (length (shape mz_seed) ≠ 1)) as [Hs|Hs].
  { split; split;
      [by left | done | intros [? [=]] | by intros [? _]]. }
  destruct (decide (multiple_match ∉ ["closest"; "reduce"])) as [Hm|Hm].
  { split; split;
      [by right | done | intros [? [=]] | by intros [_ ?]]. }
  apply dec_stable in Hm. assert (length (shape mz_seed) = 1) by lia.
  split; split.
  - intros [=].
  - intros [?|?]; done.
  - done.
  - intros _. by eexists.
Qed.

(** ** Inversion of [append_to_roi] *)

Lemma append_to_roi_untargeted_inv (self self' : RoiProcessor) (rt : list Q) :
  append_to_roi self rt false = Ok self' →
  let keep := negb <$> is_completed self in
  ∃ d roi,
    length (self_length self) = length (self_max_intensity self) ∧
    close_loop (self_roi_index self) (is_valid_roi self) rt (self_mode self)
      (np_where (is_completed self)) (self_temp_roi_dict self)
      (self_roi self) = Ok (d, roi) ∧
    length keep = length (self_mz_mean self) ∧
    length keep = length (self_roi_index self) ∧
    length keep = length (self_length self) ∧
    self' = with_arrays (with_stores self (self_index self) d roi)
              (select keep (self_mz_mean self))
              (select keep (self_roi_index self))
              (select keep (self_n_missing self))
              (select keep (self_max_intensity self))
              (select keep (self_length self)).
Proof.
  unfold append_to_roi. fold (is_completed self). intros H.
  apply bind_Ok in H as (v & Hv & H).
  apply np_zip_Ok in Hv as [Hlen ->].
  rewrite !length_fmap in Hlen. fold (is_valid_roi self) in H.
  apply bind_Ok in H as ([d roi] & Hc & H).
  apply bind_Ok in H as (x1 & H1 & H). apply np_mask_Ok in H1 as [L1 ->].
  apply bind_Ok in H as (x2 & H2 & H). apply np_mask_Ok in H2 as [L2 ->].
  apply bind_Ok in H as (x3 & H3 & H). apply np_mask_Ok in H3 as [L3 ->].
  apply bind_Ok in H as (x4 & H4 & H). apply np_mask_Ok in H4 as [L4 ->].
  apply bind_Ok in H as (x5 & H5 & H). apply np_mask_Ok in H5 as [L5 ->].
  injection H as <-. exists d, roi. done.
Qed.

Lemma append_to_roi_targeted_inv (self self' : RoiProcessor) (rt : list Q) :
  append_to_roi self rt true = Ok self' →
  let done_ := is_completed self in
  ∃ d roi max_roi_ind,
    length (self_length self) = length (self_max_intensity self) ∧
    close_loop (self_roi_index self) (is_valid_roi self) rt (self_mode self)
      (np_where done_) (self_temp_roi_dict self) (self_roi self)
      = Ok (d, roi) ∧
    length done_ = length (self_length self) ∧
    length done_ = length (self_roi_index self) ∧
    np_max (self_roi_index self) = Ok max_roi_ind ∧
    let new_indices :=
      (λ i, (max_roi_ind + 1 + Z.of_nat i)%Z) <$> seq 0 (count_true done_) in
    self' =
      with_arrays
        (with_stores self (self_index self)
           (foldl (λ d k, <[k := make_empty_temp_roi]> d) d new_indices) roi)
        (self_mz_mean self)
        (mask_fill done_ (self_roi_index self) new_indices)
        (zip_with (λ (b : bool) x, if b then 0%Z else x) done_
           (self_n_missing self))
        (zip_with (λ (b : bool) x, if b then 0%Q else x) done_
           (self_max_intensity self))
        (zip_with (λ (b : bool) x, if b then 0%Z else x) done_
           (self_length self)).
Proof.
  unfold append_to_roi. fold (is_completed self). intros H.
  apply bind_Ok in H as (v & Hv & H).
  apply np_zip_Ok in Hv as [Hlen ->].
  rewrite !length_fmap in Hlen. fold (is_valid_roi self) in H.
  apply bind_Ok in H as ([d roi] & Hc & H).
  apply bind_Ok in H as (x1 & H1 & H).
  apply np_mask_put_all_Ok in H1 as [L1 ->].
  apply bind_Ok in H as (x2 & H2 & H).
  apply np_mask_put_all_Ok in H2 as [L2 ->].
  apply bind_Ok in H as (x3 & H3 & H).
  apply np_mask_put_all_Ok in H3 as [L3 ->].
  apply bind_Ok in H as (mx & Hmx & H).
  apply bind_Ok in H as (x4 & H4 & H).
  apply np_mask_put_Ok in H4 as (L4 & L4' & ->).
  injection H as <-. exists d, roi, mx. done.
Qed.

(** ** An emptied active set *)

Lemma extend_empty_raises (self : RoiProcessor) (mz sp : list Q) :
  self_roi_index self = [] → extend self mz sp = Raise ValueError.
Proof. unfold extend. by intros ->. Qed.

Lemma add_empty_raises (self : RoiProcessor) (mz sp : list Q) :
  self_mz_mean self = [] → self_roi_index self = [] →
  is_Raise (add self mz sp false).
Proof.
  destruct self as [r1 r2 mm ri nm mi ln ix d ro mint mxm mnl tol pol md].
  simpl. intros -> ->.
  destruct mz as [|x mz]; [|by eexists].
  destruct sp as [|y sp]; by eexists.
Qed.

Lemma append_to_roi_emptied (self self' : RoiProcessor) (rt : list Q) :
  append_to_roi self rt false = Ok self' →
  active_count self' = 0 → self_roi_index self' = [].
Proof.
  intros H Hn. unfold active_count in Hn.
  apply append_to_roi_untargeted_inv in H
    as (d & roi & _ & _ & L1 & L2 & _ & ->).
  simpl in *. apply nil_length_inv in Hn.
  exact (select_nil_inv _ _ _ L1 L2 Hn).
Qed.

(** C10: in untargeted mode, once a finalize pass has left no active trace,
    the next [add] raises, whatever the scan holds (so also for a scan
    with at least one peak); in particular [extend] raises [ValueError] on
    the maximum of the empty identity array. *)
Theorem add_after_emptied_raises
    (self self' : RoiProcessor) (rt mz sp : list Q) :
  append_to_roi self rt false = Ok self' →
  active_count self' = 0 →
  is_Raise (add self' mz sp false) ∧ extend self' mz sp = Raise ValueError.
Proof.
  intros H Hn. pose proof (append_to_roi_emptied _ _ _ H Hn) as Hi.
  split.
  - apply add_empty_raises; [|done]. by apply nil_length_inv.
  - by apply extend_empty_raises.
Qed.

(** ** Inversion of [extend] and [add] *)

Lemma extend_inv (self self' : RoiProcessor) (mz sp : list Q) :
  extend self mz sp = Ok self' →
  ∃ max_index mz_mean roi_index n_missing len max_intensity,
    np_max (self_roi_index self) = Ok max_index ∧
    let new_indices := new_indices_of max_index (length mz) in
    let sorted_index := np_argsort (self_mz_mean self ++ mz) in
    np_take (self_mz_mean self ++ mz) sorted_index = Ok mz_mean ∧
    np_take (self_roi_index self ++ new_indices) sorted_index = Ok roi_index ∧
    np_take (self_n_missing self ++ replicate (length new_indices) 0%Z)
      sorted_index = Ok n_missing ∧
    np_take (self_length self ++ replicate (length new_indices) 1%Z)
      sorted_index = Ok len ∧
    np_take (self_max_intensity self ++ replicate (length new_indices) 0%Q)
      sorted_index = Ok max_intensity ∧
    self' =
      with_arrays
        (with_stores self (self_index self)
           (spawn (self_index self) (self_temp_roi_dict self)
              (zip (zip new_indices mz) sp))
           (self_roi self))
        mz_mean roi_index n_missing max_intensity len.
Proof.
  unfold extend. intros H.
  apply bind_Ok in H as (mx & Hmx & H).
  apply bind_Ok in H as (x1 & H1 & H).
  apply bind_Ok in H as (x2 & H2 & H).
  apply bind_Ok in H as (x3 & H3 & H).
  apply bind_Ok in H as (x4 & H4 & H).
  apply bind_Ok in H as (x5 & H5 & H).
  injection H as <-. by exists mx, x1, x2, x3, x4, x5.
Qed.

Lemma add_inv (self self' : RoiProcessor) (mz sp : list Q) (targeted : bool) :
  add self mz sp targeted = Ok self' →
  ∃ match_index mz_match sp_match mz_no_match sp_no_match
    d mean_m len_m max_m len n_missing max_intensity,
    _match_mz (self_mz_mean self) mz sp (self_tolerance self)
      (self_multiple_match self) (self_mz_reduce self)
      (self_spint_reduce self)
      = Ok (match_index, mz_match, sp_match, mz_no_match, sp_no_match) ∧
    append_samples (self_roi_index self) (self_index self)
      (self_temp_roi_dict self) (zip (zip match_index mz_match) sp_match)
      = Ok d ∧
    np_take (self_mz_mean self) match_index = Ok mean_m ∧
    np_take (self_length self) match_index = Ok len_m ∧
    length mz_match = length match_index ∧
    length sp_match = length match_index ∧
    np_put (self_length self) match_index ((λ n, (n + 1)%Z) <$> len_m)
      = Ok len ∧
    np_put_all ((λ n, (n + 1)%Z) <$> self_n_missing self) match_index 0%Z
      = Ok n_missing ∧
    np_take (self_max_intensity self) match_index = Ok max_m ∧
    np_put (self_max_intensity self) match_index
      (zip_with Qmaximum max_m sp_match) = Ok max_intensity ∧
    let self1 := add_updated self d n_missing max_intensity len in
    if targeted then self' = next_scan self1
    else ∃ mz_mean self2,
      np_put (self_mz_mean self) match_index
        (updated_mean_of mean_m len_m mz_match) = Ok mz_mean ∧
      extend (with_arrays self1 mz_mean (self_roi_index self1)
                (self_n_missing self1) (self_max_intensity self1)
                (self_length self1)) mz_no_match sp_no_match = Ok self2 ∧
      self' = next_scan self2.
Proof.
  unfold add. intros H.
  apply bind_Ok in H as ([[[[mi mzm] spm] nm] snm] & Hm & H).
  apply bind_Ok in H as (d & Hd & H).
  apply bind_Ok in H as (mean_m & Hmean & H).
  apply bind_Ok in H as (len_m & Hlen & H).
  apply bind_Ok in H as (w & Hw & H). apply np_zip_Ok in Hw as [Lw ->].
  apply bind_Ok in H as (t & Ht & H). apply np_zip_Ok in Ht as [Lt ->].
  apply bind_Ok in H as (u & Hu & H). apply np_zip_Ok in Hu as [Lu ->].
  apply bind_Ok in H as (len & Hl & H).
  apply bind_Ok in H as (n_missing & Hn & H).
  apply bind_Ok in H as (max_m & Hx & H).
  apply bind_Ok in H as (nmx & Hnmx & H). apply np_zip_Ok in Hnmx as [Lx ->].
  apply bind_Ok in H as (max_intensity & Hmi & H).
  apply bind_Ok in H as (self2 & H2 & H). injection H as <-.
  exists mi, mzm, spm, nm, snm, d, mean_m, len_m, max_m, len, n_missing,
    max_intensity.
  pose proof (np_take_length _ _ _ Hmean) as E1.
  pose proof (np_take_length _ _ _ Hx) as E2.
  rewrite length_zip_with in Lt.
  repeat split; try done; try lia.
  destruct targeted.
  - by injection H2 as <-.
  - apply bind_Ok in H2 as (mz_mean & Hmm & H2). by exists mz_mean, self2.
Qed.

(** ** Targeted mode: the number of slots *)

Lemma init_slots mz_seed max_missing min_length min_intensity tolerance
    multiple_match mz_reduce sp_reduce mode self :
  RoiProcessor_init mz_seed max_missing min_length min_intensity tolerance
    multiple_match mz_reduce sp_reduce mode = Ok self →
  slots self (length (data mz_seed)).
Proof.
  unfold RoiProcessor_init. intros H. repeat case_decide; try done.
  injection H as <-. unfold slots; simpl.
  by rewrite length_fmap, length_seq, !length_replicate.
Qed.

Lemma add_targeted_slots self mz sp self' n :
  add self mz sp true = Ok self' → slots self n → slots self' n.
Proof.
  intros H (S1 & S2 & S3 & S4 & S5).
  apply add_inv in H
    as (mi & mzm & spm & nm & snm & d & mean_m & len_m & max_m & len & nmiss
        & maxi & _ & _ & _ & _ & _ & _ & Hl & Hn & _ & Hx & ->).
  apply np_put_length in Hl, Hx. apply np_put_all_length in Hn.
  rewrite length_fmap in Hn. unfold slots; simpl. repeat split; congruence.
Qed.

Lemma mask_fill_lookup_false {A} (m : list bool) (a vals : list A) i :
  m !! i = Some false → mask_fill m a vals !! i = a !! i.
Proof.
  revert a vals i. induction m as [|b m IH]; intros [|x a] vals [|i]; simpl;
    try done.
  - intros [= ->]. done.
  - intros H. destruct b; [destruct vals|]; simpl; by apply IH.
Qed.

Lemma mask_fill_lookup_true {A} (m : list bool) (a vals : list A) i :
  length m = length a → length vals = count_true m → m !! i = Some true →
  ∃ v, mask_fill m a vals !! i = Some v ∧ v ∈ vals.
Proof.
  unfold count_true.
  revert a vals i. induction m as [|b m IH]; intros [|x a] vals i; simpl;
    try done.
  intros [= L]. destruct b.
  - rewrite filter_cons_True by done. destruct vals as [|v vals]; [done|].
    simpl. intros [= L']. destruct i as [|i]; simpl.
    + intros _. exists v. split; [done|]. apply elem_of_cons. by left.
    + intros Hi. destruct (IH a vals i L L' Hi) as (w & Hw & Hin).
      exists w. split; [done|]. apply elem_of_cons. by right.
  - rewrite filter_cons_False by done. intros L'. destruct i as [|i]; simpl.
    + done.
    + intros Hi. by apply IH.
Qed.

Lemma fresh_table_lookup (ks : list Z) (d : gmap Z TempRoi) (k : Z) :
  d !! k = Some make_empty_temp_roi ∨ k ∈ ks →
  foldl (λ d k, <[k := make_empty_temp_roi]> d) d ks !! k
  = Some make_empty_temp_roi.
Proof.
  revert d. induction ks as [|k' ks IH]; simpl; intros d.
  - intros [H|H]; [done|]. by apply elem_of_nil in H.
  - intros H. apply IH. destruct (decide (k' = k)) as [->|Hne].
    + left. apply lookup_insert_eq.
    + rewrite lookup_insert_ne by done.
      destruct H as [H|[->|H]%elem_of_cons]; auto. done.
Qed.

Lemma is_completed_lookup self i n :
  self_n_missing self !! i = Some n →
  is_completed self !! i = Some (bool_decide (self_max_missing self < n)%Z).
Proof. unfold is_completed. intros H. by rewrite list_lookup_fmap, H. Qed.

Lemma append_to_roi_targeted_slots self rt self' n :
  append_to_roi self rt true = Ok self' → slots self n → slots self' n.
Proof.
  intros H (S1 & S2 & S3 & S4 & S5).
  apply append_to_roi_targeted_inv in H
    as (d & roi & mx & _ & _ & L1 & L2 & _ & ->).
  unfold is_completed in *. rewrite length_fmap in L1, L2.
  unfold slots; simpl.
  rewrite mask_fill_length, !length_zip_with, !length_fmap.
  repeat split; lia.
Qed.

Lemma targeted_run_slots self0 self n :
  targeted_run self0 self → slots self0 n → slots self n.
Proof.
  induction 1 as [|s mz sp s' _ IH Hadd|s rt s' _ IH Hclose]; intros H0.
  - done.
  - eapply add_targeted_slots; eauto.
  - eapply append_to_roi_targeted_slots; eauto.
Qed.

Lemma append_to_roi_targeted_slot self rt self' i missing :
  append_to_roi self rt true = Ok self' →
  self_n_missing self !! i = Some missing →
  if bool_decide (self_max_missing self < missing)%Z
  then slot_reset self self' i else slot_kept self self' i.
Proof.
  intros H Hi.
  apply append_to_roi_targeted_inv in H
    as (d & roi & mx & L0 & _ & L1 & L2 & Hmx & ->).
  pose proof (is_completed_lookup _ _ _ Hi) as Hc.
  pose proof (lookup_lt_Some _ _ _ Hi) as Hlt.
  assert (length (is_completed self) = length (self_n_missing self)) as L3.
  { unfold is_completed. by rewrite length_fmap. }
  destruct (lookup_lt_is_Some_2 (self_length self) i) as [ln Hln]; [lia|].
  destruct (lookup_lt_is_Some_2 (self_max_intensity self) i) as [mi Hmi];
    [lia|].
  destruct (lookup_lt_is_Some_2 (self_roi_index self) i) as [id Hid]; [lia|].
  destruct (bool_decide (self_max_missing self < missing)%Z) eqn:Hb.
  - unfold slot_reset; simpl. rewrite !lookup_zip_with, Hc, Hi, Hln, Hmi.
    simpl. repeat split; try done.
    destruct (mask_fill_lookup_true (is_completed self) (self_roi_index self)
      ((λ i0, (mx + 1 + Z.of_nat i0)%Z) <$>
         seq 0 (count_true (is_completed self))) i) as (v & Hv & Hin);
      [done| by rewrite length_fmap, length_seq |done|].
    exists v. split; [done|]. split.
    + apply np_max_Ok in Hmx as [_ Hmx]. intros Hold%Hmx.
      apply list_elem_of_fmap in Hin as (j & -> & _). lia.
    + apply fresh_table_lookup. by right.
  - unfold slot_kept; simpl. rewrite !lookup_zip_with, Hc, Hi, Hln, Hmi.
    simpl. repeat split; try done. by apply mask_fill_lookup_false.
Qed.

(** ** Sortedness of the mean m/z array *)

#[global] Instance key_le_total : Total key_le.
Proof.
  intros p q. unfold key_le.
  destruct (Qlt_le_dec p.1 q.1) as [H|H]; [left|right]; [|done].
  by apply Qlt_le_weak.
Qed.

#[global] Instance Qle_trans' : Transitive Qle.
Proof. intros x y z. apply Qle_trans. Qed.

Lemma zip_seq_lookup {A} (l : list A) (p : A * nat) :
  p ∈ zip l (seq 0 (length l)) → l !! p.2 = Some p.1.
Proof.
  intros (j & Hj)%list_elem_of_lookup.
  apply lookup_zip_with_Some in Hj as (x & i & -> & Hx & Hi).
  apply lookup_seq in Hi as [-> _]. done.
Qed.

Lemma np_take_pairs {A} (l : list A) (ps : list (A * nat)) :
  Forall (λ p, l !! p.2 = Some p.1) ps → np_take l (ps.*2) = Ok (ps.*1).
Proof.
  unfold np_take. induction 1 as [|[x i] ps Hp _ IH]; simpl; [done|].
  simpl in Hp. assert (getitem l i = Ok x) as ->.
  { unfold getitem. by rewrite Hp. }
  simpl. fold (ps.*2). by rewrite IH.
Qed.

Lemma argsort_pairs (l : list Q) :
  Forall (λ p, l !! p.2 = Some p.1)
    (merge_sort key_le (zip l (seq 0 (length l)))).
Proof.
  rewrite merge_sort_Permutation. apply Forall_forall. intros p.
  apply zip_seq_lookup.
Qed.

Lemma np_take_argsort (l : list Q) :
  np_take l (np_argsort l)
  = Ok ((merge_sort key_le (zip l (seq 0 (length l)))).*1).
Proof. apply np_take_pairs, argsort_pairs. Qed.

Lemma np_take_argsort_sorted (l r : list Q) :
  np_take l (np_argsort l) = Ok r → Sorted Qle r.
Proof.
  rewrite np_take_argsort. intros [= <-].
  apply (Sorted_fmap fst key_le Qle); [by intros p q|].
  apply Sorted_merge_sort, _.
Qed.

Lemma select_Forall {A} (P : A → Prop) (m : list bool) (l : list A) :
  Forall P l → Forall P (select m l).
Proof.
  intros H. revert m. induction H as [|x l Hx _ IH]; intros [|b m]; simpl;
    try constructor.
  destruct b; [constructor|]; auto.
Qed.

Lemma select_Sorted (m : list bool) (l : list Q) :
  Sorted Qle l → Sorted Qle (select m l).
Proof.
  intros H%Sorted_StronglySorted; [|apply _]. apply StronglySorted_Sorted.
  revert m. induction H as [|x l _ IH Hx]; intros [|b m]; simpl;
    try constructor.
  destruct b; [|done]. constructor; [done|]. by apply select_Forall.
Qed.

Lemma diff_nonneg_Sorted (l : list Q) :
  diff_nonneg l = true ↔ Sorted Qle l.
Proof.
  unfold diff_nonneg, np_diff.
  induction l as [|a [|b l] IH]; simpl.
  - split; [constructor|done].
  - split; [repeat constructor|done].
  - simpl in IH. rewrite andb_true_iff, Qle_bool_iff, IH.
    assert ((0 <= b - a)%Q ↔ (a <= b)%Q) as ->.
    { unfold Qminus. symmetry. apply Qle_minus_iff. }
    split.
    + intros [H1 H2]. constructor; [done | by constructor].
    + intros H. inversion H as [|? ? H1 H2]; subst.
      inversion H2; subst. done.
Qed.

Lemma add_targeted_mz_mean self mz sp self' :
  add self mz sp true = Ok self' → self_mz_mean self' = self_mz_mean self.
Proof.
  intros H. apply add_inv in H
    as (mi & mzm & spm & nm & snm & d & mean_m & len_m & max_m & len & nmiss
        & maxi & _ & _ & _ & _ & _ & _ & _ & _ & _ & _ & ->).
  done.
Qed.

Lemma add_untargeted_sorted self mz sp self' :
  add self mz sp false = Ok self' → Sorted Qle (self_mz_mean self').
Proof.
  intros H. apply add_inv in H
    as (mi & mzm & spm & nm & snm & d & mean_m & len_m & max_m & len & nmiss
        & maxi & _ & _ & _ & _ & _ & _ & _ & _ & _ & _ & mm & self2 & _
        & Hext & ->).
  apply extend_inv in Hext
    as (mx & mz_mean & ri & nmi & ln & mxi & _ & Ht & _ & _ & _ & _ & ->).
  simpl in *. by eapply np_take_argsort_sorted.
Qed.

Lemma add_sorted self mz sp targeted self' :
  add self mz sp targeted = Ok self' →
  targeted = false ∨ Sorted Qle (self_mz_mean self) →
  Sorted Qle (self_mz_mean self').
Proof.
  destruct targeted; intros H Hs.
  - destruct Hs as [|Hs]; [done|]. by rewrite (add_targeted_mz_mean _ _ _ _ H).
  - by eapply add_untargeted_sorted.
Qed.

Lemma append_to_roi_sorted self rt targeted self' :
  append_to_roi self rt targeted = Ok self' →
  Sorted Qle (self_mz_mean self) → Sorted Qle (self_mz_mean self').
Proof.
  destruct targeted; intros H Hs.
  - apply append_to_roi_targeted_inv in H
      as (d & roi & mx & _ & _ & _ & _ & _ & ->). done.
  - apply append_to_roi_untargeted_inv in H
      as (d & roi & _ & _ & _ & _ & _ & ->). simpl. by apply select_Sorted.
Qed.

Lemma scan_step_inv msexp start targeted processor rt k_scan st' :
  scan_step msexp start targeted (processor, rt) k_scan = Ok st' →
  ∃ sp rt1 p1 p2,
    getSpectrum msexp k_scan = Ok sp ∧
    setitem rt (k_scan - start) (getRT sp) = Ok rt1 ∧
    add processor (peaks_mz sp) (peaks_spint sp) targeted = Ok p1 ∧
    append_to_roi p1 rt1 targeted = Ok p2 ∧
    diff_nonneg (self_mz_mean p2) = true ∧ st' = (p2, rt1).
Proof.
  unfold scan_step. intros H.
  apply bind_Ok in H as (sp & Hsp & H).
  apply bind_Ok in H as (rt1 & Hrt & H).
  apply bind_Ok in H as (p1 & Hp1 & H).
  apply bind_Ok in H as (p2 & Hp2 & H).
  destruct (diff_nonneg (self_mz_mean p2)) eqn:Hd; [|done].
  injection H as <-. by exists sp, rt1, p1, p2.
Qed.

Lemma scan_step_abort msexp start targeted processor rt k_scan sp rt1 p1 p2 :
  getSpectrum msexp k_scan = Ok sp →
  setitem rt (k_scan - start) (getRT sp) = Ok rt1 →
  add processor (peaks_mz sp) (peaks_spint sp) targeted = Ok p1 →
  append_to_roi p1 rt1 targeted = Ok p2 →
  ¬ Sorted Qle (self_mz_mean p2) →
  scan_step msexp start targeted (processor, rt) k_scan
  = Raise AssertionError.
Proof.
  intros Hsp Hrt Hp1 Hp2 Hs. unfold scan_step.
  rewrite Hsp; simpl. rewrite Hrt; simpl. rewrite Hp1; simpl.
  rewrite Hp2; simpl.
  destruct (diff_nonneg (self_mz_mean p2)) eqn:Hd; [|done].
  by apply diff_nonneg_Sorted in Hd.
Qed.

Lemma scan_loop_sorted msexp start targeted scans st st' :
  scan_loop msexp start targeted st scans = Ok st' →
  Sorted Qle (self_mz_mean st.1) → Sorted Qle (self_mz_mean st'.1).
Proof.
  revert st. induction scans as [|k scans IH]; simpl; intros st H Hs.
  - by injection H as <-.
  - apply bind_Ok in H as (st1 & H1 & H). apply (IH _ H).
    destruct st as [p rt].
    apply scan_step_inv in H1 as (sp & rt1 & p1 & p2 & _ & _ & _ & _ & Hd & ->).
    simpl. by apply diff_nonneg_Sorted.
Qed.

(** C1: starting from a processor built on an ascending seed, the mean m/z
    array is non-decreasing after every scan of the loop; from such a state
    it is non-decreasing after the next [add], and after the finalize pass
    that follows, so that the check of the loop passes.  Whenever the array
    is not non-decreasing after [add] and [append_to_roi], the loop body
    raises [AssertionError] and the run stops. *)
Theorem mz_mean_sorted_every_scan mz_seed max_missing min_length min_intensity
    tolerance multiple_match mz_reduce sp_reduce mode self0
    msexp start targeted rt0 scans self rt :
  Sorted Qle (data mz_seed) →
  RoiProcessor_init mz_seed max_missing min_length min_intensity tolerance
    multiple_match mz_reduce sp_reduce mode = Ok self0 →
  scan_loop msexp start targeted (self0, rt0) scans = Ok (self, rt) →
  Sorted Qle (self_mz_mean self) ∧
  (∀ mz sp rt' self1 self2,
     add self mz sp targeted = Ok self1 →
     append_to_roi self1 rt' targeted = Ok self2 →
     Sorted Qle (self_mz_mean self1) ∧ Sorted Qle (self_mz_mean self2) ∧
     diff_nonneg (self_mz_mean self2) = true) ∧
  (∀ processor rt1 k_scan sp rt2 p1 p2,
     getSpectrum msexp k_scan = Ok sp →
     setitem rt1 (k_scan - start) (getRT sp) = Ok rt2 →
     add processor (peaks_mz sp) (peaks_spint sp) targeted = Ok p1 →
     append_to_roi p1 rt2 targeted = Ok p2 →
     ¬ Sorted Qle (self_mz_mean p2) →
     scan_step msexp start targeted (processor, rt1) k_scan
     = Raise AssertionError).
Proof.
  intros Hseed Hinit Hloop.
  assert (Sorted Qle (self_mz_mean self0)) as H0.
  { unfold RoiProcessor_init in Hinit. repeat case_decide; try done.
    by injection Hinit as <-. }
  assert (Sorted Qle (self_mz_mean self)) as Hs.
  { by apply (scan_loop_sorted _ _ _ _ _ _ Hloop). }
  split; [done|]. split.
  - intros mz sp rt' self1 self2 Hadd Hclose.
    assert (Sorted Qle (self_mz_mean self1)) as H1.
    { eapply add_sorted; eauto. }
    assert (Sorted Qle (self_mz_mean self2)) as H2.
    { eapply append_to_roi_sorted; eauto. }
    by rewrite diff_nonneg_Sorted.
  - intros. by eapply scan_step_abort.
Qed.

(** ** The Finalizer *)

Lemma put_all_length {A} (ivs : list (nat * A)) (a : list A) :
  length (put_all a ivs) = length a.
Proof.
  revert a. induction ivs as [|[i v] ivs IH]; simpl; intros a; [done|].
  unfold put_all in *. simpl. by rewrite IH, length_insert.
Qed.

Lemma put_all_lookup_notin {A} (ivs : list (nat * A)) (a : list A) j :
  j ∉ ivs.*1 → put_all a ivs !! j = a !! j.
Proof.
  revert a. induction ivs as [|[i v] ivs IH]; simpl; intros a Hj; [done|].
  apply not_elem_of_cons in Hj as [Hne Hj]. unfold put_all in *. simpl.
  rewrite IH by done. by apply list_lookup_insert_ne.
Qed.

Lemma put_all_lookup_in {A} (ivs : list (nat * A)) (a : list A) i j v :
  NoDup ivs.*1 → ivs !! i = Some (j, v) → j < length a →
  put_all a ivs !! j = Some v.
Proof.
  revert a i. induction ivs as [|[i' v'] ivs IH]; simpl; intros a i Hnd Hi Hj;
    [done|].
  apply NoDup_cons in Hnd as [Hnotin Hnd]. unfold put_all in *. simpl.
  destruct i as [|i]; simpl in Hi.
  - injection Hi as -> ->. fold (put_all (<[j:=v]> a) ivs).
    rewrite put_all_lookup_notin by done. by apply list_lookup_insert_eq.
  - eapply IH; eauto. by rewrite length_insert.
Qed.

Lemma put_seq_int_offsets {A} (js : list nat) (vs : list A) (a : list A) :
  Forall (λ j, j < length a) js →
  put_seq_int a (zip (Z.of_nat <$> js) vs) = Ok (put_all a (zip js vs)).
Proof.
  revert vs a. induction js as [|j js IH]; intros [|v vs] a Hj; simpl;
    try done.
  apply Forall_cons in Hj as [Hj Hjs].
  unfold setitem_int. rewrite decide_True by lia. simpl.
  rewrite Nat2Z.id. rewrite IH; [done|].
  by rewrite length_insert.
Qed.

Lemma Roi_init_Ok spint mz rt first_scan mode :
  valid_mode mode →
  ∃ m, Roi_init spint mz rt first_scan mode
       = Ok (mkRoi spint mz rt first_scan m).
Proof.
  destruct mode as [m|]; simpl; intros H.
  - exists m. by rewrite decide_True.
  - by eexists.
Qed.

Lemma sorted_scan_bounds (scan : list nat) (first lst : nat) :
  StronglySorted lt scan → head scan = Some first → last scan = Some lst →
  Forall (λ s, first ≤ s ≤ lst) scan.
Proof.
  intros Hs Hf Hl. apply Forall_lookup. intros i s Hi.
  destruct scan as [|f scan]; [done|]. injection Hf as ->.
  apply StronglySorted_cons in Hs as [Hfs Hs].
  split.
  - destruct i as [|i]; simpl in Hi; [injection Hi as ->; lia|].
    assert (first < s); [|lia].
    by eapply (proj1 (Forall_lookup _ _) Hfs).
  - rewrite last_lookup in Hl.
    assert (i ≤ pred (length (first :: scan))) as Hle.
    { apply lookup_lt_Some in Hi. lia. }
    destruct (decide (i = pred (length (first :: scan)))) as [->|Hne];
      [assert (s = lst) by congruence; lia|].
    assert (s < lst); [|lia].
    assert (StronglySorted lt (first :: scan)) as Hss.
    { by apply StronglySorted_cons. }
    clear -Hss Hi Hl Hle Hne.
    revert i Hi Hl Hle Hne.
    generalize (pred (length (first :: scan))) as k.
    induction Hss as [|y l _ IH Hy]; intros k i Hi Hk Hle Hne; [done|].
    destruct k as [|k]; [lia|]. simpl in Hk.
    destruct i as [|i]; simpl in Hi.
    + injection Hi as ->. by eapply (proj1 (Forall_lookup _ _) Hy).
    + eapply IH; eauto; lia.
Qed.

Lemma sorted_offsets_NoDup (scan : list nat) (first : nat) :
  StronglySorted lt scan → Forall (λ s, first ≤ s) scan →
  NoDup ((λ s, s - first) <$> scan).
Proof.
  induction 1 as [|s l _ IH Hs]; intros Hf; simpl; [constructor|].
  apply Forall_cons in Hf as [Hfs Hf]. constructor; [|by apply IH].
  intros (s' & Heq & Hin)%list_elem_of_fmap.
  pose proof (proj1 (Forall_forall _ _) Hs _ Hin).
  pose proof (proj1 (Forall_forall _ _) Hf _ Hin). simpl in *. lia.
Qed.

Lemma tmp_roi_to_roi_Ok tmp_roi rt mode first lst :
  head (t_scan tmp_roi) = Some first → last (t_scan tmp_roi) = Some lst →
  StronglySorted lt (t_scan tmp_roi) →
  length (t_mz tmp_roi) = length (t_scan tmp_roi) →
  length (t_sp tmp_roi) = length (t_scan tmp_roi) →
  valid_mode mode →
  ∃ m, tmp_roi_to_roi tmp_roi rt mode =
       Ok (mkRoi (dense first lst (t_scan tmp_roi) (t_sp tmp_roi))
             (dense first lst (t_scan tmp_roi) (t_mz tmp_roi))
             (slice rt first (lst + 1)) first m).
Proof.
  intros Hf Hl Hs Lmz Lsp Hmode. unfold tmp_roi_to_roi.
  pose proof (sorted_scan_bounds _ _ _ Hs Hf Hl) as Hb.
  assert (getitem (t_scan tmp_roi) 0 = Ok first) as ->.
  { unfold getitem. rewrite <-head_lookup. by rewrite Hf. }
  assert (getitem (t_scan tmp_roi) (length (t_scan tmp_roi) - 1) = Ok lst)
    as ->.
  { unfold getitem. rewrite last_lookup in Hl.
    replace (length (t_scan tmp_roi) - 1) with (pred (length (t_scan tmp_roi)))
      by lia. by rewrite Hl. }
  simpl.
  assert (first ≤ lst) as Hfl.
  { destruct (t_scan tmp_roi) as [|s l]; [done|].
    apply Forall_cons in Hb as [Hb _]. lia. }
  unfold nan_array. rewrite decide_False by lia. simpl.
  replace (Z.to_nat (Z.of_nat lst + 1 - Z.of_nat first)) with (lst + 1 - first)
    by lia.
  assert ((λ s, (Z.of_nat s - Z.of_nat first)%Z) <$> t_scan tmp_roi
          = Z.of_nat <$> ((λ s, s - first) <$> t_scan tmp_roi)) as ->.
  { rewrite <-list_fmap_compose. apply Forall_fmap_ext.
    eapply Forall_impl; [exact Hb|]. simpl. intros s Hs'. lia. }
  assert (Forall (λ j, j < length (replicate (lst + 1 - first) (@None Q)))
            ((λ s, s - first) <$> t_scan tmp_roi)) as Hrange.
  { rewrite length_replicate. apply Forall_fmap.
    eapply Forall_impl; [exact Hb|]. simpl. intros s Hs'. lia. }
  unfold np_put_int.
  rewrite !decide_True by (by rewrite !length_fmap).
  rewrite !put_seq_int_offsets by done. simpl.
  by apply Roi_init_Ok.
Qed.

Lemma dense_length first lst scan vals :
  length (dense first lst scan vals) = lst + 1 - first.
Proof. unfold dense. by rewrite put_all_length, length_replicate. Qed.

Lemma dense_lookup_scan first lst scan vals i s v :
  StronglySorted lt scan → Forall (λ s, first ≤ s ≤ lst) scan →
  length vals = length scan →
  scan !! i = Some s → vals !! i = Some v →
  dense first lst scan vals !! (s - first) = Some (Some v).
Proof.
  intros Hs Hb Hlen Hi Hv. unfold dense.
  apply (put_all_lookup_in _ _ i).
  - rewrite fst_zip by (rewrite !length_fmap; lia).
    apply sorted_offsets_NoDup; [done|].
    eapply Forall_impl; [exact Hb|]. simpl. intros ? ?. lia.
  - apply lookup_zip_with_Some. exists (s - first), (Some v).
    rewrite !list_lookup_fmap, Hi, Hv. done.
  - rewrite length_replicate.
    pose proof (proj1 (Forall_lookup _ _) Hb _ _ Hi). simpl in *. lia.
Qed.

Lemma dense_lookup_gap first lst scan vals o :
  Forall (λ s, first ≤ s ≤ lst) scan → length vals = length scan →
  first ≤ lst → o ≤ lst - first → first + o ∉ scan →
  dense first lst scan vals !! o = Some None.
Proof.
  intros Hb Hlen Hfl Ho Hnot. unfold dense.
  rewrite put_all_lookup_notin.
  - apply lookup_replicate_2. lia.
  - rewrite fst_zip by (rewrite !length_fmap; lia).
    intros (s & -> & Hin)%list_elem_of_fmap.
    pose proof (proj1 (Forall_forall _ _) Hb _ Hin). simpl in *.
    apply Hnot. by replace (first + (s - first)) with s by lia.
Qed.

(** C8: for a closed [TempRoi] whose scan list is non-empty and strictly
    increasing (and whose three sample lists are parallel), [tmp_roi_to_roi]
    returns a ROI whose m/z and intensity arrays have
    [last_scan - first_scan + 1] entries, hold the recorded m/z and
    intensity at the offset of every matched scan and not-a-number at every
    other offset; its retention times are the slice of [rt] over
    [first_scan .. last_scan], and it records [first_scan]. *)
Theorem tmp_roi_to_roi_dense tmp_roi rt mode first lst :
  head (t_scan tmp_roi) = Some first → last (t_scan tmp_roi) = Some lst →
  StronglySorted lt (t_scan tmp_roi) →
  length (t_mz tmp_roi) = length (t_scan tmp_roi) →
  length (t_sp tmp_roi) = length (t_scan tmp_roi) →
  valid_mode mode →
  ∃ roi, tmp_roi_to_roi tmp_roi rt mode = Ok roi ∧
    length (roi_mz roi) = lst - first + 1 ∧
    length (roi_spint roi) = lst - first + 1 ∧
    (∀ i s m x, t_scan tmp_roi !! i = Some s →
       t_mz tmp_roi !! i = Some m → t_sp tmp_roi !! i = Some x →
       roi_mz roi !! (s - first) = Some (Some m) ∧
       roi_spint roi !! (s - first) = Some (Some x)) ∧
    (∀ o, o ≤ lst - first → first + o ∉ t_scan tmp_roi →
       roi_mz roi !! o = Some None ∧ roi_spint roi !! o = Some None) ∧
    roi_rt roi = take (lst - first + 1) (drop first rt) ∧
    roi_first_scan roi = first.
Proof.
  intros Hf Hl Hs Lmz Lsp Hmode.
  destruct (tmp_roi_to_roi_Ok _ rt _ _ _ Hf Hl Hs Lmz Lsp Hmode) as [m ->].
  pose proof (sorted_scan_bounds _ _ _ Hs Hf Hl) as Hb.
  assert (first ≤ lst) as Hfl.
  { destruct (t_scan tmp_roi) as [|s l]; [done|].
    apply Forall_cons in Hb as [Hb _]. lia. }
  eexists. split; [done|]. simpl. rewrite !dense_length.
  split; [lia|]. split; [lia|]. split; [|split; [|split]].
  - intros i s mv x Hi Hm Hx. split; by eapply dense_lookup_scan.
  - intros o Ho Hnot. split; by apply dense_lookup_gap.
  - unfold slice. f_equal. lia.
  - done.
Qed.

(** ** Array assignments as list updates *)

Lemma put_seq_Ok {A} (ivs : list (nat * A)) (a r : list A) :
  put_seq a ivs = Ok r →
  r = put_all a ivs ∧ Forall (λ p, p.1 < length a) ivs.
Proof.
  revert a. induction ivs as [|[i v] ivs IH]; simpl; intros a H.
  - injection H as <-. by split.
  - apply bind_Ok in H as (a' & Ha & H). apply setitem_Ok in Ha as [Hi ->].
    apply IH in H as [-> Hall]. rewrite length_insert in Hall.
    split; [done|]. by constructor.
Qed.

Lemma put_seq_in_range {A} (ivs : list (nat * A)) (a : list A) :
  Forall (λ p, p.1 < length a) ivs → put_seq a ivs = Ok (put_all a ivs).
Proof.
  revert a. induction ivs as [|[i v] ivs IH]; simpl; intros a H; [done|].
  apply Forall_cons in H as [Hi H]. simpl in Hi.
  unfold setitem. rewrite decide_True by done. simpl.
  apply IH. by rewrite length_insert.
Qed.

Lemma np_put_same_length {A} (a : list A) idx vals :
  length vals = length idx → np_put a idx vals = put_seq a (zip idx vals).
Proof. intros H. unfold np_put. by rewrite decide_True. Qed.

Lemma np_put_lookup_in {A} (a r : list A) idx vals t k v :
  np_put a idx vals = Ok r → length vals = length idx → NoDup idx →
  idx !! t = Some k → vals !! t = Some v → r !! k = Some v.
Proof.
  intros H Hlen Hnd Ht Hv. rewrite np_put_same_length in H by done.
  apply put_seq_Ok in H as [-> Hall].
  apply (put_all_lookup_in _ _ t).
  - by rewrite fst_zip by lia.
  - apply lookup_zip_with_Some. by exists k, v.
  - assert ((k, v) ∈ zip idx vals) as Hin.
    { apply list_elem_of_lookup. exists t. apply lookup_zip_with_Some.
      by exists k, v. }
    by apply (proj1 (Forall_forall _ _) Hall _ Hin).
Qed.

Lemma np_take_lookup {A} (a r : list A) idx j i :
  np_take a idx = Ok r → idx !! j = Some i → r !! j = a !! i ∧ is_Some (a !! i).
Proof.
  unfold np_take. revert r j. induction idx as [|i' idx IH]; simpl;
    intros r j H Hj; [done|].
  apply bind_Ok in H as (x & Hx & H). apply bind_Ok in H as (r' & Hr' & H).
  injection H as <-. destruct j as [|j]; simpl in *.
  - injection Hj as ->. unfold getitem in Hx.
    destruct (a !! i) eqn:E; [|done]. injection Hx as ->. by split.
  - by apply IH.
Qed.

Lemma np_argsort_Permutation (l : list Q) :
  np_argsort l ≡ₚ seq 0 (length l).
Proof.
  unfold np_argsort. rewrite merge_sort_Permutation.
  by rewrite snd_zip by (by rewrite length_seq).
Qed.

Lemma np_argsort_position (l : list Q) (k : nat) :
  k < length l → ∃ j, np_argsort l !! j = Some k.
Proof.
  intros Hk. apply list_elem_of_lookup. rewrite np_argsort_Permutation.
  apply elem_of_seq. lia.
Qed.

(** ** The indices returned by [_match_mz] *)

Lemma np_unique_NoDup (l : list nat) : NoDup (np_unique l).1.1.
Proof.
  unfold np_unique; simpl. rewrite merge_sort_Permutation.
  apply NoDup_remove_dups.
Qed.

Lemma match_mz_index_unique mz1 mz2 sp2 tolerance mode mz_reduce sp_reduce
    match_index mz_match sp_match mz_no_match sp_no_match :
  _match_mz mz1 mz2 sp2 tolerance mode mz_reduce sp_reduce
  = Ok (match_index, mz_match, sp_match, mz_no_match, sp_no_match) →
  NoDup match_index.
Proof.
  unfold _match_mz. intros H.
  apply bind_Ok in H as (x1 & _ & H). apply bind_Ok in H as (x2 & _ & H).
  apply bind_Ok in H as (x3 & _ & H).
  pose proof (np_unique_NoDup x3) as Hnd.
  destruct (np_unique x3) as [[u fi] cnt]. simpl in Hnd.
  apply bind_Ok in H as (x4 & _ & H). apply bind_Ok in H as (x5 & _ & H).
  apply bind_Ok in H as (x6 & _ & H). apply bind_Ok in H as (x7 & _ & H).
  apply bind_Ok in H as (x8 & _ & H).
  apply bind_Ok in H as ([[y1 y2] y3] & _ & H).
  apply bind_Ok in H as (x9 & _ & H). apply bind_Ok in H as (x10 & _ & H).
  by injection H as <- _ _ _ _.
Qed.

(** ** The running mean *)

(** C3: in a non-targeted [add], the trace matched at position [k] keeps
    its identity and gets the mean
    [(mean * length_before + matched_mz) / (length_before + 1)] (and the
    length [length_before + 1]); a targeted [add] leaves the mean m/z array
    as it is. *)
Theorem add_running_mean (self self' : RoiProcessor) (mz sp : list Q)
    (targeted : bool) match_index mz_match sp_match mz_no_match sp_no_match :
  _match_mz (self_mz_mean self) mz sp (self_tolerance self)
    (self_multiple_match self) (self_mz_reduce self) (self_spint_reduce self)
  = Ok (match_index, mz_match, sp_match, mz_no_match, sp_no_match) →
  add self mz sp targeted = Ok self' →
  if targeted then self_mz_mean self' = self_mz_mean self
  else
    ∀ t k matched_mz mean length_before id,
      match_index !! t = Some k → mz_match !! t = Some matched_mz →
      self_mz_mean self !! k = Some mean →
      self_length self !! k = Some length_before →
      self_roi_index self !! k = Some id →
      ∃ j, self_roi_index self' !! j = Some id ∧
           self_length self' !! j = Some (length_before + 1)%Z ∧
           self_mz_mean self' !! j
           = Some ((mean * inject_Z length_before + matched_mz)
                   / inject_Z (length_before + 1))%Q.
Proof.
  intros Hm Hadd. destruct targeted.
  { by eapply add_targeted_mz_mean. }
  intros t k x m n id Ht Hx Hk Hn Hid.
  pose proof (match_mz_index_unique _ _ _ _ _ _ _ _ _ _ _ _ Hm) as Hnd.
  apply add_inv in Hadd
    as (mi & mzm & spm & nm & snm & d & mean_m & len_m & max_m & len & nmiss
        & maxi & Hm' & _ & Hmean & Hlen & L1 & L2 & Hput_len & _ & _ & _
        & mm & self2 & Hput_mean & Hext & ->).
  rewrite Hm in Hm'. injection Hm' as <- <- <- <- <-.
  apply extend_inv in Hext
    as (mx & mz_mean & ri & nmi & ln & mxi & _ & T1 & T2 & _ & T4 & _ & ->).
  simpl in *.
  destruct (np_take_lookup _ _ _ _ _ Hmean Ht) as [Emean _].
  destruct (np_take_lookup _ _ _ _ _ Hlen Ht) as [Elen _].
  rewrite Hk in Emean. rewrite Hn in Elen.
  pose proof (np_take_length _ _ _ Hmean) as Lmean.
  pose proof (np_take_length _ _ _ Hlen) as Llen.
  assert (mm !! k = Some ((m * inject_Z n + x) / inject_Z (n + 1))%Q) as Emm.
  { eapply np_put_lookup_in; eauto.
    - unfold updated_mean_of. rewrite !length_zip_with. lia.
    - unfold updated_mean_of. rewrite !lookup_zip_with, Emean, Elen, Hx.
      done. }
  assert (len !! k = Some (n + 1)%Z) as Elen'.
  { eapply np_put_lookup_in; eauto.
    - rewrite length_fmap. lia.
    - by rewrite list_lookup_fmap, Elen. }
  pose proof (lookup_lt_Some _ _ _ Emm) as Hlt.
  destruct (np_argsort_position (mm ++ mz_no_match) k) as [j Hj].
  { rewrite length_app. lia. }
  exists j.
  destruct (np_take_lookup _ _ _ _ _ T1 Hj) as [-> _].
  destruct (np_take_lookup _ _ _ _ _ T2 Hj) as [-> _].
  destruct (np_take_lookup _ _ _ _ _ T4 Hj) as [-> _].
  rewrite !lookup_app_l; eauto using lookup_lt_Some.
Qed.

(** ** The finalize pass *)

Lemma close_loop_inv roi_index valid rt mode d0 idxs d roi d' roi' :
  close_loop roi_index valid rt mode idxs d roi = Ok (d', roi') →
  d ⊆ d0 →
  d' ⊆ d ∧
  (∀ i id, i ∈ idxs → roi_index !! i = Some id → d' !! id = None) ∧
  ∃ emitted, roi' = roi ++ emitted ∧
    Forall2 (λ i r, ∃ id tmp_roi, roi_index !! i = Some id ∧
                      d0 !! id = Some tmp_roi ∧
                      tmp_roi_to_roi tmp_roi rt mode = Ok r)
      (filter (λ i, valid !! i = Some true) idxs) emitted.
Proof.
  revert d roi. induction idxs as [|i idxs IH]; simpl; intros d roi H Hsub.
  - injection H as <- <-. split; [done|]. split.
    + intros i id Hi. by apply elem_of_nil in Hi.
    + exists []. rewrite app_nil_r. split; [done|]. constructor.
  - apply bind_Ok in H as (id & Hid & H).
    unfold getitem in Hid. destruct (roi_index !! i) as [id'|] eqn:Ei; [|done].
    injection Hid as ->.
    destruct (d !! id) as [t|] eqn:Et; [|done].
    apply bind_Ok in H as (v & Hv & H).
    unfold getitem in Hv. destruct (valid !! i) as [v'|] eqn:Ev; [|done].
    injection Hv as ->.
    apply bind_Ok in H as (roi1 & Hroi1 & H).
    assert (delete id d ⊆ d0) as Hsub'.
    { etrans; [apply delete_subseteq|done]. }
    destruct (IH _ _ H Hsub') as (Hd' & Hgone & emitted & -> & Hall).
    split; [etrans; [done|apply delete_subseteq]|]. split.
    { intros i2 id2 [->|Hin]%elem_of_cons Hi2.
      - assert (id2 = id) as -> by congruence.
        eapply lookup_weaken_None; [|done]. apply lookup_delete_eq.
      - by eapply Hgone. }
    destruct v.
    + apply bind_Ok in Hroi1 as (r & Hr & Hroi1). injection Hroi1 as <-.
      exists (r :: emitted). rewrite <-app_assoc. split; [done|].
      rewrite filter_cons_True by done. constructor; [|done].
      exists id, t. repeat split; try done.
      by eapply lookup_weaken.
    + injection Hroi1 as <-. exists emitted. split; [done|].
      rewrite filter_cons_False; [done|]. congruence.
Qed.

Lemma np_where_lookup (m : list bool) (i : nat) :
  i ∈ np_where m ↔ m !! i = Some true.
Proof.
  unfold np_where.
  assert (∀ s, i ∈ select m (seq s (length m)) ↔
               s ≤ i ∧ m !! (i - s) = Some true) as H.
  { induction m as [|b m IH]; simpl; intros s.
    - split; [by intros ?%elem_of_nil|]. by intros [_ ?].
    - destruct b.
      + rewrite elem_of_cons, IH. split.
        * intros [->|[Hs Hi]].
          -- split; [lia|]. by replace (s - s) with 0 by lia.
          -- split; [lia|]. by replace (i - s) with (S (i - S s)) by lia.
        * intros [Hs Hi]. destruct (decide (i = s)) as [->|Hne]; [by left|].
          right. split; [lia|].
          by replace (i - s) with (S (i - S s)) in Hi by lia.
      + rewrite IH. split.
        * intros [Hs Hi]. split; [lia|].
          by replace (i - s) with (S (i - S s)) by lia.
        * intros [Hs Hi]. destruct (decide (i = s)) as [->|Hne].
          { by replace (s - s) with 0 in Hi by lia. }
          split; [lia|]. by replace (i - s) with (S (i - S s)) in Hi by lia. }
  rewrite H. replace (i - 0) with i by lia. split; [by intros [_ ?]|].
  intros ?. split; [lia|done].
Qed.

Lemma is_valid_roi_lookup self i :
  is_valid_roi self !! i = Some true ↔
  ∃ len maxi, self_length self !! i = Some len ∧
              (self_min_length self ≤ len)%Z ∧
              self_max_intensity self !! i = Some maxi ∧
              (self_min_intensity self <= maxi)%Q.
Proof.
  unfold is_valid_roi. rewrite lookup_zip_with_Some. split.
  - intros (b1 & b2 & Hb & H1 & H2).
    rewrite list_lookup_fmap in H1. rewrite list_lookup_fmap in H2.
    destruct (self_length self !! i) as [len|]; [|done].
    destruct (self_max_intensity self !! i) as [maxi|]; [|done].
    simpl in *. injection H1 as <-. injection H2 as <-.
    symmetry in Hb. apply andb_true_iff in Hb as [Hb1 Hb2].
    apply bool_decide_eq_true in Hb1. apply Qle_bool_iff in Hb2.
    by exists len, maxi.
  - intros (len & maxi & H1 & Hl & H2 & Hm).
    exists true, true. rewrite !list_lookup_fmap, H1, H2. simpl.
    rewrite bool_decide_eq_true_2 by done.
    apply Qle_bool_iff in Hm. by rewrite Hm.
Qed.

Lemma Forall2_with_left {A B} (P : A → B → Prop) (Q : A → Prop) l k :
  Forall2 P l k → Forall Q l → Forall2 (λ x y, Q x ∧ P x y) l k.
Proof.
  induction 1 as [|x y l k Hxy _ IH]; intros HQ; [constructor|].
  apply Forall_cons in HQ as [Hx HQ]. constructor; auto.
Qed.

Lemma fresh_table_lookup_other (ks : list Z) (d : gmap Z TempRoi) (k : Z) :
  k ∉ ks →
  foldl (λ d k, <[k := make_empty_temp_roi]> d) d ks !! k = d !! k.
Proof.
  revert d. induction ks as [|k' ks IH]; simpl; intros d Hk; [done|].
  apply not_elem_of_cons in Hk as [Hne Hk].
  rewrite IH by done. by apply lookup_insert_ne.
Qed.

Lemma append_to_roi_emits self rt targeted self' :
  append_to_roi self rt targeted = Ok self' →
  (∀ i id, is_completed self !! i = Some true →
           self_roi_index self !! i = Some id →
           self_temp_roi_dict self' !! id = None) ∧
  ∃ emitted, self_roi self' = self_roi self ++ emitted ∧
             Forall2 (emits self rt) (closed_valid self) emitted.
Proof.
  intros H.
  assert (∃ d roi mx,
    close_loop (self_roi_index self) (is_valid_roi self) rt (self_mode self)
      (np_where (is_completed self)) (self_temp_roi_dict self)
      (self_roi self) = Ok (d, roi) ∧
    self_roi self' = roi ∧
    (self_temp_roi_dict self' = d ∨
     (np_max (self_roi_index self) = Ok mx ∧
      self_temp_roi_dict self' =
        foldl (λ d k, <[k := make_empty_temp_roi]> d) d
          ((λ i, (mx + 1 + Z.of_nat i)%Z) <$>
             seq 0 (count_true (is_completed self))))))
    as (d & roi & mx & Hloop & Hroi & Hdict).
  { destruct targeted.
    - apply append_to_roi_targeted_inv in H
        as (d & roi & mx & _ & Hloop & _ & _ & Hmx & ->).
      exists d, roi, mx. split; [done|]. split; [done|]. by right.
    - apply append_to_roi_untargeted_inv in H
        as (d & roi & _ & Hloop & _ & _ & _ & ->).
      exists d, roi, 0%Z. split; [done|]. split; [done|]. by left. }
  destruct (close_loop_inv _ _ _ _ (self_temp_roi_dict self) _ _ _ _ _ Hloop)
    as (Hsub & Hgone & emitted & -> & Hall); [done|].
  split.
  - intros i id Hi Hid. apply np_where_lookup in Hi.
    pose proof (Hgone _ _ Hi Hid) as Hnone.
    destruct Hdict as [->|[Hmx ->]]; [done|].
    rewrite fresh_table_lookup_other; [done|].
    apply np_max_Ok in Hmx as [_ Hmx].
    intros (j & Hj & _)%list_elem_of_fmap.
    assert (id ∈ self_roi_index self) as Hin.
    { apply list_elem_of_lookup. by exists i. }
    specialize (Hmx _ Hin). lia.
  - exists emitted. split; [done|].
    eapply Forall2_impl.
    { apply (Forall2_with_left _
        (λ i, is_completed self !! i = Some true ∧
              is_valid_roi self !! i = Some true) _ _ Hall).
      apply Forall_forall. intros i [Hv Hi]%list_elem_of_filter.
      by apply np_where_lookup in Hi. }
    simpl. intros i r [[Hc Hv] (id & t & Hid & Ht & Hr)].
    apply is_valid_roi_lookup in Hv as (len & maxi & Hlen & Hl & Hmaxi & Hm).
    unfold is_completed in Hc. rewrite list_lookup_fmap in Hc.
    destruct (self_n_missing self !! i) as [missing|] eqn:Emiss; [|done].
    simpl in Hc. injection Hc as Hc. apply bool_decide_eq_true in Hc.
    by exists missing, len, maxi, id, t.
Qed.

(** ** The matcher and the spawned traces on concrete scans *)

(** C4, as stated, fails on the example of the specification: with one
    trace at 100.0 and the peaks 100.001 and 100.004 within the tolerance
    0.005, the losing peak 100.004 is in the unmatched output, and the
    untargeted [add] spawns a second trace from it. *)
Lemma closest_loser_is_unmatched :
  ∃ mz_no_match self0 self1,
    _match_mz [100%Q] [100001 # 1000; 100004 # 1000]%Q [10; 20]%Q (5 # 1000)
      "closest" NpMean NpSum
    = Ok ([0], [100001 # 1000]%Q, [10%Q], mz_no_match, [20%Q]) ∧
    (100004 # 1000)%Q ∈ mz_no_match ∧
    mean_sum_processor [100%Q] 1 0 = Ok self0 ∧
    add self0 [100001 # 1000; 100004 # 1000]%Q [10; 20]%Q false = Ok self1 ∧
    active_count self0 = 1 ∧ active_count self1 = 2 ∧
    self_mz_mean self1 !! 1 = Some (100004 # 1000)%Q.
Proof.
  do 3 eexists.
  split; [vm_compute; reflexivity|].
  split; [by apply list_elem_of_singleton|].
  split; [vm_compute; reflexivity|].
  split; [vm_compute; reflexivity|].
  by vm_compute.
Qed.

(** C5 on a failing scan: one trace at 100.0, tolerance 0.005, peaks 50.0
    (out of tolerance), 100.001 and 100.004.  The peak 100.001 is returned
    both as the match and in the unmatched output, and the peak 100.004 is
    in neither output. *)
Lemma match_mz_not_a_partition :
  _match_mz [100%Q] [50; 100001 # 1000; 100004 # 1000]%Q [1; 10; 20]%Q
    (5 # 1000) "closest" NpMean NpSum
  = Ok ([0], [100001 # 1000]%Q, [10%Q],
        [50; 100001 # 1000]%Q, [1; 10]%Q).
Proof. by vm_compute. Qed.

(** C7 on a failing run: the seed 100.0, then a scan with the peak
    (100.0, 5) and a scan with the peaks (100.0, 5) and (200.0, 50).  The
    trace spawned from (200.0, 50) holds the sample of intensity 50 while
    its maximum intensity is 0.  With the thresholds at three samples and
    intensity 20, the run over two more scans with (200.0, 10) returns no
    ROI, although the trace at 200.0 has three samples and the intensity
    50 among them. *)
Lemma spawned_trace_max_intensity :
  (∃ self0 self1 self2,
     mean_sum_processor [100%Q] 1 0 = Ok self0 ∧
     add self0 [100%Q] [5%Q] false = Ok self1 ∧
     add self1 [100; 200]%Q [5; 50]%Q false = Ok self2 ∧
     self_roi_index self2 = [0; 1]%Z ∧
     self_length self2 = [2; 1]%Z ∧
     self_max_intensity self2 = [5; 0]%Q ∧
     t_sp <$> self_temp_roi_dict self2 !! 1%Z = Some [50%Q]) ∧
  make_roi
    [mkSpectrum 0 [100%Q] [5%Q];
     mkSpectrum 1 [100; 200]%Q [5; 50]%Q;
     mkSpectrum 2 [100; 200]%Q [5; 10]%Q;
     mkSpectrum 3 [100; 200]%Q [5; 10]%Q]
    (5 # 1000) 1 3 20 "closest" None None None (ByName "mean") (ByName "sum")
    None
  = Ok [].
Proof.
  split; [|by vm_compute].
  eexists. eexists. eexists.
  split; [vm_compute; reflexivity|].
  split; [vm_compute; reflexivity|].
  split; [vm_compute; reflexivity|].
  by vm_compute.
Qed.

(** ** The nearest-trace search: range and monotonicity *)

Lemma searchsorted_le (x : list Q) (q : Q) : searchsorted x q ≤ length x.
Proof.
  induction x as [|a x IH]; simpl; [done|].
  destruct (Qlt_le_dec a q); lia.
Qed.

Lemma searchsorted_mono (x : list Q) (q q' : Q) :
  (q <= q')%Q → searchsorted x q ≤ searchsorted x q'.
Proof.
  intros Hq. induction x as [|a x IH]; simpl; [done|].
  destruct (Qlt_le_dec a q) as [H|H]; [|lia].
  destruct (Qlt_le_dec a q') as [H'|H']; [lia|].
  exfalso. apply (Qlt_irrefl a).
  eapply Qlt_le_trans; [exact H|]. by eapply Qle_trans.
Qed.

Lemma closest_one_lt (x : list Q) (q : Q) :
  x ≠ [] → closest_one x q < length x.
Proof.
  intros Hx. assert (0 < length x) by (destruct x; simpl; [done|lia]).
  pose proof (searchsorted_le x q). unfold closest_one.
  repeat case_decide; try lia.
  destruct (Qlt_le_dec _ _); lia.
Qed.

Lemma closest_one_mono (x : list Q) (q q' : Q) :
  (q <= q')%Q → closest_one x q ≤ closest_one x q'.
Proof.
  intros Hq. pose proof (searchsorted_mono x q q' Hq) as Hm.
  pose proof (searchsorted_le x q). pose proof (searchsorted_le x q').
  unfold closest_one.
  destruct (decide (searchsorted x q = 0)) as [E0|N0]; [lia|].
  destruct (decide (searchsorted x q' = 0)) as [E0'|N0']; [lia|].
  destruct (decide (searchsorted x q = length x)) as [E1|N1].
  { rewrite decide_True by lia. lia. }
  destruct (decide (searchsorted x q' = length x)) as [E1'|N1'].
  { destruct (Qlt_le_dec _ _); lia. }
  destruct (decide (searchsorted x q = searchsorted x q')) as [E|N].
  - rewrite <-E.
    destruct (Qlt_le_dec (q' - _) _) as [H'|H'];
      destruct (Qlt_le_dec (q - _) _) as [H1|H1]; try lia.
    exfalso. apply (Qlt_irrefl (q' - nth_Q x (searchsorted x q - 1))).
    eapply Qlt_le_trans; [exact H'|].
    eapply Qle_trans; [|eapply Qle_trans; [exact H1|]].
    + unfold Qminus. apply Qplus_le_r. by apply Qopp_le_compat.
    + unfold Qminus. by apply Qplus_le_l.
  - destruct (Qlt_le_dec (q' - _) _); destruct (Qlt_le_dec (q - _) _); lia.
Qed.

Lemma find_closest_length (x xq : list Q) :
  length (find_closest x xq) = length xq.
Proof. unfold find_closest. by rewrite length_fmap. Qed.

Lemma find_closest_lt (x xq : list Q) :
  x ≠ [] → Forall (λ i, i < length x) (find_closest x xq).
Proof.
  intros Hx. unfold find_closest. apply Forall_fmap, Forall_forall.
  intros q _. by apply closest_one_lt.
Qed.

Lemma find_closest_sorted (x xq : list Q) :
  Sorted Qle xq → StronglySorted le (find_closest x xq).
Proof.
  intros H%Sorted_StronglySorted; [|apply _]. unfold find_closest.
  induction H as [|q xq _ IH Hq]; simpl; constructor; [done|].
  apply Forall_fmap. eapply Forall_impl; [exact Hq|].
  intros q' Hq'. by apply closest_one_mono.
Qed.

Lemma select_StronglySorted {A} (R : relation A) (m : list bool) (l : list A) :
  StronglySorted R l → StronglySorted R (select m l).
Proof.
  intros H. revert m. induction H as [|x l _ IH Hx]; intros [|b m]; simpl;
    try constructor.
  destruct b; [|done]. constructor; [done|]. by apply select_Forall.
Qed.

Lemma np_take_in_range (a : list Q) (idx : list nat) :
  Forall (λ i, i < length a) idx → np_take a idx = Ok (nth_Q a <$> idx).
Proof.
  unfold np_take. induction 1 as [|i idx Hi _ IH]; simpl; [done|].
  assert (getitem a i = Ok (nth_Q a i)) as ->.
  { unfold getitem, nth_Q. destruct (a !! i) as [v|] eqn:E.
    - f_equal. symmetry. by apply nth_lookup_Some with (d := 0%Q) in E.
    - apply lookup_ge_None in E. lia. }
  simpl. by rewrite IH.
Qed.

(** ** The first least entry *)

Lemma argmin_from_spec (l pre : list Q) (best : Q) (bi : nat) :
  pre !! bi = Some best →
  (∀ i x, pre !! i = Some x →
     (i < bi → (best < x)%Q) ∧ (bi < i → (best <= x)%Q)) →
  first_min (pre ++ l) (argmin_from best bi (length pre) l).
Proof.
  revert pre best bi. induction l as [|x l IH]; simpl; intros pre best bi Hb Hp.
  - rewrite app_nil_r. split; [by eapply lookup_lt_Some|].
    intros i x y Hi Hy. rewrite Hb in Hy. injection Hy as <-. by apply Hp.
  - pose proof (lookup_lt_Some _ _ _ Hb) as Hlt.
    replace (pre ++ x :: l) with ((pre ++ [x]) ++ l) by by rewrite <-app_assoc.
    replace (S (length pre)) with (length (pre ++ [x]))
      by (rewrite length_app; simpl; lia).
    destruct (Qlt_le_dec x best) as [Hx|Hx].
    + replace (length pre) with (length pre + 0) at 1 by lia.
      apply IH.
      * rewrite lookup_app_r by lia.
        by replace (length pre + 0 - length pre) with 0 by lia.
      * intros i x0 Hi. split; [|intros Hgt; apply lookup_lt_Some in Hi;
          rewrite length_app in Hi; simpl in Hi; lia].
        intros Hlt'. rewrite lookup_app_l in Hi by lia.
        destruct (Hp _ _ Hi) as [H1 H2].
        destruct (decide (i < bi)) as [?|?].
        { eapply Qlt_trans; [exact Hx|]. by apply H1. }
        destruct (decide (i = bi)) as [->|?].
        { rewrite Hb in Hi. by injection Hi as <-. }
        eapply Qlt_le_trans; [exact Hx|]. apply H2. lia.
    + apply IH.
      * by apply lookup_app_l_Some.
      * intros i x0 Hi.
        destruct (decide (i < length pre)) as [Hin|Hout].
        { rewrite lookup_app_l in Hi by done. by apply Hp. }
        pose proof (lookup_lt_Some _ _ _ Hi) as Hi'.
        rewrite length_app in Hi'. simpl in Hi'.
        assert (i = length pre) as -> by lia.
        rewrite lookup_app_r in Hi by lia.
        replace (length pre - length pre) with 0 in Hi by lia.
        injection Hi as <-. split; [lia|done].
Qed.

Lemma argmin_total_spec (s : list Q) : s ≠ [] → first_min s (argmin_total s).
Proof.
  destruct s as [|x s]; [done|]. intros _. simpl.
  apply (argmin_from_spec s [x] x 0); [done|].
  intros [|i] x0 Hi; [|done]. split; lia.
Qed.

Lemma first_min_unique (s : list Q) (a a' : nat) :
  first_min s a → first_min s a' → a = a'.
Proof.
  intros [Ha Hmin] [Ha' Hmin'].
  destruct (lookup_lt_is_Some_2 _ _ Ha) as [y Hy].
  destruct (lookup_lt_is_Some_2 _ _ Ha') as [y' Hy'].
  destruct (Nat.lt_trichotomy a a') as [Hlt|[->|Hlt]]; [|done|]; exfalso.
  - destruct (Hmin' _ _ _ Hy Hy') as [H1 _].
    destruct (Hmin _ _ _ Hy' Hy) as [_ H2].
    apply (Qlt_irrefl y). eapply Qle_lt_trans; [by apply H2|by apply H1].
  - destruct (Hmin _ _ _ Hy' Hy) as [H1 _].
    destruct (Hmin' _ _ _ Hy Hy') as [_ H2].
    apply (Qlt_irrefl y'). eapply Qle_lt_trans; [by apply H2|by apply H1].
Qed.

(** ** Equal entries of a sorted index array are adjacent *)

Lemma count_occ_nat_pos (k : nat) (l : list nat) :
  k ∈ l ↔ 0 < count_occ_nat k l.
Proof.
  unfold count_occ_nat. induction l as [|x l IH]; simpl.
  - split; [by intros ?%elem_of_nil|lia].
  - rewrite elem_of_cons. destruct (decide (x = k)) as [->|Hne].
    + rewrite filter_cons_True by done. simpl. split; [lia|by left].
    + rewrite filter_cons_False by done. rewrite <-IH.
      split; [by intros [?|?]|by right].
Qed.

Lemma sorted_occurrences (l : list nat) (k p : nat) :
  StronglySorted le l →
  l !! p = Some k ↔
  first_occ k l ≤ p < first_occ k l + count_occ_nat k l.
Proof.
  intros Hs. revert p. induction Hs as [|x l Hs IH Hx]; intros p; simpl.
  - unfold count_occ_nat. simpl. split; [done|lia].
  - unfold count_occ_nat in *. destruct (decide (x = k)) as [->|Hne].
    + rewrite filter_cons_True by done. simpl.
      destruct p as [|p]; simpl; [split; [lia|done]|].
      rewrite IH.
      destruct (decide (0 < length (filter (λ x, x = k) l))) as [Hpos|Hz];
        [|lia].
      apply count_occ_nat_pos in Hpos.
      assert (first_occ k l = 0) as ->; [|lia].
      destruct l as [|y l']; [by apply elem_of_nil in Hpos|]. simpl.
      rewrite decide_True; [done|].
      apply Forall_cons in Hx as [Hky _].
      apply StronglySorted_cons in Hs as [Hy _].
      apply elem_of_cons in Hpos as [->|Hin]; [done|].
      pose proof (proj1 (Forall_forall _ _) Hy _ Hin). lia.
    + rewrite filter_cons_False by done.
      destruct p as [|p]; simpl.
      * split; [intros [=]; done|lia].
      * rewrite IH. lia.
Qed.

Lemma first_occ_lt (l : list nat) (k : nat) :
  k ∈ l → first_occ k l + count_occ_nat k l ≤ length l ∧
          l !! first_occ k l = Some k.
Proof.
  unfold count_occ_nat. induction l as [|x l IH]; simpl.
  - by intros ?%elem_of_nil.
  - intros Hin. destruct (decide (x = k)) as [->|Hne].
    + rewrite filter_cons_True by done. simpl. split; [|done].
      pose proof (length_filter (λ x, x = k) l). lia.
    + rewrite filter_cons_False by done.
      apply elem_of_cons in Hin as [->|Hin]; [done|].
      destruct (IH Hin). simpl. split; [lia|done].
Qed.

(** ** Masks, once more *)

Lemma select_nil_r {A} (m : list bool) : select m (@nil A) = [].
Proof. by destruct m. Qed.

Lemma select_zip {A B} (m : list bool) (a : list A) (b : list B) :
  length a = length b → zip (select m a) (select m b) = select m (zip a b).
Proof.
  revert a b. induction m as [|c m IH]; intros [|x a] [|y b]; simpl; try done.
  intros [= L]. destruct c; simpl; by rewrite IH.
Qed.

Lemma select_fmap {A B} (f : A → B) (m : list bool) (a : list A) :
  f <$> select m a = select m (f <$> a).
Proof.
  revert a. induction m as [|c m IH]; intros [|x a]; simpl; try done.
  destruct c; simpl; by rewrite IH.
Qed.

Lemma select_by_test {A} (P : A → bool) (a : list A) :
  select (P <$> a) a = filter (λ x, P x = true) a.
Proof.
  induction a as [|x a IH]; [done|].
  rewrite fmap_cons. cbn [select]. destruct (P x) eqn:E.
  - rewrite filter_cons_True by done. by rewrite IH.
  - rewrite filter_cons_False by (by rewrite E). done.
Qed.

Lemma select_length {A} (m : list bool) (a : list A) :
  length m = length a → length (select m a) = count_true m.
Proof.
  unfold count_true. revert a.
  induction m as [|c m IH]; intros [|x a]; simpl; try done.
  intros [= L]. destruct c.
  - rewrite filter_cons_True by done. simpl. by rewrite IH.
  - rewrite filter_cons_False by done. by rewrite IH.
Qed.

Lemma select_all_true {A} (m : list bool) (a : list A) :
  length m = length a → Forall (λ b, b = true) m → select m a = a.
Proof.
  revert a. induction m as [|c m IH]; intros [|x a]; simpl; try done.
  intros [= L] [-> H]%Forall_cons. by rewrite IH.
Qed.

Lemma select_sublist {A} (m : list bool) (a : list A) : select m a `sublist_of` a.
Proof.
  revert a. induction m as [|c m IH]; intros [|x a]; simpl;
    try apply sublist_nil_l.
  destruct c; [by apply sublist_skip|by apply sublist_cons].
Qed.

Lemma pair_const {A B} (idx : list A) (v : B) :
  zip idx (replicate (length idx) v) = (λ j, (j, v)) <$> idx.
Proof. induction idx as [|j idx IH]; simpl; [done|]. by rewrite IH. Qed.

(** ** The [closest] loop in closed form *)

Lemma slice_length {A} (a : list A) (f c : nat) :
  f + c ≤ length a → length (slice a f (f + c)) = c.
Proof. intros H. unfold slice. rewrite length_take, length_drop. lia. Qed.

Lemma group_winner_range (d_m : list Q) (g : nat * nat) :
  0 < g.2 → g.1 + g.2 ≤ length d_m →
  g.1 ≤ group_winner d_m g < g.1 + g.2.
Proof.
  intros Hc Hr. unfold group_winner.
  pose proof (slice_length d_m _ _ Hr) as Hl.
  destruct (argmin_total_spec (slice d_m g.1 (g.1 + g.2))) as [Ha _].
  { intros E. rewrite E in Hl. simpl in Hl. lia. }
  lia.
Qed.

Lemma np_argmin_total (s : list Q) : s ≠ [] → np_argmin s = Ok (argmin_total s).
Proof. by destruct s. Qed.

Lemma getitem_in_range (a : list Q) (i : nat) :
  i < length a → getitem a i = Ok (nth_Q a i).
Proof.
  intros Hi. unfold getitem, nth_Q. destruct (a !! i) as [v|] eqn:E.
  - f_equal. symmetry. by apply nth_lookup_Some with (d := 0%Q) in E.
  - apply lookup_ge_None in E. lia.
Qed.

Lemma closest_loop_Ok (d_m mz_m sp_m : list Q) (it : list (nat * nat * nat)) :
  length mz_m = length d_m → length sp_m = length d_m →
  Forall (λ x, 0 < x.2 ∧ x.1.2 + x.2 ≤ length d_m) it →
  closest_loop d_m mz_m sp_m it
  = Ok (mjoin ((λ x, group_losers d_m (group_of x)) <$> it),
        (λ x, nth_Q mz_m (group_winner d_m (group_of x))) <$> it,
        (λ x, nth_Q sp_m (group_winner d_m (group_of x))) <$> it).
Proof.
  intros Lmz Lsp. induction 1 as [|[[t f] c] it [Hc Hr] _ IH]; [done|].
  simpl in Hc, Hr. cbn [closest_loop].
  pose proof (slice_length d_m _ _ Hr) as Hl.
  rewrite np_argmin_total by (intros E; rewrite E in Hl; simpl in Hl; lia).
  pose proof (group_winner_range d_m (f, c) Hc Hr) as Hw.
  unfold group_winner in Hw. simpl in Hw. simpl.
  rewrite !getitem_in_range by lia. simpl. rewrite IH. simpl.
  unfold group_losers, group_winner, np_setdiff1d, arange, group_of. simpl.
  by replace (f + c - f) with c by lia.
Qed.

Lemma put_all_patch {A B} (f0 g : A → B) (mm : list bool) (G : list A)
    (pre : list B) :
  length mm = length G →
  put_all (pre ++ (f0 <$> G))
    (zip (select mm (seq (length pre) (length G))) (g <$> select mm G))
  = pre ++ zip_with (λ (b : bool) x, if b then g x else f0 x) mm G.
Proof.
  revert G pre. induction mm as [|b mm IH]; intros [|x G] pre; try done.
  intros [= L]. cbn [length seq select fmap list_fmap zip_with].
  destruct b.
  - cbn [fmap list_fmap zip_with]. unfold put_all. cbn [foldl fst snd].
    fold (put_all (<[length pre:=g x]> (pre ++ f0 x :: (f0 <$> G)))
            (zip (select mm (seq (S (length pre)) (length G)))
               (g <$> select mm G))).
    rewrite insert_app_r_alt by lia.
    replace (length pre - length pre) with 0 by lia. simpl.
    rewrite (cons_middle (g x)), app_assoc.
    replace (S (length pre)) with (length (pre ++ [g x]))
      by (rewrite length_app; simpl; lia).
    rewrite IH by done. by rewrite <-app_assoc.
  - rewrite (cons_middle (f0 x) pre), app_assoc.
    replace (S (length pre)) with (length (pre ++ [f0 x]))
      by (rewrite length_app; simpl; lia).
    rewrite IH by done. by rewrite <-app_assoc.
Qed.

Lemma put_all_patch_by_test {A B} (f0 g : A → B) (P : A → bool) (G : list A) :
  (∀ x, x ∈ G → P x = false → f0 x = g x) →
  put_all (f0 <$> G)
    (zip (select (P <$> G) (seq 0 (length G))) (g <$> select (P <$> G) G))
  = g <$> G.
Proof.
  intros Hsame.
  rewrite (put_all_patch f0 g (P <$> G) G []) by by rewrite length_fmap.
  simpl. rewrite zip_with_fmap_l, zip_with_diag.
  apply list_fmap_ext. intros i x Hx. destruct (P x) eqn:E; [done|].
  apply Hsame; [|done]. apply list_elem_of_lookup. by exists i.
Qed.

(** ** [_match_mz] under the [closest] policy, in closed form *)

Lemma groups_range (l : list nat) (g : nat * nat) :
  g ∈ groups l → 0 < g.2 ∧ g.1 + g.2 ≤ length l.
Proof.
  unfold groups. intros (k & -> & Hk)%list_elem_of_fmap. simpl.
  rewrite merge_sort_Permutation, elem_of_remove_dups in Hk.
  split; [by apply count_occ_nat_pos|]. by apply first_occ_lt.
Qed.

Lemma group_winner_single (d_m : list Q) (g : nat * nat) :
  contended g = false → group_winner d_m g = g.1.
Proof.
  unfold contended, group_winner. intros H%bool_decide_eq_false.
  unfold slice.
  destruct (take (g.1 + g.2 - g.1) (drop g.1 d_m)) as [|x [|y s]] eqn:E;
    simpl; try done.
  assert (length (x :: y :: s) ≤ g.1 + g.2 - g.1) as Hlen.
  { rewrite <-E, length_take. lia. }
  simpl in Hlen. lia.
Qed.

Lemma bind_Ok_l {A B} (a : A) (f : A → result B) : Ok a ≫= f = f a.
Proof. done. Qed.

Lemma np_mask_same_length {A} (a : list A) (m : list bool) :
  length m = length a → np_mask a m = Ok (select m a).
Proof. intros H. unfold np_mask. by rewrite decide_True. Qed.

Lemma distances_length (mz1 mz2 : list Q) :
  length (distances mz1 mz2) = length mz2.
Proof.
  unfold distances.
  rewrite length_zip_with, length_fmap, find_closest_length. lia.
Qed.

Lemma in_range_length (mz1 mz2 : list Q) (tolerance : Q) :
  length (in_range mz1 mz2 tolerance) = length mz2.
Proof. unfold in_range. by rewrite length_fmap, distances_length. Qed.

Lemma groups_fst (l : list nat) :
  (groups l).*1 = (λ v, first_occ v l) <$> merge_sort le (remove_dups l).
Proof. unfold groups. by rewrite <-list_fmap_compose. Qed.

Lemma groups_snd (l : list nat) :
  (groups l).*2 = (λ v, count_occ_nat v l) <$> merge_sort le (remove_dups l).
Proof. unfold groups. by rewrite <-list_fmap_compose. Qed.

Lemma zip3_groups (a b c : list nat) :
  length a = length b → group_of <$> zip (zip a b) c = zip b c.
Proof.
  revert b c. induction a as [|x a IH]; intros [|y b] [|z c]; try done.
  intros [= L]. cbn [zip_with fmap list_fmap]. unfold group_of at 1.
  simpl. f_equal. by apply IH.
Qed.

Lemma contended_groups (G : list (nat * nat)) :
  let mm := contended <$> G in
  group_of <$> zip (zip (np_where mm) (select mm G.*1)) (select mm G.*2)
  = filter (λ g, contended g = true) G.
Proof.
  intros mm. rewrite zip3_groups.
  - rewrite select_zip by by rewrite !length_fmap.
    rewrite zip_fst_snd. apply select_by_test.
  - unfold np_where. rewrite !select_length; [done|..];
      unfold mm; by rewrite ?length_fmap, ?length_seq.
Qed.

Lemma losers_lt (l : list nat) (d_m : list Q) (j : nat) :
  j ∈ losers l d_m → j < length l.
Proof.
  unfold losers. intros (js & Hj & Hjs)%list_elem_of_join.
  apply list_elem_of_fmap in Hjs as (g & -> & Hg).
  apply list_elem_of_filter in Hg as [_ Hg]. apply groups_range in Hg.
  unfold group_losers in Hj. apply list_elem_of_filter in Hj as [_ Hj].
  apply elem_of_seq in Hj. lia.
Qed.

Lemma match_mz_closest_eq mz1 mz2 sp2 tolerance mz_reduce sp_reduce :
  mz1 ≠ [] → Sorted Qle mz2 → length sp2 = length mz2 →
  let m := in_range mz1 mz2 tolerance in
  let l := select m (find_closest mz1 mz2) in
  let d_m := select m (distances mz1 mz2) in
  let final := put_all (negb <$> m) ((λ j, (j, true)) <$> losers l d_m) in
  _match_mz mz1 mz2 sp2 tolerance "closest" mz_reduce sp_reduce
  = Ok (merge_sort le (remove_dups l),
        (λ g, nth_Q (select m mz2) (group_winner d_m g)) <$> groups l,
        (λ g, nth_Q (select m sp2) (group_winner d_m g)) <$> groups l,
        select final mz2, select final sp2).
Proof.
  intros Hne Hasc Hsp m l d_m final. unfold _match_mz.
  rewrite np_take_in_range by by apply find_closest_lt.
  rewrite bind_Ok_l.
  unfold np_zip at 1.
  rewrite decide_True by by rewrite length_fmap, find_closest_length.
  rewrite bind_Ok_l. fold (distances mz1 mz2). fold (in_range mz1 mz2 tolerance).
  fold m.
  assert (length m = length mz2) as Lm by apply in_range_length.
  rewrite (np_mask_same_length (find_closest mz1 mz2))
    by by rewrite find_closest_length.
  rewrite bind_Ok_l. fold l. unfold np_unique.
  cbv zeta. cbv iota.
  rewrite <-(groups_fst l), <-(groups_snd l).
  assert ((λ c, bool_decide (1 < c)) <$> (groups l).*2 = contended <$> groups l)
    as ->.
  { by rewrite <-list_fmap_compose. }
  set (G := groups l).
  assert (length (select m sp2) = length l) as Lsp.
  { unfold l. rewrite !select_length; [done|..];
      by rewrite ?find_closest_length; lia. }
  assert (length (select m mz2) = length l) as Lmz.
  { unfold l. rewrite !select_length; [done|..];
      by rewrite ?find_closest_length; lia. }
  assert (length d_m = length l) as Ld.
  { unfold l, d_m. rewrite !select_length; [done|..];
      by rewrite ?find_closest_length, ?distances_length; lia. }
  assert (∀ a : list Q, length a = length l →
            Forall (λ i, i < length a) G.*1) as Hfi.
  { intros a La. apply Forall_fmap, Forall_forall. intros g Hg.
    apply groups_range in Hg. simpl. lia. }
  rewrite (np_mask_same_length sp2) by lia. rewrite bind_Ok_l.
  rewrite np_take_in_range by by apply Hfi. rewrite bind_Ok_l.
  rewrite (np_mask_same_length mz2) by lia. rewrite bind_Ok_l.
  rewrite np_take_in_range by by apply Hfi. rewrite bind_Ok_l.
  rewrite (np_mask_same_length G.*1) by by rewrite !length_fmap.
  rewrite bind_Ok_l.
  rewrite <-!list_fmap_compose.
  assert (Forall (λ x, 0 < x.2 ∧ x.1.2 + x.2 ≤ length d_m)
            (zip (zip (np_where (contended <$> G))
                    (select (contended <$> G) G.*1))
               (select (contended <$> G) G.*2))) as Hit.
  { apply (Forall_fmap group_of
             (λ g : nat * nat, 0 < g.2 ∧ g.1 + g.2 ≤ length d_m)).
    rewrite contended_groups. apply Forall_forall.
    intros g [_ Hg]%list_elem_of_filter. rewrite Ld. by apply groups_range. }
  assert (Forall (λ p : nat * bool, p.1 < length (negb <$> m))
            ((λ j, (j, true)) <$> losers l d_m)) as Hrm.
  { apply Forall_fmap, Forall_forall. intros j Hj%losers_lt. simpl.
    rewrite length_fmap.
    pose proof (length_select_le m (find_closest mz1 mz2)) as Hle.
    rewrite find_closest_length in Hle. fold l in Hle. lia. }
  assert (put_all ((nth_Q (select m mz2) ∘ fst) <$> G)
            (zip (select (contended <$> G) (seq 0 (length G)))
               ((λ g, nth_Q (select m mz2) (group_winner d_m g))
                  <$> select (contended <$> G) G))
          = (λ g, nth_Q (select m mz2) (group_winner d_m g)) <$> G) as Pmz.
  { apply put_all_patch_by_test. intros g _ Hg. simpl.
    by rewrite group_winner_single. }
  assert (put_all ((nth_Q (select m sp2) ∘ fst) <$> G)
            (zip (select (contended <$> G) (seq 0 (length G)))
               ((λ g, nth_Q (select m sp2) (group_winner d_m g))
                  <$> select (contended <$> G) G))
          = (λ g, nth_Q (select m sp2) (group_winner d_m g)) <$> G) as Psp.
  { apply put_all_patch_by_test. intros g _ Hg. simpl.
    by rewrite group_winner_single. }
  set (it := zip (zip (np_where (contended <$> G))
                    (select (contended <$> G) G.*1))
               (select (contended <$> G) G.*2)) in *.
  assert (filter (λ g, contended g = true) G = group_of <$> it) as Egr.
  { symmetry. apply contended_groups. }
  assert (mjoin ((λ x, group_losers d_m (group_of x)) <$> it) = losers l d_m)
    as Erm.
  { unfold losers. fold G. rewrite Egr. by rewrite <-list_fmap_compose. }
  assert (∀ a : list Q,
            (λ x, nth_Q a (group_winner d_m (group_of x))) <$> it
            = (λ g, nth_Q a (group_winner d_m g))
                <$> select (contended <$> G) G) as Erep.
  { intros a. rewrite select_by_test, Egr. by rewrite <-list_fmap_compose. }
  assert (∀ (a : list Q) (f : nat * nat → Q),
            np_put (nth_Q a ∘ fst <$> G) (np_where (contended <$> G))
              (f <$> select (contended <$> G) G)
            = Ok (put_all (nth_Q a ∘ fst <$> G)
                    (zip (select (contended <$> G) (seq 0 (length G)))
                       (f <$> select (contended <$> G) G)))) as Hput.
  { intros a f. unfold np_where. rewrite length_fmap.
    rewrite np_put_same_length
      by (rewrite length_fmap, !select_length;
          by rewrite ?length_fmap, ?length_seq).
    apply put_seq_in_range, Forall_forall. intros [j v] Hjv.
    apply elem_of_zip_l in Hjv. simpl. rewrite length_fmap.
    pose proof (elem_of_sublist _ _ _ Hjv
      (select_sublist (contended <$> G) (seq 0 (length G)))) as Hj.
    apply elem_of_seq in Hj. lia. }
  assert (length final = length mz2) as Lfinal.
  { unfold final. by rewrite put_all_length, length_fmap. }
  match goal with |- ?blk ≫= _ = _ =>
    assert (blk = Ok ((λ g, nth_Q (select m mz2) (group_winner d_m g)) <$> G,
                      (λ g, nth_Q (select m sp2) (group_winner d_m g)) <$> G,
                      final)) as ->
  end.
  { destruct (decide (0 < length (select (contended <$> G) G.*1))) as [Hc|Hc].
    - rewrite (np_mask_same_length G.*2) by by rewrite !length_fmap.
      rewrite bind_Ok_l. rewrite decide_True by done.
      rewrite (np_mask_same_length (distances mz1 mz2))
        by by rewrite distances_length.
      rewrite bind_Ok_l. fold d_m. fold it.
      rewrite closest_loop_Ok by (done || lia).
      rewrite bind_Ok_l. cbv beta iota. rewrite Erm, !Erep.
      unfold np_put_all. rewrite pair_const.
      rewrite put_seq_in_range by done. rewrite bind_Ok_l. fold final.
      rewrite !Hput, !bind_Ok_l. by rewrite Pmz, Psp.
    - assert (select (contended <$> G) G = []) as Enil.
      { apply nil_length_inv.
        rewrite select_length in Hc by by rewrite !length_fmap.
        rewrite select_length by by rewrite length_fmap. lia. }
      rewrite Enil in Pmz, Psp. simpl in Pmz, Psp.
      rewrite zip_with_nil_r in Pmz, Psp. unfold put_all in Pmz, Psp.
      simpl in Pmz, Psp. rewrite Pmz, Psp.
      assert (final = negb <$> m) as ->; [|done].
      unfold final, losers. fold G.
      rewrite <-(select_by_test contended), Enil. done. }
  rewrite bind_Ok_l. cbv beta iota.
  rewrite (np_mask_same_length mz2) by done. rewrite bind_Ok_l.
  rewrite (np_mask_same_length sp2) by lia. by rewrite bind_Ok_l.
Qed.

(** ** The nearest peak of a trace *)

Lemma slice_lookup {A} (a : list A) (f c i : nat) :
  i < c → slice a f (f + c) !! i = a !! (f + i).
Proof.
  intros Hi. unfold slice. rewrite lookup_take_lt by lia. apply lookup_drop.
Qed.

Lemma group_winner_nearest (l : list nat) (d : list Q) (k : nat) :
  StronglySorted le l → length d = length l → k ∈ l →
  let w := group_winner d (first_occ k l, count_occ_nat k l) in
  l !! w = Some k ∧ nearest_first l d w.
Proof.
  intros Hs Hlen Hk w.
  destruct (first_occ_lt _ _ Hk) as [Hr _].
  pose proof (proj1 (count_occ_nat_pos _ _) Hk) as Hc.
  pose proof (group_winner_range d (first_occ k l, count_occ_nat k l)) as Hw.
  simpl in Hw. specialize (Hw Hc). rewrite Hlen in Hw. specialize (Hw Hr).
  fold w in Hw.
  assert (l !! w = Some k) as Hlw by by apply sorted_occurrences.
  split; [done|]. split; [by eapply lookup_lt_Some|].
  intros p' k' x y Hk1 Hk2 Hx Hy.
  rewrite Hlw in Hk1. injection Hk1 as <-.
  apply sorted_occurrences in Hk2; [|done].
  destruct (argmin_total_spec
    (slice d (first_occ k l) (first_occ k l + count_occ_nat k l)))
    as [Ha Hmin].
  { intros E. pose proof (slice_length d (first_occ k l) (count_occ_nat k l))
      as Hl. rewrite E in Hl. simpl in Hl. lia. }
  rewrite slice_length in Ha by lia.
  set (a := argmin_total
    (slice d (first_occ k l) (first_occ k l + count_occ_nat k l))) in *.
  assert (w = first_occ k l + a) as Ew by (unfold w, group_winner; simpl; lia).
  specialize (Hmin (p' - first_occ k l) y x).
  rewrite !slice_lookup in Hmin by lia.
  replace (first_occ k l + (p' - first_occ k l)) with p' in Hmin by lia.
  rewrite <-Ew in Hmin. destruct (Hmin Hy Hx) as [H1 H2].
  split; intros; [apply H1|apply H2]; lia.
Qed.

Lemma nearest_first_unique (l : list nat) (d : list Q) (p p' : nat) :
  length d = length l → l !! p = l !! p' →
  nearest_first l d p → nearest_first l d p' → p = p'.
Proof.
  intros Hlen Heq [Hp Hmin] [Hp' Hmin'].
  destruct (lookup_lt_is_Some_2 l p Hp) as [k Hk].
  assert (l !! p' = Some k) as Hk' by congruence.
  destruct (lookup_lt_is_Some_2 d p) as [x Hx]; [lia|].
  destruct (lookup_lt_is_Some_2 d p') as [y Hy]; [lia|].
  destruct (Hmin _ _ _ _ Hk Hk' Hx Hy) as [H1 H2].
  destruct (Hmin' _ _ _ _ Hk' Hk Hy Hx) as [H1' H2'].
  destruct (Nat.lt_trichotomy p p') as [Hlt|[->|Hlt]]; [|done|]; exfalso.
  - apply (Qlt_irrefl x). eapply Qle_lt_trans; [by apply H2|by apply H1'].
  - apply (Qlt_irrefl y). eapply Qle_lt_trans; [by apply H2'|by apply H1].
Qed.

Lemma losers_spec (l : list nat) (d : list Q) (p : nat) :
  StronglySorted le l → length d = length l →
  p ∈ losers l d ↔ p < length l ∧ ¬ nearest_first l d p.
Proof.
  intros Hs Hlen. split.
  - intros Hp. split; [by eapply losers_lt|].
    unfold losers in Hp. apply list_elem_of_join in Hp as (js & Hj & Hjs).
    apply list_elem_of_fmap in Hjs as (g & -> & Hg).
    apply list_elem_of_filter in Hg as [_ Hg]. unfold groups in Hg.
    apply list_elem_of_fmap in Hg as (k & -> & Hk).
    rewrite merge_sort_Permutation, elem_of_remove_dups in Hk.
    unfold group_losers in Hj. apply list_elem_of_filter in Hj as [Hne Hj].
    apply elem_of_seq in Hj. simpl in Hj.
    destruct (group_winner_nearest l d k Hs Hlen Hk) as [Hlw Hw].
    assert (l !! p = Some k) as Hlp by (apply sorted_occurrences; [done|lia]).
    intros Hnear. apply Hne.
    apply (nearest_first_unique l d); [done|congruence|done..].
  - intros [Hp Hnot].
    destruct (lookup_lt_is_Some_2 l p Hp) as [k Hlp].
    assert (k ∈ l) as Hk by (apply list_elem_of_lookup; by exists p).
    destruct (group_winner_nearest l d k Hs Hlen Hk) as [Hlw Hw].
    set (g := (first_occ k l, count_occ_nat k l)) in *.
    apply sorted_occurrences in Hlp; [|done].
    apply sorted_occurrences in Hlw; [|done].
    assert (p ≠ group_winner d g) as Hne by (intros ->; done).
    unfold losers. apply list_elem_of_join.
    exists (group_losers d g). split.
    + unfold group_losers. apply list_elem_of_filter. split; [done|].
      apply elem_of_seq. simpl. lia.
    + apply list_elem_of_fmap. exists g. split; [done|].
      apply list_elem_of_filter. split.
      * unfold contended. apply bool_decide_eq_true. simpl. lia.
      * unfold groups. apply list_elem_of_fmap. exists k. split; [done|].
        by rewrite merge_sort_Permutation, elem_of_remove_dups.
Qed.

Lemma put_all_const_lookup {A} (js : list nat) (v : A) (a : list A) (p : nat) :
  put_all a ((λ j, (j, v)) <$> js) !! p
  = if decide (p ∈ js ∧ p < length a) then Some v else a !! p.
Proof.
  revert a. induction js as [|j js IH]; intros a.
  - rewrite decide_False; [done|]. intros [?%elem_of_nil _]. done.
  - cbn [fmap list_fmap]. unfold put_all. cbn [foldl fst snd].
    fold (put_all (<[j:=v]> a) ((λ j, (j, v)) <$> js)).
    rewrite IH, length_insert.
    destruct (decide (p ∈ js ∧ p < length a)) as [[Hin Hlt]|Hnot].
    + rewrite decide_True; [done|]. split; [by right|done].
    + destruct (decide (p = j)) as [->|Hne].
      * destruct (decide (j < length a)) as [Hlt|Hge].
        -- rewrite list_lookup_insert_eq by done.
           rewrite decide_True; [done|]. split; [by left|done].
        -- rewrite list_insert_ge by lia.
           rewrite decide_False; [done|]. intros [_ ?]. lia.
      * rewrite list_lookup_insert_ne by done.
        rewrite decide_False; [done|].
        intros [[->|Hin]%elem_of_cons Hlt]; [done|]. by apply Hnot.
Qed.

Lemma lookup_nth_Q (a : list Q) (i : nat) :
  i < length a → a !! i = Some (nth_Q a i).
Proof.
  intros Hi. pose proof (getitem_in_range a i Hi) as H. unfold getitem in H.
  destruct (a !! i); [|done]. by injection H as ->.
Qed.

Lemma add_untargeted_spawns self mz sp self'
    match_index mz_match sp_match mz_no_match sp_no_match :
  _match_mz (self_mz_mean self) mz sp (self_tolerance self)
    (self_multiple_match self) (self_mz_reduce self) (self_spint_reduce self)
  = Ok (match_index, mz_match, sp_match, mz_no_match, sp_no_match) →
  add self mz sp false = Ok self' →
  active_count self' = active_count self + length mz_no_match ∧
  (∀ x, x ∈ mz_no_match → x ∈ self_mz_mean self').
Proof.
  intros Hm Hadd. apply add_inv in Hadd
    as (mi & mzm & spm & nm & snm & d & mean_m & len_m & max_m & len & nmiss
        & maxi & Hm' & _ & _ & _ & _ & _ & _ & _ & _ & _
        & mm & self2 & Hput & Hext & ->).
  rewrite Hm in Hm'. injection Hm' as <- <- <- <- <-.
  apply extend_inv in Hext
    as (mx & mz_mean & ri & nmi & ln & mxi & _ & T1 & _ & _ & _ & _ & ->).
  simpl in T1. rewrite np_take_argsort in T1. injection T1 as <-.
  apply np_put_length in Hput.
  assert ((merge_sort key_le
             (zip (mm ++ mz_no_match) (seq 0 (length (mm ++ mz_no_match))))).*1
          ≡ₚ mm ++ mz_no_match) as Hperm.
  { rewrite merge_sort_Permutation.
    by rewrite fst_zip by (by rewrite length_seq). }
  unfold active_count; simpl. split.
  - rewrite Hperm, length_app. lia.
  - intros x Hx. rewrite Hperm. apply elem_of_app. by right.
Qed.

(** C4 (amended): under the [closest] policy, every trace that has an
    in-range peak is matched once, to the in-range peak of least distance
    among those that contend for it (the first one on a tie); no other
    contending peak is matched to any trace.  When every peak of the scan is
    in range, the unmatched output is exactly the contending peaks that
    lost; and in untargeted mode [add] spawns a new trace from every peak of
    the unmatched output. *)
Theorem closest_policy (self : RoiProcessor) (mz sp : list Q) :
  self_multiple_match self = "closest" →
  self_mz_mean self ≠ [] → Sorted Qle mz → length sp = length mz →
  let m := in_range (self_mz_mean self) mz (self_tolerance self) in
  let l := select m (find_closest (self_mz_mean self) mz) in
  let d := select m (distances (self_mz_mean self) mz) in
  ∃ match_index mz_match sp_match mz_no_match sp_no_match,
    _match_mz (self_mz_mean self) mz sp (self_tolerance self)
      (self_multiple_match self) (self_mz_reduce self) (self_spint_reduce self)
    = Ok (match_index, mz_match, sp_match, mz_no_match, sp_no_match) ∧
    NoDup match_index ∧ (∀ k, k ∈ match_index ↔ k ∈ l) ∧
    (∀ t k, match_index !! t = Some k →
       ∃ p, l !! p = Some k ∧ nearest_first l d p ∧
            mz_match !! t = select m mz !! p ∧
            sp_match !! t = select m sp !! p) ∧
    (Forall (λ b, b = true) m →
       ∃ lose : list bool,
         length lose = length mz ∧
         (∀ p, lose !! p = Some true ↔
               p < length mz ∧ ¬ nearest_first l d p) ∧
         mz_no_match = select lose mz ∧ sp_no_match = select lose sp) ∧
    (∀ self', add self mz sp false = Ok self' →
       active_count self' = active_count self + length mz_no_match ∧
       (∀ x, x ∈ mz_no_match → x ∈ self_mz_mean self')).
Proof.
  intros Hpol Hne Hasc Hsp m l d.
  pose proof (match_mz_closest_eq (self_mz_mean self) mz sp
    (self_tolerance self) (self_mz_reduce self) (self_spint_reduce self)
    Hne Hasc Hsp) as Heq.
  cbv zeta in Heq. fold m in Heq. fold l in Heq. fold d in Heq.
  rewrite <-Hpol in Heq.
  assert (length m = length mz) as Lm by apply in_range_length.
  assert (StronglySorted le l) as Hs.
  { apply select_StronglySorted. by apply find_closest_sorted. }
  assert (length d = length l) as Ld.
  { unfold l, d. rewrite !select_length; [done|..];
      by rewrite ?find_closest_length, ?distances_length; lia. }
  assert (length (select m mz) = length l) as Lmz.
  { unfold l. rewrite !select_length; [done|..];
      by rewrite ?find_closest_length; lia. }
  assert (length (select m sp) = length l) as Lsp.
  { unfold l. rewrite !select_length; [done|..];
      by rewrite ?find_closest_length; lia. }
  do 5 eexists. split; [exact Heq|].
  split; [|split; [|split; [|split]]].
  - rewrite merge_sort_Permutation. apply NoDup_remove_dups.
  - intros k. by rewrite merge_sort_Permutation, elem_of_remove_dups.
  - intros t k Ht.
    assert (k ∈ l) as Hk.
    { rewrite <-elem_of_remove_dups, <-(merge_sort_Permutation le).
      apply list_elem_of_lookup. by exists t. }
    destruct (group_winner_nearest l d k Hs Ld Hk) as [Hlw Hw].
    exists (group_winner d (first_occ k l, count_occ_nat k l)).
    split; [done|]. split; [done|].
    pose proof (lookup_lt_Some _ _ _ Hlw) as Hlt.
    unfold groups. rewrite <-!list_fmap_compose, !list_lookup_fmap, Ht. simpl.
    rewrite !lookup_nth_Q by lia. done.
  - intros Hall. eexists. split; [|split; [|split; reflexivity]].
    + by rewrite put_all_length, length_fmap.
    + intros p. rewrite put_all_const_lookup, length_fmap.
      assert (l = find_closest (self_mz_mean self) mz) as El.
      { apply select_all_true; [by rewrite find_closest_length|done]. }
      assert (length l = length mz) as Ll.
      { by rewrite El, find_closest_length. }
      rewrite <-Ll, <-(losers_spec l d p Hs Ld).
      destruct (decide (p ∈ losers l d ∧ p < length m)) as [[H1 H2]|Hnot].
      * split; [by intros _|done].
      * split; [|intros Hin; destruct Hnot; split; [done|];
                  apply losers_lt in Hin; lia].
        rewrite list_lookup_fmap. intros Hp.
        destruct (m !! p) as [b|] eqn:E; [|done].
        assert (b = true) as ->.
        { apply (proj1 (Forall_lookup _ _) Hall _ _ E). }
        done.
  - intros self' Hadd. by eapply add_untargeted_spawns.
Qed.

(** ** The samples behind the parallel arrays *)

Lemma trace_ok_weaken (b b' : nat) t len maxi :
  b ≤ b' → trace_ok b t len maxi → trace_ok b' t len maxi.
Proof.
  intros Hb (H1 & H2 & H3 & H4 & H5 & H6). repeat split; try done.
  eapply Forall_impl; [exact H5|]. simpl. intros s Hs. lia.
Qed.

Lemma init_consistent mz_seed max_missing min_length min_intensity tolerance
    multiple_match mz_reduce sp_reduce mode self :
  RoiProcessor_init mz_seed max_missing min_length min_intensity tolerance
    multiple_match mz_reduce sp_reduce mode = Ok self →
  consistent self.
Proof.
  intros H. pose proof (init_slots _ _ _ _ _ _ _ _ _ _ H) as Hslots.
  unfold RoiProcessor_init in H. repeat case_decide; try done.
  injection H as <-. unfold consistent, consistent_upto; simpl in *.
  split; [|split].
  - by rewrite length_fmap, length_seq.
  - apply NoDup_fmap; [apply _|apply NoDup_seq].
  - intros i id len maxi Hid Hlen Hmaxi.
    apply lookup_replicate in Hlen as [-> _].
    apply lookup_replicate in Hmaxi as [-> _].
    exists make_empty_temp_roi. split.
    + apply elem_of_list_to_map.
      * rewrite <-list_fmap_compose. simpl. rewrite list_fmap_id.
        apply NoDup_fmap; [apply _|apply NoDup_seq].
      * apply list_elem_of_fmap. exists id. split; [done|].
        apply list_elem_of_lookup. by exists i.
    + repeat split; simpl; try done; try constructor. done.
Qed.

Lemma np_put_lookup_notin {A} (a r : list A) idx vals k :
  np_put a idx vals = Ok r → length vals = length idx → k ∉ idx →
  r !! k = a !! k.
Proof.
  intros H Hlen Hk. rewrite np_put_same_length in H by done.
  apply put_seq_Ok in H as [-> _]. apply put_all_lookup_notin.
  by rewrite fst_zip by lia.
Qed.

Lemma np_put_all_lookup {A} (a r : list A) idx (v : A) k :
  np_put_all a idx v = Ok r →
  r !! k = if decide (k ∈ idx ∧ k < length a) then Some v else a !! k.
Proof.
  unfold np_put_all. rewrite pair_const. intros H.
  apply put_seq_Ok in H as [-> _]. apply put_all_const_lookup.
Qed.

Lemma append_samples_spec roi_index index (ms : list (nat * Q * Q)) d d' :
  NoDup roi_index → NoDup ms.*1.*1 →
  append_samples roi_index index d ms = Ok d' →
  (∀ k k_mz k_sp id, (k, k_mz, k_sp) ∈ ms → roi_index !! k = Some id →
     ∃ t, d !! id = Some t ∧ d' !! id = Some (grow t k_mz k_sp index)) ∧
  (∀ id, (∀ k, k ∈ ms.*1.*1 → roi_index !! k ≠ Some id) → d' !! id = d !! id).
Proof.
  intros Hri. revert d. induction ms as [|[[k k_mz] k_sp] ms IH]; simpl;
    intros d Hnd H.
  - injection H as <-. split; [|done]. by intros k k_mz k_sp id ?%elem_of_nil.
  - apply NoDup_cons in Hnd as [Hk Hnd].
    apply bind_Ok in H as (key & Hkey & H). unfold getitem in Hkey.
    destruct (roi_index !! k) as [key'|] eqn:Ek; [|done].
    injection Hkey as ->.
    destruct (d !! key) as [t|] eqn:Et; [|done].
    destruct (IH _ Hnd H) as [Hin Hout]. fold (grow t k_mz k_sp index) in *.
    split.
    + intros k2 mz2 sp2 id [Heq|Hin2]%elem_of_cons Hid.
      * injection Heq as -> -> ->. assert (id = key) as -> by congruence.
        exists t. split; [done|]. rewrite Hout; [apply lookup_insert_eq|].
        intros k2 Hk2 Hk2'. apply Hk.
        assert (k2 = k) as ->; [|done].
        by eapply (NoDup_lookup roi_index).
      * destruct (Hin _ _ _ _ Hin2 Hid) as (t2 & Ht2 & Ht2').
        assert (id ≠ key) as Hne.
        { intros ->. apply Hk.
          assert (k2 = k) as <-; [by eapply (NoDup_lookup roi_index)|].
          apply list_elem_of_fmap. exists (k2, mz2). split; [done|].
          apply list_elem_of_fmap. by exists (k2, mz2, sp2). }
        rewrite lookup_insert_ne in Ht2 by done. by exists t2.
    + intros id Hid. rewrite Hout.
      * apply lookup_insert_ne. intros ->.
        apply (Hid k); [by left|done].
      * intros k2 Hk2. apply Hid. by right.
Qed.

Lemma trace_ok_grow (index : nat) t len maxi k_mz k_sp :
  trace_ok index t len maxi →
  trace_ok (S index) (grow t k_mz k_sp index) (len + 1)%Z (Qmaximum maxi k_sp).
Proof.
  intros (H1 & H2 & H3 & H4 & H5 & H6). unfold grow, trace_ok; simpl.
  rewrite !length_app; simpl. repeat split; try lia.
  - apply StronglySorted_app_2; [|done|repeat constructor].
    intros s1 s2 Hs1 ->%list_elem_of_singleton.
    by apply (proj1 (Forall_forall _ _) H5).
  - apply Forall_app. split; [|repeat constructor].
    eapply Forall_impl; [exact H5|]. simpl. intros s Hs. lia.
  - unfold Qmaximum. destruct (Qle_bool maxi k_sp).
    + right. apply elem_of_app. right. by apply list_elem_of_singleton.
    + destruct H6 as [->|H6]; [by left|]. right. apply elem_of_app. by left.
Qed.

Lemma add_update_consistent self match_index mz_match sp_match d
    len_m max_m len n_missing max_intensity :
  consistent self → NoDup match_index →
  length mz_match = length match_index →
  length sp_match = length match_index →
  append_samples (self_roi_index self) (self_index self)
    (self_temp_roi_dict self) (zip (zip match_index mz_match) sp_match)
  = Ok d →
  np_take (self_length self) match_index = Ok len_m →
  np_put (self_length self) match_index ((λ n, (n + 1)%Z) <$> len_m) = Ok len →
  np_put_all ((λ n, (n + 1)%Z) <$> self_n_missing self) match_index 0%Z
  = Ok n_missing →
  np_take (self_max_intensity self) match_index = Ok max_m →
  np_put (self_max_intensity self) match_index
    (zip_with Qmaximum max_m sp_match) = Ok max_intensity →
  consistent_upto (S (self_index self))
    (add_updated self d n_missing max_intensity len).
Proof.
  intros ((S1 & S2 & S3 & S4 & S5) & Hnd & Hok) Hmi Lmz Lsp Hd Hlen_m Hlen
    Hmiss Hmax_m Hmax.
  pose proof (np_take_length _ _ _ Hlen_m) as Llen_m.
  pose proof (np_take_length _ _ _ Hmax_m) as Lmax_m.
  pose proof (np_put_length _ _ _ _ Hlen) as Llen.
  pose proof (np_put_length _ _ _ _ Hmax) as Lmax.
  pose proof (np_put_all_length _ _ _ _ Hmiss) as Lmiss.
  rewrite length_fmap in Lmiss.
  assert ((zip (zip match_index mz_match) sp_match).*1.*1 = match_index) as Efst.
  { rewrite !fst_zip; [done|lia|]. rewrite length_zip_with. lia. }
  destruct (append_samples_spec _ _ _ _ _ Hnd
              ltac:(by rewrite Efst) Hd) as [Hin Hout].
  rewrite Efst in Hout.
  unfold consistent_upto, slots; simpl.
  split; [repeat split; congruence|]. split; [done|].
  intros i id l x Hid Hl Hx.
  pose proof (lookup_lt_Some _ _ _ Hid) as Hi.
  destruct (lookup_lt_is_Some_2 (self_length self) i) as [l0 Hl0]; [lia|].
  destruct (lookup_lt_is_Some_2 (self_max_intensity self) i) as [x0 Hx0];
    [lia|].
  destruct (Hok _ _ _ _ Hid Hl0 Hx0) as (t0 & Ht0 & Hok0).
  destruct (decide (i ∈ match_index)) as [Hmem|Hnot].
  - apply list_elem_of_lookup in Hmem as [t Ht].
    pose proof (lookup_lt_Some _ _ _ Ht) as Htlt.
    destruct (lookup_lt_is_Some_2 mz_match t) as [a Ha]; [lia|].
    destruct (lookup_lt_is_Some_2 sp_match t) as [b Hb]; [lia|].
    destruct (np_take_lookup _ _ _ _ _ Hlen_m Ht) as [El _].
    destruct (np_take_lookup _ _ _ _ _ Hmax_m Ht) as [Em _].
    rewrite Hl0 in El. rewrite Hx0 in Em.
    assert (len !! i = Some (l0 + 1)%Z) as El'.
    { eapply np_put_lookup_in; eauto; [by rewrite length_fmap|].
      by rewrite list_lookup_fmap, El. }
    assert (max_intensity !! i = Some (Qmaximum x0 b)) as Em'.
    { eapply np_put_lookup_in; eauto.
      - rewrite length_zip_with. lia.
      - by rewrite lookup_zip_with, Em, Hb. }
    rewrite El' in Hl. injection Hl as <-.
    rewrite Em' in Hx. injection Hx as <-.
    destruct (Hin i a b id) as (t1 & Ht1 & Ht1'); [|done|].
    { apply list_elem_of_lookup. exists t.
      apply lookup_zip_with_Some. exists (i, a), b. split; [done|].
      split; [|done]. apply lookup_zip_with_Some. by exists i, a. }
    assert (t1 = t0) as -> by congruence.
    exists (grow t0 a b (self_index self)). split; [done|].
    by apply trace_ok_grow.
  - rewrite (np_put_lookup_notin _ _ _ _ _ Hlen) in Hl;
      [|by rewrite length_fmap|done].
    rewrite (np_put_lookup_notin _ _ _ _ _ Hmax) in Hx;
      [|rewrite length_zip_with; lia|done].
    assert (l = l0) as -> by congruence. assert (x = x0) as -> by congruence.
    exists t0. split.
    + rewrite Hout; [done|]. intros k Hk Hk'. apply Hnot.
      assert (k = i) as ->; [|done]. by eapply (NoDup_lookup (self_roi_index self)).
    + eapply trace_ok_weaken; [|done]. lia.
Qed.

Lemma spawn_lookup_other index (news : list (Z * Q * Q)) d id :
  id ∉ news.*1.*1 → spawn index d news !! id = d !! id.
Proof.
  revert d. induction news as [|[[k a] b] news IH]; intros d Hid; [done|].
  cbn [fmap list_fmap fst] in Hid. apply not_elem_of_cons in Hid as [Hne Hid].
  unfold spawn in *. cbn [foldl]. rewrite IH by done.
  by apply lookup_insert_ne.
Qed.

Lemma spawn_lookup_new index (news : list (Z * Q * Q)) d i id a b :
  NoDup news.*1.*1 → news !! i = Some (id, a, b) →
  spawn index d news !! id = Some (mkTempRoi [a] [b] [index]).
Proof.
  revert d i. induction news as [|[[k a'] b'] news IH]; intros d i Hnd Hi;
    [done|].
  cbn [fmap list_fmap fst] in Hnd. apply NoDup_cons in Hnd as [Hk Hnd].
  unfold spawn in *. cbn [foldl]. destruct i as [|i]; simpl in Hi.
  - injection Hi as -> -> ->.
    fold (spawn index (<[id:=mkTempRoi [a] [b] [index]]> d) news).
    rewrite spawn_lookup_other by done. apply lookup_insert_eq.
  - by eapply IH.
Qed.

Lemma new_indices_lookup (mx : Z) (n i : nat) (id : Z) :
  new_indices_of mx n !! i = Some id ↔
  id = (Z.of_nat i + mx + 1)%Z ∧ i < n.
Proof.
  unfold new_indices_of. rewrite list_lookup_fmap. split.
  - destruct (seq 0 n !! i) as [j|] eqn:E; [|done]. simpl. intros [= <-].
    apply lookup_seq in E as [-> ?]. by split.
  - intros [-> Hi]. by rewrite lookup_seq_lt.
Qed.

Lemma new_indices_NoDup (mx : Z) (n : nat) : NoDup (new_indices_of mx n).
Proof.
  apply NoDup_alt. intros i j id [-> _]%new_indices_lookup
    [Heq _]%new_indices_lookup. lia.
Qed.

Lemma extend_consistent self mz sp self' :
  consistent_upto (S (self_index self)) self → length sp = length mz →
  extend self mz sp = Ok self' →
  consistent_upto (S (self_index self)) self'.
Proof.
  intros ((S1 & S2 & S3 & S4 & S5) & Hnd & Hok) Lsp Hext.
  apply extend_inv in Hext
    as (mx & mz_mean & ri & nmi & ln & mxi & Hmx & T1 & T2 & T3 & T4 & T5
        & ->).
  cbv zeta in *.
  set (new := new_indices_of mx (length mz)) in *.
  set (sorted := np_argsort (self_mz_mean self ++ mz)) in *.
  assert (length new = length mz) as Lnew.
  { unfold new, new_indices_of. by rewrite length_fmap, length_seq. }
  assert (NoDup sorted) as Hsorted.
  { unfold sorted. rewrite np_argsort_Permutation. apply NoDup_seq. }
  assert (NoDup (self_roi_index self ++ new)) as Htmp.
  { apply NoDup_app. split; [done|]. split; [|apply new_indices_NoDup].
    intros id Hold (j & Hj)%list_elem_of_lookup.
    apply new_indices_lookup in Hj as [-> _].
    apply np_max_Ok in Hmx as [_ Hmx]. specialize (Hmx _ Hold). lia. }
  assert ((zip (zip new mz) sp).*1.*1 = new) as Efst.
  { rewrite !fst_zip; [done|lia|]. rewrite length_zip_with. lia. }
  pose proof (np_take_length _ _ _ T1) as L1.
  pose proof (np_take_length _ _ _ T2) as L2.
  pose proof (np_take_length _ _ _ T3) as L3.
  pose proof (np_take_length _ _ _ T4) as L4.
  pose proof (np_take_length _ _ _ T5) as L5.
  unfold consistent_upto, slots; simpl.
  split; [repeat split; congruence|]. split.
  - apply NoDup_alt. intros j1 j2 id Hj1 Hj2.
    destruct (lookup_lt_is_Some_2 sorted j1) as [i1 Hi1];
      [apply lookup_lt_Some in Hj1; lia|].
    destruct (lookup_lt_is_Some_2 sorted j2) as [i2 Hi2];
      [apply lookup_lt_Some in Hj2; lia|].
    destruct (np_take_lookup _ _ _ _ _ T2 Hi1) as [E1 _].
    destruct (np_take_lookup _ _ _ _ _ T2 Hi2) as [E2 _].
    rewrite Hj1 in E1. rewrite Hj2 in E2.
    assert (i1 = i2) as -> by by eapply (NoDup_lookup _ _ _ _ Htmp).
    by eapply (NoDup_lookup sorted).
  - intros j id l x Hid Hl Hx.
    destruct (lookup_lt_is_Some_2 sorted j) as [i Hi];
      [apply lookup_lt_Some in Hid; lia|].
    destruct (np_take_lookup _ _ _ _ _ T2 Hi) as [E2 _].
    destruct (np_take_lookup _ _ _ _ _ T4 Hi) as [E4 _].
    destruct (np_take_lookup _ _ _ _ _ T5 Hi) as [E5 _].
    rewrite Hid in E2. rewrite Hl in E4. rewrite Hx in E5.
    symmetry in E2, E4, E5.
    destruct (decide (i < length (self_roi_index self))) as [Hold|Hnew].
    + rewrite lookup_app_l in E2 by lia. rewrite lookup_app_l in E4 by lia.
      rewrite lookup_app_l in E5 by lia.
      destruct (Hok _ _ _ _ E2 E4 E5) as (t & Ht & Htok).
      exists t. split; [|done]. rewrite spawn_lookup_other; [done|].
      rewrite Efst. intros (k & Hk)%list_elem_of_lookup.
      apply new_indices_lookup in Hk as [Heq _].
      apply np_max_Ok in Hmx as [_ Hmx].
      assert (id ∈ self_roi_index self) as Hin.
      { apply list_elem_of_lookup. by exists i. }
      specialize (Hmx _ Hin). lia.
    + rewrite lookup_app_r in E2 by lia. rewrite lookup_app_r in E4 by lia.
      rewrite lookup_app_r in E5 by lia.
      rewrite S5 in E4. rewrite S4 in E5.
      apply lookup_replicate in E4 as [-> _].
      apply lookup_replicate in E5 as [-> _].
      set (k := i - length (self_roi_index self)) in *.
      pose proof (lookup_lt_Some _ _ _ E2) as Hk.
      destruct (lookup_lt_is_Some_2 mz k) as [a Ha]; [lia|].
      destruct (lookup_lt_is_Some_2 sp k) as [b Hb]; [lia|].
      exists (mkTempRoi [a] [b] [self_index self]). split.
      * apply (spawn_lookup_new _ _ _ k);
          [rewrite Efst; apply new_indices_NoDup|].
        apply lookup_zip_with_Some. exists (id, a), b. split; [done|].
        split; [|done]. apply lookup_zip_with_Some. by exists id, a.
      * unfold trace_ok; simpl. repeat split; try done.
        -- repeat constructor.
        -- repeat constructor.
        -- by left.
Qed.

Lemma match_mz_unmatched_length mz1 mz2 sp2 tolerance mode mz_reduce sp_reduce
    match_index mz_match sp_match mz_no_match sp_no_match :
  _match_mz mz1 mz2 sp2 tolerance mode mz_reduce sp_reduce
  = Ok (match_index, mz_match, sp_match, mz_no_match, sp_no_match) →
  length sp_no_match = length mz_no_match.
Proof.
  unfold _match_mz. intros H.
  apply bind_Ok in H as (x1 & _ & H). apply bind_Ok in H as (x2 & _ & H).
  apply bind_Ok in H as (x3 & _ & H).
  destruct (np_unique x3) as [[u fi] cnt].
  apply bind_Ok in H as (x4 & _ & H). apply bind_Ok in H as (x5 & _ & H).
  apply bind_Ok in H as (x6 & _ & H). apply bind_Ok in H as (x7 & _ & H).
  apply bind_Ok in H as (x8 & _ & H).
  apply bind_Ok in H as ([[y1 y2] y3] & _ & H).
  apply bind_Ok in H as (x9 & H9 & H). apply bind_Ok in H as (x10 & H10 & H).
  injection H as _ _ _ <- <-.
  apply np_mask_Ok in H9 as [L9 ->]. apply np_mask_Ok in H10 as [L10 ->].
  rewrite !select_length; [done|lia|lia].
Qed.

Lemma add_consistent self mz sp targeted self' :
  consistent self → add self mz sp targeted = Ok self' → consistent self'.
Proof.
  intros Hc Hadd. apply add_inv in Hadd
    as (mi & mzm & spm & nm & snm & d & mean_m & len_m & max_m & len & nmiss
        & maxi & Hm & Hd & Hmean & Hlen & L1 & L2 & Hput_len & Hmiss & Hmax_m
        & Hput_max & Hrest).
  pose proof (match_mz_index_unique _ _ _ _ _ _ _ _ _ _ _ _ Hm) as Hnd.
  pose proof (match_mz_unmatched_length _ _ _ _ _ _ _ _ _ _ _ _ Hm) as Lnm.
  pose proof (add_update_consistent _ _ _ _ _ _ _ _ _ _ Hc Hnd L1 L2 Hd Hlen
                Hput_len Hmiss Hmax_m Hput_max) as H1.
  cbv zeta in Hrest. destruct targeted.
  - subst self'. unfold consistent. simpl.
    replace (self_index self + 1) with (S (self_index self)) by lia. exact H1.
  - destruct Hrest as (mm & self2 & Hmm & Hext & ->).
    set (s1 := with_arrays _ mm _ _ _ _) in Hext.
    assert (consistent_upto (S (self_index s1)) s1) as H1'.
    { destruct H1 as ((S1 & S2 & S3 & S4 & S5) & Hnd' & Hok).
      apply np_put_length in Hmm.
      split; [|split; [exact Hnd'|exact Hok]].
      unfold slots in *; simpl in *. repeat split; congruence. }
    pose proof (extend_consistent _ _ _ _ H1' Lnm Hext) as H2.
    unfold consistent. simpl.
    assert (self_index self2 = self_index self) as ->.
    { apply extend_inv in Hext
        as (? & ? & ? & ? & ? & ? & _ & _ & _ & _ & _ & _ & ->). done. }
    replace (self_index self + 1) with (S (self_index self)) by lia. exact H2.
Qed.

Lemma close_loop_kept roi_index valid rt mode idxs d roi d' roi' id :
  close_loop roi_index valid rt mode idxs d roi = Ok (d', roi') →
  (∀ i, i ∈ idxs → roi_index !! i ≠ Some id) → d' !! id = d !! id.
Proof.
  revert d roi. induction idxs as [|i idxs IH]; simpl; intros d roi H Hid.
  - by injection H as <- <-.
  - apply bind_Ok in H as (id' & Hid' & H).
    unfold getitem in Hid'. destruct (roi_index !! i) as [id2|] eqn:Ei; [|done].
    injection Hid' as ->.
    destruct (d !! id') as [t|] eqn:Et; [|done].
    apply bind_Ok in H as (v & _ & H). apply bind_Ok in H as (roi1 & _ & H).
    rewrite (IH _ _ H) by (intros i2 Hi2; apply Hid; by right).
    apply lookup_delete_ne. intros ->. by apply (Hid i); [left|].
Qed.

Lemma select_lookup3 {A B C} (m : list bool) (a : list A) (b : list B)
    (c : list C) j x y z :
  length a = length b → length b = length c →
  select m a !! j = Some x → select m b !! j = Some y →
  select m c !! j = Some z →
  ∃ i, m !! i = Some true ∧ a !! i = Some x ∧ b !! i = Some y ∧ c !! i = Some z.
Proof.
  revert a b c j. induction m as [|k m IH]; intros [|a0 a] [|b0 b] [|c0 c] j;
    simpl; try done.
  intros [= La] [= Lb]. destruct k.
  - destruct j as [|j]; simpl.
    + intros [= <-] [= <-] [= <-]. by exists 0.
    + intros Ha Hb Hc. destruct (IH _ _ _ _ La Lb Ha Hb Hc) as (i & ?).
      by exists (S i).
  - intros Ha Hb Hc. destruct (IH _ _ _ _ La Lb Ha Hb Hc) as (i & ?).
    by exists (S i).
Qed.

Lemma mask_fill_elem_of {A} (m : list bool) (a vals : list A) (y : A) :
  y ∈ mask_fill m a vals → y ∈ a ∨ y ∈ vals.
Proof.
  revert a vals. induction m as [|b m IH]; intros [|x a] vals; simpl;
    try (by left).
  destruct b; [destruct vals as [|v vals]|].
  - intros [->|H]%elem_of_cons; [left; by left|].
    destruct (IH _ _ H) as [?|?]; [left; by right|by right].
  - intros [->|H]%elem_of_cons; [right; by left|].
    destruct (IH _ _ H) as [?|?]; [left; by right|right; by right].
  - intros [->|H]%elem_of_cons; [left; by left|].
    destruct (IH _ _ H) as [?|?]; [left; by right|by right].
Qed.

Lemma mask_fill_NoDup {A} (m : list bool) (a vals : list A) :
  NoDup a → NoDup vals → (∀ x, x ∈ vals → x ∉ a) →
  NoDup (mask_fill m a vals).
Proof.
  revert a vals. induction m as [|b m IH]; intros [|x a] vals Ha Hv Hd; simpl;
    try done.
  apply NoDup_cons in Ha as [Hx Ha].
  assert (∀ vals' : list A,
            (∀ y, y ∈ vals' → y ∈ vals) → ∀ y, y ∈ vals' → y ∉ a) as Hd'.
  { intros vals' Hsub y Hy Hya. apply (Hd y); [by apply Hsub|by right]. }
  destruct b; [destruct vals as [|v vals]|].
  - apply NoDup_cons. split;
      [|apply IH; [done|constructor|by intros ? ?%elem_of_nil]].
    intros [?|?%elem_of_nil]%mask_fill_elem_of; done.
  - apply NoDup_cons in Hv as [Hv Hvs]. apply NoDup_cons. split.
    + intros [Hva|Hvv]%mask_fill_elem_of; [|done].
      apply (Hd v); [by left|by right].
    + apply IH; [done..|]. apply Hd'. intros y Hy. by right.
  - apply NoDup_cons. split; [|apply IH; [done..|by apply Hd']].
    intros [?|Hxv]%mask_fill_elem_of; [done|].
    apply (Hd x); [done|by left].
Qed.

Lemma append_to_roi_consistent self rt targeted self' :
  consistent self → append_to_roi self rt targeted = Ok self' →
  consistent self'.
Proof.
  intros ((S1 & S2 & S3 & S4 & S5) & Hnd & Hok) H.
  assert (length (is_completed self) = length (self_roi_index self)) as Lc.
  { unfold is_completed. rewrite length_fmap. lia. }
  assert (∀ i id, self_roi_index self !! i = Some id →
            is_completed self !! i = Some false →
            ∀ i', i' ∈ np_where (is_completed self) →
                  self_roi_index self !! i' ≠ Some id) as Hkeep.
  { intros i id Hid Hc i' Hi'%np_where_lookup Hid'.
    assert (i' = i) as -> by by eapply (NoDup_lookup (self_roi_index self)).
    congruence. }
  destruct targeted.
  - apply append_to_roi_targeted_inv in H
      as (d & roi & mx & _ & Hloop & _ & _ & Hmx & ->).
    cbv zeta. set (new := (λ i, (mx + 1 + Z.of_nat i)%Z) <$> _).
    assert (∀ x, x ∈ new → x ∉ self_roi_index self) as Hfresh.
    { intros x (k & -> & _)%list_elem_of_fmap Hold.
      apply np_max_Ok in Hmx as [_ Hmx]. specialize (Hmx _ Hold). lia. }
    assert (NoDup new) as Hnew.
    { unfold new. apply NoDup_fmap_2; [|apply NoDup_seq].
      intros x y Hxy. lia. }
    unfold consistent, consistent_upto, slots; simpl.
    rewrite mask_fill_length, !length_zip_with.
    split; [repeat split; lia|]. split; [by apply mask_fill_NoDup|].
    intros i id l x Hid Hl Hx.
    apply lookup_zip_with_Some in Hl as (b & l0 & -> & Hb & Hl0).
    apply lookup_zip_with_Some in Hx as (b' & x0 & -> & Hb' & Hx0).
    assert (b' = b) as -> by congruence.
    destruct b.
    + destruct (mask_fill_lookup_true (is_completed self)
        (self_roi_index self) new i) as (v & Hv & Hin);
        [done|by unfold new; rewrite length_fmap, length_seq|done|].
      assert (v = id) as -> by congruence.
      exists make_empty_temp_roi. split.
      * apply fresh_table_lookup. by right.
      * unfold trace_ok; simpl. repeat split; try done; try constructor.
        done.
    + rewrite mask_fill_lookup_false in Hid by done.
      destruct (Hok _ _ _ _ Hid Hl0 Hx0) as (t & Ht & Htok).
      exists t. split; [|done].
      rewrite fresh_table_lookup_other.
      * rewrite (close_loop_kept _ _ _ _ _ _ _ _ _ id Hloop); [done|].
        by eapply Hkeep.
      * intros Hin. apply (Hfresh _ Hin). apply list_elem_of_lookup.
        by exists i.
  - apply append_to_roi_untargeted_inv in H
      as (d & roi & _ & Hloop & L1 & L2 & L3 & ->).
    cbv zeta in *. set (keep := negb <$> is_completed self) in *.
    unfold consistent, consistent_upto, slots; simpl.
    rewrite !select_length by lia.
    split; [done|]. split.
    { exact (sublist_NoDup _ _ Hnd (select_sublist _ _)). }
    intros j id l x Hid Hl Hx.
    destruct (select_lookup3 keep (self_roi_index self) (self_length self)
                (self_max_intensity self) _ _ _ _ ltac:(lia) ltac:(lia)
                Hid Hl Hx) as (i & Hk & Hid0 & Hl0 & Hx0).
    destruct (Hok _ _ _ _ Hid0 Hl0 Hx0) as (t & Ht & Htok).
    exists t. split; [|done].
    rewrite (close_loop_kept _ _ _ _ _ _ _ _ _ id Hloop); [done|].
    eapply Hkeep; [done|].
    unfold keep in Hk. rewrite list_lookup_fmap in Hk.
    destruct (is_completed self !! i) as [[]|]; simpl in Hk; by try done.
Qed.

Lemma flag_as_completed_consistent self :
  consistent self → consistent (flag_as_completed self).
Proof.
  intros ((S1 & S2 & S3 & S4 & S5) & Hnd & Hok).
  unfold consistent, consistent_upto, slots; simpl.
  rewrite length_fmap. done.
Qed.

(** ** Validity of the finished ROIs *)

Lemma tmp_roi_to_roi_inv tmp_roi rt mode r :
  tmp_roi_to_roi tmp_roi rt mode = Ok r →
  valid_mode mode ∧
  ∃ first lst, head (t_scan tmp_roi) = Some first ∧
               last (t_scan tmp_roi) = Some lst.
Proof.
  unfold tmp_roi_to_roi. intros H.
  apply bind_Ok in H as (first & Hf & H). apply bind_Ok in H as (lst & Hl & H).
  apply bind_Ok in H as (x1 & _ & H). apply bind_Ok in H as (x2 & _ & H).
  apply bind_Ok in H as (x3 & _ & H). split.
  - unfold Roi_init in H. destruct mode as [m|]; [|done]. simpl.
    by case_decide.
  - exists first, lst. unfold getitem in Hf, Hl.
    rewrite head_lookup, last_lookup.
    replace (pred (length (t_scan tmp_roi)))
      with (length (t_scan tmp_roi) - 1) by lia.
    destruct (t_scan tmp_roi !! 0); [|done].
    destruct (t_scan tmp_roi !! (length (t_scan tmp_roi) - 1)); [|done].
    by injection Hf as ->; injection Hl as ->.
Qed.

Lemma recorded_sparse (k : nat) (a : list (option Q)) (os : list nat)
    (vs : list Q) :
  StronglySorted lt os → Forall (λ o, k ≤ o) os → length vs = length os →
  (∀ i o v, os !! i = Some o → vs !! i = Some v →
            a !! (o - k) = Some (Some v)) →
  (∀ o, k ≤ o < k + length a → o ∉ os → a !! (o - k) = Some None) →
  recorded a = vs.
Proof.
  revert k os vs.
  induction a as [|h a IH]; intros k os vs Hs Hk Hlen Hin Hgap.
  - destruct os as [|o os]; destruct vs as [|v vs]; try done.
    by specialize (Hin 0 o v eq_refl eq_refl).
  - destruct os as [|o os]; destruct vs as [|v vs]; try done.
    + assert (h = None) as ->.
      { specialize (Hgap k). rewrite Nat.sub_diag in Hgap. simpl in Hgap.
        assert (Some h = Some None) as [= ->]; [|done].
        apply Hgap; [lia|]. apply not_elem_of_nil. }
      change (recorded (None :: a)) with (recorded a).
      apply (IH (S k) [] []); [constructor|constructor|done|done|].
      intros o Ho _. specialize (Hgap o).
      replace (o - k) with (S (o - S k)) in Hgap by lia.
      apply Hgap; [simpl; lia|apply not_elem_of_nil].
    + apply StronglySorted_cons in Hs as [Hall Hs].
      apply Forall_cons in Hk as [Hko Hk].
      destruct (decide (o = k)) as [->|Hne].
      * assert (h = Some v) as ->.
        { specialize (Hin 0 k v eq_refl eq_refl).
          rewrite Nat.sub_diag in Hin. simpl in Hin. congruence. }
        change (recorded (Some v :: a)) with (v :: recorded a). f_equal.
        apply (IH (S k) os vs); [done| | | |].
        -- eapply Forall_impl; [exact Hall|]. simpl. lia.
        -- by injection Hlen.
        -- intros i o v' Ho Hv.
           pose proof (proj1 (Forall_lookup _ _) Hall _ _ Ho) as Hlt.
           simpl in Hlt. specialize (Hin (S i) o v' Ho Hv).
           by replace (o - k) with (S (o - S k)) in Hin by lia.
        -- intros o Ho Hnot. specialize (Hgap o).
           replace (o - k) with (S (o - S k)) in Hgap by lia.
           apply Hgap; [simpl; lia|].
           apply not_elem_of_cons. split; [lia|done].
      * assert (h = None) as ->.
        { specialize (Hgap k). rewrite Nat.sub_diag in Hgap. simpl in Hgap.
          assert (Some h = Some None) as [= ->]; [|done].
          apply Hgap; [lia|]. apply not_elem_of_cons. split; [lia|].
          intros Hel. pose proof (proj1 (Forall_forall _ _) Hall _ Hel).
          simpl in *. lia. }
        change (recorded (None :: a)) with (recorded a).
        apply (IH (S k) (o :: os) (v :: vs)); [| |done| |].
        -- by apply StronglySorted_cons.
        -- apply Forall_cons. split; [lia|].
           eapply Forall_impl; [exact Hall|]. simpl. lia.
        -- intros i o' v' Ho Hv.
           assert (k < o') as Hlt.
           { destruct i as [|i]; simpl in Ho; [injection Ho as <-; lia|].
             pose proof (proj1 (Forall_lookup _ _) Hall _ _ Ho). simpl in *.
             lia. }
           specialize (Hin i o' v' Ho Hv).
           by replace (o' - k) with (S (o' - S k)) in Hin by lia.
        -- intros o' Ho Hnot. specialize (Hgap o').
           replace (o' - k) with (S (o' - S k)) in Hgap by lia.
           apply Hgap; [simpl; lia|done].
Qed.

(** The dense array records the samples of the trace, in order. *)
Lemma recorded_dense first lst scan vals :
  StronglySorted lt scan → Forall (λ s, first ≤ s ≤ lst) scan →
  length vals = length scan →
  recorded (dense first lst scan vals) = vals.
Proof.
  intros Hs Hb Hlen. apply (recorded_sparse first _ scan); try done.
  - eapply Forall_impl; [exact Hb|]. simpl. lia.
  - intros i s v Hi Hv. by eapply dense_lookup_scan.
  - rewrite dense_length. intros o Ho Hnot.
    apply dense_lookup_gap; try done; try lia.
    by replace (first + (o - first)) with o by lia.
Qed.

Lemma emits_samples self rt ind r :
  consistent self → emits self rt ind r →
  ∃ id t len maxi,
    self_roi_index self !! ind = Some id ∧
    self_temp_roi_dict self !! id = Some t ∧
    self_length self !! ind = Some len ∧
    self_max_intensity self !! ind = Some maxi ∧
    (self_min_length self ≤ len)%Z ∧ (self_min_intensity self <= maxi)%Q ∧
    trace_ok (self_index self) t len maxi ∧ t_scan t ≠ [] ∧
    holds_samples r t.
Proof.
  intros (_ & _ & Hok)
    (missing & len & maxi & id & tmp_roi & _ & _ & Hlen & Hl & Hmaxi & Hm
     & Hid & Ht & Hr).
  destruct (Hok _ _ _ _ Hid Hlen Hmaxi) as (t & Ht' & Htok).
  assert (t = tmp_roi) as -> by congruence.
  exists id, tmp_roi, len, maxi. do 7 (split; [done|]).
  destruct Htok as (_ & Lmz & Lscan & Hsorted & _ & _).
  destruct (tmp_roi_to_roi_inv _ _ _ _ Hr) as (Hmode & first & lst & Hf & Hla).
  destruct (tmp_roi_to_roi_Ok _ rt _ _ _ Hf Hla Hsorted ltac:(lia) ltac:(lia)
              Hmode) as [m Heq].
  rewrite Heq in Hr. injection Hr as <-.
  pose proof (sorted_scan_bounds _ _ _ Hsorted Hf Hla) as Hb.
  split; [by destruct (t_scan tmp_roi)|].
  split; simpl; apply recorded_dense; try done; lia.
Qed.

Lemma emits_valid self rt ind r :
  consistent self → emits self rt ind r →
  roi_valid (self_min_length self) (self_min_intensity self) r.
Proof.
  intros Hc Hem.
  destruct (emits_samples _ _ _ _ Hc Hem)
    as (id & t & len & maxi & _ & _ & _ & _ & Hl & Hm & Htok & Hne
        & Hsp & _).
  destruct Htok as (-> & _ & Lscan & _ & _ & Hmax).
  unfold roi_valid. rewrite Hsp.
  split; [done|]. split.
  { intros E. rewrite E in Lscan. by destruct (t_scan t). }
  intros Hpos. destruct Hmax as [->|Hin].
  - destruct Hpos as [Hpos|Hpos].
    { exfalso. eapply Qlt_irrefl, Qlt_le_trans; [exact Hpos|exact Hm]. }
    destruct (t_sp t) as [|x sp] eqn:E.
    { by destruct (t_scan t). }
    exists x. split; [apply list_elem_of_here|].
    apply Forall_cons in Hpos as [Hx _]. by eapply Qle_trans.
  - by exists maxi.
Qed.

Lemma add_same_thresholds self mz sp targeted self' :
  add self mz sp targeted = Ok self' →
  same_thresholds self self' ∧ self_roi self' = self_roi self.
Proof.
  intros Hadd. apply add_inv in Hadd
    as (mi & mzm & spm & nm & snm & d & mean_m & len_m & max_m & len & nmiss
        & maxi & _ & _ & _ & _ & _ & _ & _ & _ & _ & _ & Hrest).
  cbv zeta in Hrest. destruct targeted.
  - by subst self'.
  - destruct Hrest as (mm & self2 & _ & Hext & ->).
    apply extend_inv in Hext
      as (? & ? & ? & ? & ? & ? & _ & _ & _ & _ & _ & _ & ->). done.
Qed.

Lemma append_to_roi_same_thresholds self rt targeted self' :
  append_to_roi self rt targeted = Ok self' → same_thresholds self self'.
Proof.
  destruct targeted; intros H.
  - apply append_to_roi_targeted_inv in H
      as (d & roi & mx & _ & _ & _ & _ & _ & ->). done.
  - apply append_to_roi_untargeted_inv in H
      as (d & roi & _ & _ & _ & _ & _ & ->). done.
Qed.

Lemma add_run_ok ml mi self mz sp targeted self' :
  run_ok ml mi self → add self mz sp targeted = Ok self' → run_ok ml mi self'.
Proof.
  intros (Hc & Hl & Hi & Hv) Hadd.
  destruct (add_same_thresholds _ _ _ _ _ Hadd) as [[E1 E2] E3].
  split; [by eapply add_consistent|]. split; [congruence|].
  split; [congruence|]. by rewrite E3.
Qed.

Lemma append_to_roi_run_ok ml mi self rt targeted self' :
  run_ok ml mi self → append_to_roi self rt targeted = Ok self' →
  run_ok ml mi self'.
Proof.
  intros (Hc & Hl & Hi & Hv) H.
  destruct (append_to_roi_same_thresholds _ _ _ _ H) as [E1 E2].
  destruct (append_to_roi_emits _ _ _ _ H) as (_ & emitted & Hroi & Hall).
  split; [by eapply append_to_roi_consistent|]. split; [congruence|].
  split; [congruence|]. rewrite Hroi. apply Forall_app. split; [done|].
  apply Forall_forall. intros r (j & Hj)%list_elem_of_lookup.
  destruct (Forall2_lookup_r _ _ _ _ _ Hall Hj) as (ind & _ & Hem).
  subst ml mi. by eapply emits_valid.
Qed.

Lemma scan_loop_run_ok ml mi msexp start targeted scans st st' :
  run_ok ml mi st.1 →
  scan_loop msexp start targeted st scans = Ok st' → run_ok ml mi st'.1.
Proof.
  revert st. induction scans as [|k scans IH]; simpl; intros st Hok H.
  - by injection H as <-.
  - apply bind_Ok in H as (st1 & H1 & H). apply (IH st1); [|done].
    destruct st as [p rt].
    apply scan_step_inv in H1
      as (sp & rt1 & p1 & p2 & _ & _ & Hadd & Hclose & _ & ->).
    simpl in *. eapply append_to_roi_run_ok; [|done].
    by eapply add_run_ok.
Qed.

(** X11: every ROI that [make_roi] returns records at least [min_length]
    samples (entries of [spint] that are not NaN), at least one in any
    case, and one of its recorded intensities is at least [min_intensity],
    provided that [min_intensity] is positive or that no recorded intensity
    is negative. *)
Lemma make_roi_valid msexp tolerance max_missing min_length min_intensity
    multiple_match targeted_mz start end_ mz_reduce sp_reduce mode rois :
  make_roi msexp tolerance max_missing min_length min_intensity multiple_match
    targeted_mz start end_ mz_reduce sp_reduce mode = Ok rois →
  Forall (roi_valid min_length min_intensity) rois.
Proof.
  unfold make_roi. intros H.
  apply bind_Ok in H as ([mz_seed targeted] & _ & H).
  apply bind_Ok in H as (rt & _ & H).
  apply bind_Ok in H as (p0 & Hinit & H).
  apply bind_Ok in H as ([p rt'] & Hloop & H).
  apply bind_Ok in H as (p' & Hflush & H). injection H as <-.
  assert (run_ok min_length min_intensity p0) as H0.
  { split; [by eapply init_consistent|].
    unfold RoiProcessor_init in Hinit. repeat case_decide; try done.
    injection Hinit as <-. simpl. repeat split. constructor. }
  pose proof (scan_loop_run_ok _ _ _ _ _ _ (p0, rt) _ H0 Hloop) as H1.
  simpl in H1.
  assert (run_ok min_length min_intensity (flag_as_completed p)) as H2.
  { destruct H1 as (Hc & Hl & Hi & Hv).
    split; [by apply flag_as_completed_consistent|done]. }
  by destruct (append_to_roi_run_ok _ _ _ _ _ _ H2 Hflush) as (_ & _ & _ & ?).
Qed.


(** ** The parameter helpers *)

Lemma increasing_Sorted l : increasing l = true → Sorted Qlt l.
Proof.
  induction l as [|x l IH]; [constructor|]. intros H.
  destruct l as [|y l]; [repeat constructor|].
  change (increasing (x :: y :: l))
    with (if Qlt_le_dec x y then increasing (y :: l) else false) in H.
  destruct (Qlt_le_dec x y); [|done].
  constructor; [by apply IH|by constructor].
Qed.

#[local] Instance Qlt_trans' : Transitive Qlt.
Proof. intros x y z. apply Qlt_trans. Qed.

Lemma not_in_pair (x a b : string) : x ≠ a → x ≠ b → x ∉ [a; b].
Proof. intros Ha Hb [->|[->|[]%elem_of_nil]%elem_of_cons]%elem_of_cons; done. Qed.

Lemma in_pair (x a b : string) : x ∈ [a; b] → x = a ∨ x = b.
Proof. intros [->|[->|[]%elem_of_nil]%elem_of_cons]%elem_of_cons; auto. Qed.

(** X1: [make_widths_lc] returns for the modes ["uplc"] and ["hplc"] only,
    and raises [ValueError] for every other one, as [get_lc_cwt_params]
    does.  The array it returns has 39 strictly increasing widths (the
    removed entry prevents a repetition), starts at 1 and ends at the
    [max_width] that [get_lc_cwt_params] gives for the same mode. *)
Theorem make_widths_lc_spec (mode : string) :
  match make_widths_lc mode with
  | Ok widths =>
      mode ∈ ["uplc"; "hplc"] ∧ length widths = 39 ∧
      StronglySorted Qlt widths ∧
      (∃ first, head widths = Some first ∧ (first == 1)%Q) ∧
      ∃ params max_width,
        get_lc_cwt_params mode = Ok params ∧
        params !! "max_width" = Some (PInt max_width) ∧
        last widths = Some (inject_Z max_width)
  | Raise e =>
      e = ValueError ∧ (mode ∉ ["uplc"; "hplc"]) ∧
      get_lc_cwt_params mode = Raise ValueError
  end.
Proof.
  unfold make_widths_lc, get_lc_cwt_params.
  destruct (decide (mode = "uplc")) as [->|H1].
  - cbn [mbind result_bind]. split; [apply list_elem_of_here|].
    split; [done|].
    split; [apply Sorted_StronglySorted; [apply _|];
            apply increasing_Sorted; by vm_compute|].
    split; [eexists; split; [done|by vm_compute]|].
    eexists _, 60%Z. split; [done|]. split; by vm_compute.
  - destruct (decide (mode = "hplc")) as [->|H2].
    + cbn [mbind result_bind].
      split; [apply list_elem_of_further, list_elem_of_here|]. split; [done|].
      split; [apply Sorted_StronglySorted; [apply _|];
              apply increasing_Sorted; by vm_compute|].
      split; [eexists; split; [done|by vm_compute]|].
      eexists _, 90%Z. split; [done|]. split; by vm_compute.
    + cbn [mbind result_bind]. split; [done|].
      split; [by apply not_in_pair|done].
Qed.

(** X2: every [Roi] that the constructor returns carries a mode for which
    the two lookups of [find_peaks], [get_lc_cwt_params] and
    [make_widths_lc], return. *)
Theorem Roi_mode_has_cwt_params spint mz rt first_scan mode (r : Roi) :
  Roi_init spint mz rt first_scan mode = Ok r →
  is_Ok (get_lc_cwt_params (roi_mode r)) ∧ is_Ok (make_widths_lc (roi_mode r)).
Proof.
  unfold Roi_init. intros H.
  assert (roi_mode r = "uplc" ∨ roi_mode r = "hplc") as Hm.
  { destruct mode as [m|].
    - case_decide as Hin; [|done]. injection H as <-. simpl. by apply in_pair.
    - injection H as <-. by left. }
  unfold get_lc_cwt_params, make_widths_lc, is_Ok.
  destruct Hm as [-> | ->]; split; by eexists.
Qed.

(** X3: [make_widths_ms] tests the mode ["qtof"] twice, so every other
    mode raises [ValueError]; hence [MSSpectrum.find_peaks] raises
    [ValueError], before the peak picker is called, for every mode but
    ["qtof"], also for ["orbitrap"], which the constructor and
    [get_ms_cwt_params] accept. *)
Theorem find_peaks_needs_qtof {Peak}
    (pick_cwt : list Q → list Q → list Q → kwargs → result (list Peak))
    (self : MSSpectrum Peak) (mode : string) (cwt_params : option kwargs) :
  mode ≠ "qtof" →
  MSSpectrum_find_peaks pick_cwt self mode cwt_params = Raise ValueError ∧
  make_widths_ms mode = Raise ValueError ∧
  (mode = "orbitrap" →
   is_Ok (get_ms_cwt_params mode) ∧
   ∀ mz spint, is_Ok (MSSpectrum_init (Peak:=Peak) mz spint (Some mode))).
Proof.
  intros Hm.
  assert (make_widths_ms mode = Raise ValueError) as Hw.
  { unfold make_widths_ms. by rewrite !decide_False by done. }
  split; [|split; [done|]].
  - unfold MSSpectrum_find_peaks. rewrite Hw.
    unfold get_ms_cwt_params. by repeat case_decide.
  - intros ->. split; [by eexists|]. intros mz spint. by eexists.
Qed.

(** X4: [get_roi_params] returns exactly for a separation in
    [uplc, hplc] and an instrument in [qtof, orbitrap], and raises
    [ValueError] otherwise.  The dictionary it returns has the six keyword
    arguments of [make_roi], with which the constructor of the engine
    accepts every one-dimensional seed, and a mode that the [Roi]
    constructor accepts. *)
Theorem get_roi_params_spec (separation instrument : string) :
  match get_roi_params separation instrument with
  | Ok params =>
      separation ∈ ["uplc"; "hplc"] ∧ instrument ∈ ["qtof"; "orbitrap"] ∧
      ∃ max_missing min_length tolerance,
        params = <["mode" := PStr separation]>
                   (<["tolerance" := PFloat tolerance]>
                   (<["min_length" := PInt min_length]>
                   (<["max_missing" := PInt max_missing]>
                   (<["multiple_match" := PStr "reduce"]>
                   (<["min_intensity" := PInt 500]> ∅))))) ∧
        (0 < tolerance)%Q ∧ (0 ≤ max_missing)%Z ∧ (0 < min_length)%Z ∧
        valid_mode (Some separation) ∧
        ∀ mz_seed mz_reduce sp_reduce,
          is_Ok (RoiProcessor_init (vector mz_seed) max_missing min_length
                   500 tolerance "reduce" mz_reduce sp_reduce
                   (Some separation))
  | Raise e =>
      e = ValueError ∧
      ((separation ∉ ["uplc"; "hplc"]) ∨ (instrument ∉ ["qtof"; "orbitrap"]))
  end.
Proof.
  assert (∀ max_missing min_length tolerance mz_seed mz_reduce sp_reduce mode,
            is_Ok (RoiProcessor_init (vector mz_seed) max_missing min_length
                     500 tolerance "reduce" mz_reduce sp_reduce mode)) as Hinit.
  { intros. unfold RoiProcessor_init. simpl. by eexists. }
  unfold get_roi_params.
  destruct (decide (separation = "uplc")) as [->|H1];
    [|destruct (decide (separation = "hplc")) as [->|H2]];
    cbn [mbind result_bind];
    try (split; [done|left; by apply not_in_pair]);
    (destruct (decide (instrument = "qtof")) as [->|H3];
     [|destruct (decide (instrument = "orbitrap")) as [->|H4]]);
    cbn [mbind result_bind];
    try (split; [done|right; by apply not_in_pair]).
  all: split; [first [apply list_elem_of_here
                     |apply list_elem_of_further, list_elem_of_here]|].
  all: split; [first [apply list_elem_of_here
                     |apply list_elem_of_further, list_elem_of_here]|].
  all: eexists 1%Z, _, _.
  all: split; [apply map_eq; intros k; by vm_compute|].
  all: split; [done|]. 
  all: split; [done|].
  all: split; [done|].
  all: split; [first [apply list_elem_of_here
                     |apply list_elem_of_further, list_elem_of_here]|].
  all: intros; apply Hinit.
Qed.

(** ** The feature labels *)

Lemma pad_length k fill s : String.length (pad k fill s) = k + String.length s.
Proof. induction k; simpl; congruence. Qed.

Lemma pad_inj k1 k2 s1 s2 :
  ¬ starts_with_zero s1 → ¬ starts_with_zero s2 →
  pad k1 "0"%char s1 = pad k2 "0"%char s2 → s1 = s2.
Proof.
  intros H1 H2. revert k2. induction k1 as [|k1 IH]; intros [|k2]; simpl.
  - done.
  - intros ->. by destruct H1.
  - intros <-. by destruct H2.
  - intros [= H]. by apply (IH k2).
Qed.

Lemma pretty_N_go_length x s :
  String.length (pretty_N_go x s)
  = String.length (pretty_N_go x "") + String.length s.
Proof.
  revert s. induction (N.lt_wf_0 x) as [x _ IH]. intros s.
  destruct (decide (x = 0%N)) as [->|Hx].
  - by rewrite !pretty_N_go_0.
  - rewrite (pretty_N_go_step x s), (pretty_N_go_step x "") by lia.
    assert (x `div` 10 < x)%N as Hlt by (apply N.div_lt; lia).
    rewrite (IH _ Hlt (String _ s)), (IH _ Hlt (String _ "")). simpl. lia.
Qed.

Lemma pretty_N_go_length_mono x y :
  (x ≤ y)%N →
  String.length (pretty_N_go x "") ≤ String.length (pretty_N_go y "").
Proof.
  revert x. induction (N.lt_wf_0 y) as [y _ IH]. intros x Hxy.
  destruct (decide (x = 0%N)) as [->|Hx].
  - rewrite pretty_N_go_0. simpl. lia.
  - rewrite (pretty_N_go_step x ""), (pretty_N_go_step y "") by lia.
    rewrite (pretty_N_go_length (x `div` 10)), (pretty_N_go_length (y `div` 10)).
    assert (y `div` 10 < y)%N as Hlt by (apply N.div_lt; lia).
    assert (x `div` 10 ≤ y `div` 10)%N as Hle by (apply N.Div0.div_le_mono; lia).
    pose proof (IH _ Hlt _ Hle). simpl. lia.
Qed.

Lemma pretty_N_char_zero d : (d < 10)%N → pretty_N_char d = "0"%char → d = 0%N.
Proof.
  intros Hd.
  assert (d = 0 ∨ d = 1 ∨ d = 2 ∨ d = 3 ∨ d = 4 ∨ d = 5 ∨ d = 6 ∨ d = 7
          ∨ d = 8 ∨ d = 9)%N as H by lia.
  repeat destruct H as [->|H]; try subst d; done.
Qed.

Lemma pretty_N_go_nonzero x s :
  (0 < x)%N → ¬ starts_with_zero (pretty_N_go x s).
Proof.
  revert s. induction (N.lt_wf_0 x) as [x _ IH]. intros s Hx.
  rewrite pretty_N_go_step by done.
  destruct (decide (x `div` 10 = 0)%N) as [H0|H0].
  - rewrite H0, pretty_N_go_0. simpl. intros Hc.
    apply pretty_N_char_zero in Hc; [|by apply N.mod_lt].
    pose proof (N.Div0.div_mod x 10). lia.
  - apply IH; [apply N.div_lt; lia|by apply N.neq_0_lt_0].
Qed.

Lemma py_str_unfold x :
  py_str x = if decide (x = 0) then "0" else pretty_N_go (N.of_nat x) "".
Proof.
  unfold py_str, pretty, pretty_nat, pretty, pretty_N. simpl.
  destruct (decide (x = 0)) as [->|Hx]; [done|]. by rewrite decide_False by lia.
Qed.

Lemma py_str_length_pos x : 0 < x → 1 ≤ String.length (py_str x).
Proof.
  intros Hx. rewrite py_str_unfold, decide_False by lia.
  pose proof (pretty_N_go_length_mono 1 (N.of_nat x)) as H1.
  rewrite (pretty_N_go_step 1) in H1 by lia.
  change (1 `div` 10)%N with 0%N in H1. rewrite pretty_N_go_0 in H1.
  simpl in H1. apply H1. lia.
Qed.

Lemma py_str_length_mono x y :
  x ≤ y → String.length (py_str x) ≤ String.length (py_str y).
Proof.
  intros H. destruct (decide (x = 0)) as [->|Hx].
  - destruct (decide (y = 0)) as [->|Hy]; [done|].
    change (String.length (py_str 0)) with 1. apply py_str_length_pos. lia.
  - rewrite !py_str_unfold, !decide_False by lia.
    apply pretty_N_go_length_mono. lia.
Qed.

Lemma py_str_nonzero x : 0 < x → ¬ starts_with_zero (py_str x).
Proof.
  intros H. rewrite py_str_unfold, decide_False by lia.
  apply pretty_N_go_nonzero. lia.
Qed.

(** X5: the labels that [detect_roi_peaks] gives to [n_features]
    features are pairwise distinct and all have the same width, the two
    letters FT followed by as many digits as [n_features] has. *)
Theorem feature_index_distinct (n_features : nat) :
  length (feature_index n_features) = n_features ∧
  NoDup (feature_index n_features) ∧
  Forall (λ s, String.length s = 2 + String.length (py_str n_features))
    (feature_index n_features).
Proof.
  unfold feature_index. cbv zeta. split; [by rewrite length_fmap, length_seq|].
  split.
  - apply NoDup_fmap_2_strong; [|apply NoDup_seq].
    intros x y _ _ H. unfold ft_formatter, rjust in H.
    injection H as H.
    apply pad_inj in H; [|apply py_str_nonzero; lia..].
    apply (inj pretty) in H. lia.
  - apply Forall_fmap, Forall_forall. intros x Hx%elem_of_seq.
    unfold ft_formatter, rjust, compose.
    change (String.length ("FT" +:+ ?s)) with (S (S (String.length s))).
    rewrite pad_length.
    pose proof (py_str_length_mono (x + 1) n_features). lia.
Qed.

(** ** The isotopic distributions *)

Lemma np_where_fmap_lookup {A} (P : A → bool) (l : list A) (j : nat) :
  j ∈ np_where (P <$> l) → ∃ x, l !! j = Some x ∧ P x = true.
Proof.
  intros H%np_where_lookup. rewrite list_lookup_fmap in H.
  destruct (l !! j) as [x|]; [|done]. injection H as H. by exists x.
Qed.

(** X6: every index that [find_isotopic_distribution_aux] returns is a
    position of the peak list whose m/z lies within [tol] of the
    theoretical mass of one of the [n_isotopes] isotopes, counted from a
    monoisotopic peak that lies within [tol] of the mass asked for; at most
    [n_isotopes] indices are returned. *)
Theorem isotopes_within_tolerance (closest : list Q → Q → nat)
    (mz : list Q) (mz_ft : Q) (q n_isotopes : Z) (tol : Q)
    (match_ind : list nat) :
  q ≠ 0%Z →
  find_isotopic_distribution_aux closest mz mz_ft q n_isotopes tol
  = Ok match_ind →
  length match_ind ≤ Z.to_nat n_isotopes ∧
  ∃ mz_mono,
    mz !! closest mz mz_ft = Some mz_mono ∧
    (match_ind ≠ [] → (Qabs (mz_mono - mz_ft) <= tol)%Q) ∧
    ∀ i, i ∈ match_ind →
      ∃ x k, mz !! i = Some x ∧ (Z.of_nat k < n_isotopes)%Z ∧
             i = closest mz (isotope_mass mz_mono q k) ∧
             (Qabs (x - isotope_mass mz_mono q k) <= tol)%Q.
Proof.
  intros _ H. unfold find_isotopic_distribution_aux in H.
  apply bind_Ok in H as (mz_mono & Hmono & H).
  assert (mz !! closest mz mz_ft = Some mz_mono) as Hm.
  { unfold getitem in Hmono. destruct (mz !! _); [|done]. by injection Hmono as ->. }
  destruct (Qlt_le_dec tol (Qabs (mz_mono - mz_ft))) as [Hfar|Hnear].
  { injection H as <-. split; [simpl; lia|]. exists mz_mono.
    split; [done|]. split; [done|]. intros i Hi. by apply elem_of_nil in Hi. }
  cbv zeta in H. fold (isotope_mass mz_mono q) in H.
  set (th := isotope_mass mz_mono q <$> seq 0 (Z.to_nat n_isotopes)) in *.
  apply bind_Ok in H as (mzc & Hc & H). apply bind_Ok in H as (d & Hd & H).
  apply np_zip_Ok in Hd as [Ld ->].
  pose proof (np_take_length _ _ _ H) as Lr.
  assert (length th = Z.to_nat n_isotopes) as Lth.
  { unfold th. by rewrite length_fmap, length_seq. }
  split.
  - rewrite Lr. unfold np_where.
    etrans; [apply length_select_le|].
    rewrite length_seq, length_fmap, length_zip_with.
    rewrite <-Lth. lia.
  - exists mz_mono. split; [done|]. split; [done|].
    intros i (t & Ht)%list_elem_of_lookup.
    assert (∃ j, np_where ((λ x, Qle_bool x tol)
                  <$> zip_with (λ a b, Qabs (a - b)) mzc th) !! t = Some j)
      as [j Hj].
    { apply lookup_lt_is_Some. rewrite <-Lr. by eapply lookup_lt_Some. }
    destruct (np_take_lookup _ _ _ _ _ H Hj) as [Hi _]. rewrite Ht in Hi.
    symmetry in Hi. rewrite list_lookup_fmap in Hi.
    destruct (th !! j) as [m|] eqn:Em; [|done]. injection Hi as Hi.
    assert (j ∈ np_where ((λ x, Qle_bool x tol)
                  <$> zip_with (λ a b, Qabs (a - b)) mzc th)) as Hin.
    { apply list_elem_of_lookup. by exists t. }
    apply np_where_fmap_lookup in Hin as (dj & Hdj & Hle).
    apply lookup_zip_with_Some in Hdj as (a & b & -> & Ha & Hb).
    rewrite Em in Hb. injection Hb as <-.
    assert ((closest mz <$> th) !! j = Some i) as Hcj.
    { rewrite list_lookup_fmap, Em. simpl. by rewrite Hi. }
    destruct (np_take_lookup _ _ _ _ _ Hc Hcj) as [Hx _].
    rewrite Ha in Hx. symmetry in Hx.
    unfold th in Em. rewrite list_lookup_fmap in Em.
    destruct (seq 0 (Z.to_nat n_isotopes) !! j) as [k|] eqn:Ek; [|done].
    injection Em as <-. apply lookup_seq in Ek as [-> Hk].
    exists a, j. split; [done|]. split; [lia|]. split; [done|].
    by apply Qle_bool_iff.
Qed.

Lemma StronglySorted_lt_seq (a n : nat) : StronglySorted lt (seq a n).
Proof.
  revert a. induction n as [|n IH]; intros a; simpl; constructor; [done|].
  apply Forall_forall. intros x Hx%elem_of_seq. lia.
Qed.

Lemma charge_loop_spec closest mz mz_mono n_isotopes tol charges best0 best :
  charge_loop closest mz mz_mono n_isotopes tol charges best0 0 = Ok best →
  (best = best0 ∧
   ∀ q, q ∈ charges →
     find_isotopic_distribution_aux closest mz mz_mono q n_isotopes tol
     = Ok []) ∨
  (∃ pre q post, charges = pre ++ q :: post ∧ best ≠ [] ∧
     find_isotopic_distribution_aux closest mz mz_mono q n_isotopes tol
     = Ok best ∧
     ∀ q', q' ∈ post →
       find_isotopic_distribution_aux closest mz mz_mono q' n_isotopes tol
       = Ok []).
Proof.
  revert best0. induction charges as [|q rest IH]; simpl; intros best0 H.
  - injection H as <-. left. split; [done|]. intros q Hq.
    by apply elem_of_nil in Hq.
  - apply bind_Ok in H as (tmp & Htmp & H).
    destruct (IH _ H) as [[-> Hall]|(pre & q1 & post & -> & Hne & Hq1 & Hpost)].
    + destruct tmp as [|i tmp].
      * left. split; [done|].
        intros q' [->|Hq']%elem_of_cons; [done|by apply Hall].
      * right. exists [], q, rest. rewrite decide_True by (simpl; lia). done.
    + right. exists (q :: pre), q1, post. done.
Qed.

(** X7: [find_isotopic_distribution] never updates its peak count, so it
    returns the distribution of the largest charge state up to [q_max]
    for which [find_isotopic_distribution_aux] finds a peak, whatever the
    number of isotopes found for the smaller charges; it returns the empty
    array when no charge state finds one, in particular when [q_max] is
    not positive. *)
Theorem largest_charge_wins (closest : list Q → Q → nat)
    (mz : list Q) (mz_mono : Q) (q_max n_isotopes : Z) (tol : Q)
    (best_peaks : list nat) :
  find_isotopic_distribution closest mz mz_mono q_max n_isotopes tol
  = Ok best_peaks →
  ((q_max ≤ 0)%Z → best_peaks = []) ∧
  ((best_peaks = [] ∧
    ∀ q, (1 ≤ q ≤ q_max)%Z →
      find_isotopic_distribution_aux closest mz mz_mono q n_isotopes tol
      = Ok []) ∨
   (∃ q, (1 ≤ q ≤ q_max)%Z ∧ best_peaks ≠ [] ∧
      find_isotopic_distribution_aux closest mz mz_mono q n_isotopes tol
      = Ok best_peaks ∧
      ∀ q', (q < q' ≤ q_max)%Z →
        find_isotopic_distribution_aux closest mz mz_mono q' n_isotopes tol
        = Ok [])).
Proof.
  unfold find_isotopic_distribution, charges_upto. intros H.
  split.
  { intros Hq. replace (Z.to_nat q_max) with 0 in H by lia.
    simpl in H. by injection H as <-. }
  assert (∀ q, q ∈ charges_upto q_max ↔ (1 ≤ q ≤ q_max)%Z) as Hmem.
  { intros q. unfold charges_upto. rewrite list_elem_of_fmap. split.
    - intros (i & -> & Hi%elem_of_seq). lia.
    - intros Hq. exists (Z.to_nat (q - 1)). split; [lia|].
      apply elem_of_seq. lia. }
  destruct (charge_loop_spec _ _ _ _ _ _ _ _ H)
    as [[-> Hall]|(pre & q & post & Heq & Hne & Hq & Hpost)].
  - left. split; [done|]. intros q Hq. by apply Hall, Hmem.
  - right. exists q. fold (charges_upto q_max) in Heq.
    assert (q ∈ charges_upto q_max) as Hin.
    { rewrite Heq. apply elem_of_app. right. apply list_elem_of_here. }
    split; [by apply Hmem|]. split; [done|]. split; [done|].
    intros q' Hq'. apply Hpost.
    pose proof (proj1 (Hmem q) Hin) as Hq1.
    assert (q' ∈ charges_upto q_max) as Hin' by (apply Hmem; lia).
    rewrite Heq in Hin'. apply elem_of_app in Hin' as [Hin'|Hin'].
    + exfalso.
      assert (StronglySorted Z.lt (charges_upto q_max)) as Hs.
      { unfold charges_upto. apply StronglySorted_fmap with (R1 := lt).
        - intros ???. lia.
        - apply StronglySorted_lt_seq. }
      rewrite Heq in Hs.
      pose proof (StronglySorted_app_1_elem_of _ _ _ _ _ Hs Hin'
                    (list_elem_of_here _ _)). lia.
    + apply elem_of_cons in Hin' as [->|Hin']; [lia|done].
Qed.

(** ** The extracted ion chromatograms *)

Lemma evens_cons2 {A} (x y : A) (l : list A) :
  evens (x :: y :: l) = x :: evens l.
Proof. done. Qed.

Lemma odds_cons2 {A} (x y : A) (l : list A) : odds (x :: y :: l) = y :: odds l.
Proof. unfold odds. by destruct l. Qed.

Lemma evens_pairs {A B} (f g : A → B) (l : list A) :
  evens (mjoin ((λ x, [f x; g x]) <$> l)) = f <$> l.
Proof.
  induction l as [|x l IH]; [done|].
  change (evens (f x :: g x :: mjoin ((λ x, [f x; g x]) <$> l)) = f x :: (f <$> l)).
  by rewrite evens_cons2, IH.
Qed.

Lemma odds_pairs {A B} (f g : A → B) (l : list A) :
  odds (mjoin ((λ x, [f x; g x]) <$> l)) = g <$> l.
Proof.
  induction l as [|x l IH]; [done|].
  change (odds (f x :: g x :: mjoin ((λ x, [f x; g x]) <$> l)) = g x :: (g <$> l)).
  by rewrite odds_cons2, IH.
Qed.

Lemma fmap_pairs {A B C} (h : B → C) (f g : A → B) (l : list A) :
  h <$> mjoin ((λ x, [f x; g x]) <$> l)
  = mjoin ((λ x, [h (f x); h (g x)]) <$> l).
Proof.
  induction l as [|x l IH]; [done|].
  change (h (f x) :: h (g x) :: (h <$> mjoin ((λ x, [f x; g x]) <$> l))
          = h (f x) :: h (g x) :: mjoin ((λ x, [h (f x); h (g x)]) <$> l)).
  by rewrite IH.
Qed.

Lemma reduceat_entry_in_range (a : list Q) (l r : nat) :
  l < length a →
  reduceat_entry a (Z.of_nat l) (Some (Z.of_nat r)) = Ok (pair_sum a l r).
Proof.
  intros Hl. unfold reduceat_entry, pair_sum.
  rewrite decide_True by lia. rewrite !Nat2Z.id.
  destruct (decide (l < r)).
  - by rewrite decide_True by lia.
  - rewrite decide_False by lia. by apply getitem_in_range.
Qed.

Lemma reduceat_entry_Ok (a : list Q) (i : Z) (next : option Z) :
  (0 ≤ i < Z.of_nat (length a))%Z → is_Ok (reduceat_entry a i next).
Proof.
  intros Hi. unfold reduceat_entry. rewrite decide_True by done.
  destruct next as [j|]; [|by eexists].
  destruct (decide (i < j)%Z); [by eexists|].
  unfold getitem. destruct (a !! Z.to_nat i) eqn:E; [by eexists|].
  apply lookup_ge_None in E. lia.
Qed.

Lemma reduceat_pairs {A} (a : list Q) (f g : A → nat) (xs : list A) :
  Forall (λ x, f x < length a ∧ g x < length a) xs →
  ∃ sums,
    np_add_reduceat a (mjoin ((λ x, [Z.of_nat (f x); Z.of_nat (g x)]) <$> xs))
    = Ok sums ∧
    evens sums = (λ x, pair_sum a (f x) (g x)) <$> xs.
Proof.
  induction 1 as [|x xs [Hf Hg] _ (sums & IH1 & IH2)]; [by exists []|].
  change (mjoin ((λ x, [Z.of_nat (f x); Z.of_nat (g x)]) <$> (x :: xs)))
    with (Z.of_nat (f x) :: Z.of_nat (g x)
          :: mjoin ((λ x, [Z.of_nat (f x); Z.of_nat (g x)]) <$> xs)).
  destruct (reduceat_entry_Ok a (Z.of_nat (g x))
              (head (mjoin ((λ x, [Z.of_nat (f x); Z.of_nat (g x)]) <$> xs))))
    as [y Hy]; [lia|].
  exists (pair_sum a (f x) (g x) :: y :: sums). split.
  - cbn [np_add_reduceat head].
    rewrite reduceat_entry_in_range by done. rewrite bind_Ok_l.
    rewrite Hy, bind_Ok_l, IH1. done.
  - by rewrite evens_cons2, IH2.
Qed.

Lemma np_add_reduceat_error (a : list Q) (ind : list Z) (e : exn) :
  np_add_reduceat a ind = Raise e → e = IndexError.
Proof.
  revert e. induction ind as [|i ind IH]; intros e; [done|]. simpl.
  intros [H|(x & _ & H)]%bind_Raise.
  - unfold reduceat_entry in H. case_decide; [|congruence].
    destruct (head ind); [|done]. case_decide; [done|].
    unfold getitem in H. destruct (a !! _); [done|congruence].
  - apply bind_Raise in H as [H|(xs & _ & H)]; [by apply IH|done].
Qed.

Lemma clamp_Z (size i : nat) :
  0 < size →
  (if decide (Z.of_nat size ≤ Z.of_nat i)%Z then (Z.of_nat size - 1)%Z
   else Z.of_nat i) = Z.of_nat (clamp size i).
Proof.
  intros Hs. unfold clamp.
  destruct (decide (size ≤ i)).
  - rewrite decide_True by lia. lia.
  - by rewrite decide_False by lia.
Qed.

Lemma clamp_lt (size i : nat) : 0 < size → clamp size i < size.
Proof. intros Hs. unfold clamp. case_decide; lia. Qed.

Lemma zip_with_fmap_same {A B C D} (h : B → C → D) (f : A → B) (g : A → C)
    (l : list A) :
  zip_with h (f <$> l) (g <$> l) = (λ x, h (f x) (g x)) <$> l.
Proof. induction l as [|x l IH]; [done|]. simpl. by f_equal. Qed.

Lemma chromatogram_step_sum msexp mz window rt eic k sp :
  msexp !! k = Some sp → k < length rt → k < length eic →
  peaks_spint sp ≠ [] ∨ mz = [] →
  chromatogram_step msexp (intervals mz window) "sum" (rt, eic) k
  = Ok (<[k := getRT sp]> rt,
        <[k := (λ m, eic_entry sp (m - window) (m + window)) <$> mz]> eic).
Proof.
  intros Hsp Hrt Heic Hne. unfold chromatogram_step, getSpectrum, getitem.
  rewrite Hsp, bind_Ok_l. unfold setitem.
  rewrite (decide_True (P := k < length rt)), bind_Ok_l by done.
  unfold np_searchsorted, intervals. cbv zeta.
  destruct Hne as [Hne| ->].
  - assert (0 < length (peaks_spint sp)) as Hsize.
    { destruct (peaks_spint sp); [done|simpl; lia]. }
    set (size := length (peaks_spint sp)) in *.
    set (L := λ m : Q, searchsorted (peaks_mz sp) (m - window)).
    set (R := λ m : Q, searchsorted (peaks_mz sp) (m + window)).
    rewrite (fmap_pairs (λ q, Z.of_nat (searchsorted (peaks_mz sp) q))
               (λ m, (m - window)%Q) (λ m, (m + window)%Q)).
    rewrite (fmap_pairs
               (λ i, if decide (Z.of_nat size ≤ i)%Z then (Z.of_nat size - 1)%Z
                     else i)).
    rewrite (evens_pairs (λ m, Z.of_nat (L m)) (λ m, Z.of_nat (R m))).
    rewrite (odds_pairs (λ m, Z.of_nat (L m)) (λ m, Z.of_nat (R m))).
    rewrite (list_fmap_ext _
               (λ m, [Z.of_nat (clamp size (L m)); Z.of_nat (clamp size (R m))])
               mz) by (intros _ m _; by rewrite !clamp_Z).
    destruct (reduceat_pairs (peaks_spint sp) (λ m, clamp size (L m))
                (λ m, clamp size (R m)) mz) as (sums & -> & Hev).
    { apply Forall_forall. intros m _. split; by apply clamp_lt. }
    rewrite bind_Ok_l, Hev.
    rewrite (evens_pairs (λ m, Z.of_nat (clamp size (L m)))).
    rewrite zip_with_fmap_same, zip_with_fmap_same.
    rewrite (decide_True (P := k < length eic)), bind_Ok_l by done.
    rewrite (decide_False (P := "sum" = "mean")) by done.
    rewrite (decide_True (P := "sum" = "sum")) by done.
    do 3 f_equal. apply list_fmap_ext. intros _ m _.
    unfold eic_entry, pair_sum. fold size. fold (L m) (R m).
    destruct (decide (L m < R m)).
    + by rewrite bool_decide_eq_true_2 by lia.
    + by rewrite bool_decide_eq_false_2 by lia.
  - simpl. by rewrite (decide_True (P := k < length eic)) by done.
Qed.

Lemma chromatogram_loop_sum msexp mz window n a rt eic :
  a + n ≤ length msexp → a + n ≤ length rt → a + n ≤ length eic →
  (mz = [] ∨ ∀ k sp, a ≤ k < a + n → msexp !! k = Some sp → peaks_spint sp ≠ []) →
  ∃ rt' eic',
    chromatogram_loop msexp (intervals mz window) "sum" (rt, eic) (seq a n)
    = Ok (rt', eic') ∧
    length rt' = length rt ∧ length eic' = length eic ∧
    ∀ k, (a ≤ k < a + n →
            rt' !! k = getRT <$> msexp !! k ∧
            eic' !! k = eic_column mz window <$> msexp !! k) ∧
         (¬ a ≤ k < a + n → rt' !! k = rt !! k ∧ eic' !! k = eic !! k).
Proof.
  revert a rt eic. induction n as [|n IH]; intros a rt eic Hm Hrt Heic Hne.
  - exists rt, eic. simpl. repeat split; try done; lia.
  - destruct (lookup_lt_is_Some_2 msexp a) as [sp Hsp]; [lia|].
    cbn [seq chromatogram_loop].
    rewrite (chromatogram_step_sum _ _ _ _ _ _ sp Hsp) by
      first [lia | destruct Hne as [->|Hne]; [by right|left; eapply Hne; [|done]; lia]].
    rewrite bind_Ok_l.
    destruct (IH (S a) (<[a := getRT sp]> rt)
                (<[a := eic_column mz window sp]> eic))
      as (rt' & eic' & Hloop & Lrt & Leic & Hk).
    { lia. } { rewrite length_insert. lia. } { rewrite length_insert. lia. }
    { destruct Hne as [->|Hne]; [by left|right]. intros k sp' Hk. apply Hne. lia. }
    exists rt', eic'. split; [exact Hloop|].
    rewrite length_insert in Lrt. rewrite length_insert in Leic.
    split; [done|]. split; [done|].
    intros k. destruct (Hk k) as [Hin Hout]. split.
    + intros Hr. destruct (decide (k = a)) as [->|Hka].
      * destruct Hout as [-> ->]; [lia|].
        rewrite !list_lookup_insert_eq by lia. by rewrite Hsp.
      * apply Hin. lia.
    + intros Hr. destruct Hout as [-> ->]; [lia|].
      rewrite !list_lookup_insert_ne by lia. done.
Qed.

Lemma searchsorted_lt_length (x : list Q) (q p : Q) :
  p ∈ x → (q <= p)%Q → searchsorted x q < length x.
Proof.
  induction x as [|a x IH]; intros Hp Hq; [by apply elem_of_nil in Hp|].
  simpl. destruct (Qlt_le_dec a q) as [Ha|Ha]; [|lia].
  apply elem_of_cons in Hp as [->|Hp].
  - exfalso. exact (Qlt_not_le _ _ Ha Hq).
  - specialize (IH Hp Hq). lia.
Qed.

Lemma searchsorted_le_index (x : list Q) (q p : Q) (i : nat) :
  x !! i = Some p → (q <= p)%Q → searchsorted x q ≤ i.
Proof.
  revert i. induction x as [|a x IH]; intros i Hp Hq; [done|].
  simpl. destruct (Qlt_le_dec a q) as [Ha|Ha]; [|lia].
  destruct i as [|i]; simpl in Hp.
  - injection Hp as ->. exfalso. exact (Qlt_not_le _ _ Ha Hq).
  - specialize (IH i Hp Hq). lia.
Qed.

Lemma searchsorted_all_below (x : list Q) (q : Q) :
  Forall (λ a, (a < q)%Q) x → searchsorted x q = length x.
Proof.
  induction 1 as [|a x Ha _ IH]; [done|]. simpl.
  destruct (Qlt_le_dec a q) as [_|Ha']; [by rewrite IH|].
  exfalso. exact (Qlt_not_le _ _ Ha Ha').
Qed.

Lemma searchsorted_zero (x : list Q) (q : Q) :
  Forall (λ a, (q <= a)%Q) x → searchsorted x q = 0.
Proof.
  destruct 1 as [|a x Ha _]; [done|]. simpl.
  destruct (Qlt_le_dec a q) as [Ha'|_]; [|done].
  exfalso. exact (Qlt_not_le _ _ Ha' Ha).
Qed.

Lemma in_window_true lo hi p :
  in_window lo hi p = true ↔ (lo <= p.1)%Q ∧ (p.1 < hi)%Q.
Proof.
  unfold in_window. rewrite andb_true_iff, negb_true_iff, Qle_bool_iff.
  split; intros [H1 H2]; (split; [done|]).
  - apply Qnot_le_lt. intros H. apply Qle_bool_iff in H. congruence.
  - destruct (Qle_bool hi p.1) eqn:E; [|done].
    apply Qle_bool_iff in E. exfalso. exact (Qlt_not_le _ _ H2 E).
Qed.

Lemma filter_window_none (lo hi : Q) (mz int : list Q) :
  Forall (λ a, (hi <= a)%Q) mz →
  filter (λ p, in_window lo hi p = true) (zip mz int) = [].
Proof.
  intros H. revert int. induction H as [|a mz Ha _ IH]; intros [|i int];
    try done.
  simpl. rewrite filter_cons_False; [apply IH|].
  intros [_ H2]%in_window_true. exact (Qlt_not_le _ _ H2 Ha).
Qed.

Lemma filter_window_empty (lo hi : Q) (l : list (Q * Q)) :
  (hi < lo)%Q → filter (λ p, in_window lo hi p = true) l = [].
Proof.
  intros H. induction l as [|p l IH]; [done|].
  rewrite filter_cons_False; [done|].
  intros [H1 H2]%in_window_true.
  apply (Qlt_irrefl hi). eapply Qlt_le_trans; [exact H|].
  eapply Qle_trans; [exact H1|]. by apply Qlt_le_weak.
Qed.

Lemma slice_cons_S {A} (x : A) (a : list A) (l r : nat) :
  slice (x :: a) (S l) (S r) = slice a l r.
Proof. done. Qed.

Lemma filter_window_slice (lo hi : Q) (mz int : list Q) :
  StronglySorted Qle mz → length int = length mz → (lo <= hi)%Q →
  (filter (λ p, in_window lo hi p = true) (zip mz int)).*2
  = slice int (searchsorted mz lo) (searchsorted mz hi).
Proof.
  intros Hs. revert int. induction Hs as [|a mz Hs IH Ha]; intros int L Hw.
  - by destruct int.
  - destruct int as [|i int]; [done|]. injection L as L.
    cbn [zip zip_with searchsorted].
    destruct (Qlt_le_dec a lo) as [Hlo|Hlo].
    + destruct (Qlt_le_dec a hi) as [Hhi|Hhi].
      * rewrite filter_cons_False, slice_cons_S; [by apply IH|].
        intros [H1 _]%in_window_true. exact (Qlt_not_le _ _ Hlo H1).
      * exfalso. apply (Qlt_irrefl a). eapply Qlt_le_trans; [exact Hlo|].
        by eapply Qle_trans.
    + assert (Forall (λ x, (lo <= x)%Q) mz) as Hall.
      { eapply Forall_impl; [exact Ha|]. intros x Hx. simpl in Hx.
        by eapply Qle_trans. }
      destruct (Qlt_le_dec a hi) as [Hhi|Hhi].
      * rewrite filter_cons_True by by apply in_window_true.
        rewrite fmap_cons. rewrite IH by done.
        rewrite searchsorted_zero by done. unfold slice. simpl.
        by rewrite !Nat.sub_0_r.
      * rewrite filter_cons_False.
        2:{ intros [_ H2]%in_window_true. exact (Qlt_not_le _ _ H2 Hhi). }
        rewrite filter_window_none; [done|].
        eapply Forall_impl; [exact Ha|]. intros x Hx. simpl in Hx.
        by eapply Qle_trans.
Qed.

Lemma window_sum_slice (lo hi : Q) (mz int : list Q) :
  Sorted Qle mz → length int = length mz →
  window_sum mz int lo hi
  = Qsum (slice int (searchsorted mz lo) (searchsorted mz hi)).
Proof.
  intros Hs L. unfold window_sum.
  destruct (Qlt_le_dec hi lo) as [H|H].
  - rewrite filter_window_empty by done.
    pose proof (searchsorted_mono mz hi lo (Qlt_le_weak _ _ H)).
    unfold slice. by replace (searchsorted mz hi - searchsorted mz lo) with 0 by lia.
  - rewrite filter_window_slice; [done| |done..].
    apply Sorted_StronglySorted; [apply _|done].
Qed.

(** A window that ends at or below a peak of the spectrum. *)
Lemma eic_entry_inside (sp : spectrum) (lo hi p : Q) :
  Sorted Qle (peaks_mz sp) → length (peaks_spint sp) = length (peaks_mz sp) →
  p ∈ peaks_mz sp → (hi <= p)%Q →
  eic_entry sp lo hi = window_sum (peaks_mz sp) (peaks_spint sp) lo hi.
Proof.
  intros Hs L Hp Hhi. rewrite window_sum_slice by done. unfold eic_entry.
  pose proof (searchsorted_lt_length _ _ _ Hp Hhi) as Hr.
  set (l := searchsorted (peaks_mz sp) lo) in *.
  set (r := searchsorted (peaks_mz sp) hi) in *.
  rewrite L. set (n := length (peaks_mz sp)) in *. unfold clamp.
  destruct (decide (l < r)) as [Hlr|Hlr].
  - rewrite !(decide_False (P := n ≤ l)) by lia.
    rewrite !(decide_False (P := n ≤ r)) by lia.
    by rewrite decide_True by done.
  - unfold slice. by replace (r - l) with 0 by lia.
Qed.

Lemma Qsum_app (a b : list Q) : (Qsum (a ++ b) == Qsum a + Qsum b)%Q.
Proof.
  induction a as [|x a IH]; simpl.
  - by rewrite Qplus_0_l.
  - rewrite IH. by rewrite Qplus_assoc.
Qed.

(** A window that reaches beyond the last peak and holds another one. *)
Lemma eic_entry_beyond (sp : spectrum) (lo hi p y : Q) :
  Sorted Qle (peaks_mz sp) → length (peaks_spint sp) = length (peaks_mz sp) →
  Forall (λ a, (a < hi)%Q) (peaks_mz sp) →
  peaks_mz sp !! (length (peaks_mz sp) - 2) = Some p →
  2 ≤ length (peaks_mz sp) → (lo <= p)%Q →
  last (peaks_spint sp) = Some y →
  (eic_entry sp lo hi + y
   == window_sum (peaks_mz sp) (peaks_spint sp) lo hi)%Q.
Proof.
  intros Hs L Hall Hp H2 Hlo Hy. rewrite window_sum_slice by done.
  unfold eic_entry. rewrite (searchsorted_all_below _ hi) by done.
  pose proof (searchsorted_le_index _ _ _ _ Hp Hlo) as Hl.
  set (l := searchsorted (peaks_mz sp) lo) in *.
  rewrite L. set (n := length (peaks_mz sp)) in *.
  unfold clamp. rewrite (decide_True (P := l < n)) by lia.
  rewrite !(decide_False (P := n ≤ l)) by lia.
  rewrite !(decide_True (P := n ≤ n)) by lia.
  rewrite (decide_True (P := l < n - 1)) by lia.
  assert (slice (peaks_spint sp) l n = slice (peaks_spint sp) l (n - 1) ++ [y])
    as ->.
  { rewrite last_lookup in Hy. rewrite L in Hy. fold n in Hy.
    replace (Init.Nat.pred n) with (n - 1) in Hy by lia.
    unfold slice.
    replace (n - l) with (S (n - 1 - l)) by lia.
    erewrite take_S_r; [done|].
    rewrite lookup_drop. by replace (l + (n - 1 - l)) with (n - 1) by lia. }
  rewrite Qsum_app. simpl. by rewrite Qplus_0_r.
Qed.

Lemma chromatogram_sum_closed msexp mz window start end_ :
  let e := default (length msexp) end_ in
  default 0 start = 0 → e ≤ length msexp →
  Forall (λ sp, peaks_spint sp ≠ []) (take e msexp) →
  ∃ rt eic,
    chromatogram msexp mz window start end_ "sum" = Ok (rt, eic) ∧
    length rt = e ∧ length eic = e ∧
    ∀ k sp, k < e → msexp !! k = Some sp →
      rt !! k = Some (getRT sp) ∧ eic !! k = Some (eic_column mz window sp).
Proof.
  intros e Hstart He Hne. unfold chromatogram. cbv zeta. rewrite Hstart.
  fold e. rewrite decide_False by lia. unfold arange.
  rewrite Nat.sub_0_r.
  destruct (chromatogram_loop_sum msexp mz window e 0 (replicate e 0%Q)
              (replicate e (replicate (length mz) 0%Q)))
    as (rt & eic & Hloop & Lrt & Leic & Hk).
  { lia. } { rewrite length_replicate. lia. } { rewrite length_replicate. lia. }
  { right. intros k sp Hk Hsp. rewrite Forall_forall in Hne. apply Hne.
    apply list_elem_of_lookup. exists k. rewrite lookup_take_lt by lia. done. }
  exists rt, eic. fold (intervals mz window). split; [exact Hloop|].
  rewrite length_replicate in Lrt. rewrite length_replicate in Leic.
  split; [done|]. split; [done|].
  intros k sp Hlt Hsp. destruct (Hk k) as [[-> ->] _]; [lia|].
  by rewrite Hsp.
Qed.

(** X8: with [start] left at zero and the accumulator ["sum"],
    [chromatogram] returns for every experiment whose spectra in the range
    have at least one peak: one retention time per scan and one column per
    scan with an entry for each mass.  For an ascending spectrum, the entry
    of a mass whose window ends at or below some peak of the spectrum is the
    summed intensity of the peaks with [m - window <= mz < m + window]. *)
Theorem chromatogram_window_sum (msexp : list spectrum) (mz : list Q)
    (window : Q) (start end_ : option nat) :
  let e := default (length msexp) end_ in
  default 0 start = 0 → e ≤ length msexp →
  Forall (λ sp, peaks_spint sp ≠ []) (take e msexp) →
  ∃ rt eic,
    chromatogram msexp mz window start end_ "sum" = Ok (rt, eic) ∧
    length rt = e ∧ length eic = e ∧
    ∀ k sp, k < e → msexp !! k = Some sp →
      rt !! k = Some (getRT sp) ∧
      ∃ column, eic !! k = Some column ∧ length column = length mz ∧
        ∀ j m p, mz !! j = Some m →
          Sorted Qle (peaks_mz sp) →
          length (peaks_spint sp) = length (peaks_mz sp) →
          p ∈ peaks_mz sp → (m + window <= p)%Q →
          column !! j
          = Some (window_sum (peaks_mz sp) (peaks_spint sp)
                    (m - window) (m + window)).
Proof.
  intros e Hstart He Hne.
  destruct (chromatogram_sum_closed msexp mz window start end_ Hstart He Hne)
    as (rt & eic & Hc & Lrt & Leic & Hk).
  exists rt, eic. split; [done|]. split; [done|]. split; [done|].
  intros k sp Hlt Hsp. destruct (Hk k sp Hlt Hsp) as [Hrt Heic].
  split; [done|]. exists (eic_column mz window sp). split; [done|].
  split; [unfold eic_column; by rewrite length_fmap|].
  intros j m p Hm Hs L Hp Hhi. unfold eic_column.
  rewrite list_lookup_fmap, Hm. simpl. f_equal.
  by eapply eic_entry_inside.
Qed.

(** X9: in the same setting, a window that reaches beyond the last peak of
    an ascending spectrum and holds at least one more peak loses the last
    peak: the entry falls short of the summed intensity of the window by
    the intensity of the last peak of the spectrum. *)
Theorem chromatogram_misses_last_peak (msexp : list spectrum) (mz : list Q)
    (window : Q) (start end_ : option nat) :
  let e := default (length msexp) end_ in
  default 0 start = 0 → e ≤ length msexp →
  Forall (λ sp, peaks_spint sp ≠ []) (take e msexp) →
  ∃ rt eic,
    chromatogram msexp mz window start end_ "sum" = Ok (rt, eic) ∧
    ∀ k sp j m p y, k < e → msexp !! k = Some sp → mz !! j = Some m →
      Sorted Qle (peaks_mz sp) →
      length (peaks_spint sp) = length (peaks_mz sp) →
      Forall (λ a, (a < m + window)%Q) (peaks_mz sp) →
      2 ≤ length (peaks_mz sp) →
      peaks_mz sp !! (length (peaks_mz sp) - 2) = Some p →
      (m - window <= p)%Q →
      last (peaks_spint sp) = Some y →
      ∃ column x, eic !! k = Some column ∧ column !! j = Some x ∧
        (x + y == window_sum (peaks_mz sp) (peaks_spint sp)
                    (m - window) (m + window))%Q.
Proof.
  intros e Hstart He Hne.
  destruct (chromatogram_sum_closed msexp mz window start end_ Hstart He Hne)
    as (rt & eic & Hc & Lrt & Leic & Hk).
  exists rt, eic. split; [done|].
  intros k sp j m p y Hlt Hsp Hm Hs L Hall H2 Hp Hlo Hy.
  destruct (Hk k sp Hlt Hsp) as [Hrt Heic].
  exists (eic_column mz window sp), (eic_entry sp (m - window) (m + window)).
  split; [done|]. split.
  - unfold eic_column. by rewrite list_lookup_fmap, Hm.
  - by eapply eic_entry_beyond.
Qed.

Lemma chromatogram_step_cases msexp ivs accumulator rt eic k :
  k < length msexp → accumulator ∈ ["sum"; "mean"] →
  chromatogram_step msexp ivs accumulator (rt, eic) k = Raise IndexError ∨
  ∃ rt' eic',
    chromatogram_step msexp ivs accumulator (rt, eic) k = Ok (rt', eic') ∧
    length rt' = length rt ∧ k < length rt.
Proof.
  intros Hk Hacc. unfold chromatogram_step, getSpectrum.
  destruct (lookup_lt_is_Some_2 msexp k Hk) as [sp Hsp].
  assert (getitem msexp k = Ok sp) as -> by (unfold getitem; by rewrite Hsp).
  rewrite bind_Ok_l.
  destruct (setitem rt k (getRT sp)) as [rt1|e1] eqn:E1.
  2:{ left. unfold setitem in E1. case_decide; [done|]. by injection E1 as <-. }
  apply setitem_Ok in E1 as [Hrt ->].
  rewrite bind_Ok_l. cbv zeta.
  destruct (np_add_reduceat _ _) as [sums|e] eqn:Esum.
  2:{ left. apply np_add_reduceat_error in Esum as ->. done. }
  rewrite bind_Ok_l.
  match goal with
  | |- context [setitem eic k ?c] =>
      destruct (setitem eic k c) as [eic1|e1] eqn:E1
  end.
  2:{ left. unfold setitem in E1. case_decide; [done|]. by injection E1 as <-. }
  apply setitem_Ok in E1 as [Heic ->].
  rewrite bind_Ok_l. right.
  destruct (decide (accumulator = "mean")) as [->|Hmean].
  - unfold getitem. rewrite list_lookup_insert_eq by done. rewrite bind_Ok_l.
    unfold setitem. rewrite decide_True by (by rewrite length_insert).
    rewrite bind_Ok_l. eexists _, _. split; [done|].
    by rewrite length_insert.
  - rewrite decide_True.
    + eexists _, _. split; [done|]. by rewrite length_insert.
    + apply elem_of_cons in Hacc as [->|Hacc]; [done|].
      apply elem_of_cons in Hacc as [->|Hacc]; [done|].
      by apply elem_of_nil in Hacc.
Qed.

Lemma chromatogram_loop_raises msexp ivs accumulator scans rt eic :
  Forall (λ k, k < length msexp) scans → accumulator ∈ ["sum"; "mean"] →
  Exists (λ k, length rt ≤ k) scans →
  chromatogram_loop msexp ivs accumulator (rt, eic) scans = Raise IndexError.
Proof.
  intros Hin Hacc. revert rt eic.
  induction Hin as [|k scans Hk _ IH]; intros rt eic Hex.
  - by apply Exists_nil in Hex.
  - cbn [chromatogram_loop].
    destruct (chromatogram_step_cases msexp ivs accumulator rt eic k Hk Hacc)
      as [->|(rt' & eic' & -> & Lrt & Hlt)]; [done|].
    rewrite bind_Ok_l. apply IH. rewrite Lrt.
    apply Exists_cons in Hex as [Hex|Hex]; [lia|done].
Qed.

(** X10: [chromatogram] stores the retention time and the column of the
    scan [ksp] at position [ksp] of arrays that have [end - start] entries,
    so a call with a positive [start] on a non-empty range of scans of the
    experiment raises [IndexError]. *)
Theorem chromatogram_offset_raises (msexp : list spectrum) (mz : list Q)
    (window : Q) (start : nat) (end_ : option nat) (accumulator : string) :
  let e := default (length msexp) end_ in
  0 < start → start < e → e ≤ length msexp →
  accumulator ∈ ["sum"; "mean"] →
  chromatogram msexp mz window (Some start) end_ accumulator
  = Raise IndexError.
Proof.
  intros e Hs Hse He Hacc. unfold chromatogram. cbv zeta. simpl default.
  fold e. rewrite decide_False by lia.
  apply chromatogram_loop_raises; [|done|].
  - apply Forall_forall. intros k Hk%elem_of_seq. lia.
  - apply Exists_exists. exists (e - 1). split.
    + apply elem_of_seq. lia.
    + rewrite length_replicate. lia.
Qed.

(** ** The ROIs that [make_roi] returns *)

Lemma add_index self mz sp targeted self' :
  add self mz sp targeted = Ok self' → self_index self' = self_index self + 1.
Proof.
  intros Hadd. apply add_inv in Hadd
    as (mi & mzm & spm & nm & snm & d & mean_m & len_m & max_m & len & nmiss
        & maxi & _ & _ & _ & _ & _ & _ & _ & _ & _ & _ & Hrest).
  cbv zeta in Hrest. destruct targeted.
  - by subst self'.
  - destruct Hrest as (mm & self2 & _ & Hext & ->).
    apply extend_inv in Hext
      as (? & ? & ? & ? & ? & ? & _ & _ & _ & _ & _ & _ & ->). done.
Qed.

Lemma append_to_roi_index self rt targeted self' :
  append_to_roi self rt targeted = Ok self' → self_index self' = self_index self.
Proof.
  destruct targeted; intros H.
  - apply append_to_roi_targeted_inv in H
      as (d & roi & mx & _ & _ & _ & _ & _ & ->). done.
  - apply append_to_roi_untargeted_inv in H
      as (d & roi & _ & _ & _ & _ & _ & ->). done.
Qed.

Lemma emits_aligned msexp start self rt ind r :
  consistent self → self_index self ≤ length rt →
  (∀ j, j < self_index self → rt !! j = getRT <$> msexp !! (start + j)) →
  emits self rt ind r → roi_aligned msexp start r.
Proof.
  intros (_ & _ & Hok) Hlen Hrt
    (missing & len & maxi & id & tmp_roi & _ & _ & Hl & _ & Hmaxi & _
     & Hid & Ht & Hr).
  destruct (Hok _ _ _ _ Hid Hl Hmaxi) as (t & Ht' & Htok).
  assert (t = tmp_roi) as -> by congruence.
  destruct Htok as (-> & Lmz & Lscan & Hsorted & Hbound & _).
  destruct (tmp_roi_to_roi_inv _ _ _ _ Hr) as (Hmode & first & lst & Hf & Hla).
  destruct (tmp_roi_to_roi_Ok _ rt _ _ _ Hf Hla Hsorted ltac:(lia) ltac:(lia)
              Hmode) as [m Heq].
  rewrite Heq in Hr. injection Hr as <-.
  pose proof (sorted_scan_bounds _ _ _ Hsorted Hf Hla) as Hb.
  assert (first ≤ lst ∧ lst < self_index self) as [Hfl Hlst].
  { assert (lst ∈ t_scan tmp_roi) as Hin.
    { rewrite last_lookup in Hla. apply list_elem_of_lookup. eexists. exact Hla. }
    rewrite Forall_forall in Hb. rewrite Forall_forall in Hbound.
    pose proof (Hb _ Hin). pose proof (Hbound _ Hin). simpl in *. lia. }
  unfold roi_aligned. simpl. rewrite !dense_length.
  assert (length (slice rt first (lst + 1)) = lst + 1 - first) as Ls.
  { pose proof (slice_length rt first (lst + 1 - first)) as Ls.
    replace (first + (lst + 1 - first)) with (lst + 1) in Ls by lia.
    apply Ls. lia. }
  split; [done|]. split; [done|].
  intros o Ho. rewrite Ls in Ho.
  pose proof (slice_lookup rt first (lst + 1 - first) o Ho) as Hs.
  replace (first + (lst + 1 - first)) with (lst + 1) in Hs by lia.
  rewrite Hs, Hrt by lia. by rewrite Nat.add_assoc.
Qed.

Lemma scan_step_done msexp start targeted i st st' :
  scans_done msexp start i st →
  scan_step msexp start targeted st (start + i) = Ok st' →
  scans_done msexp start (S i) st'.
Proof.
  destruct st as [p rt]. intros (Hc & Hi & Hlen & Hrt & Hroi) H.
  apply scan_step_inv in H
    as (sp & rt1 & p1 & p2 & Hsp & Hset & Hadd & Hclose & _ & ->).
  simpl in *. replace (start + i - start) with i in Hset by lia.
  apply setitem_Ok in Hset as [Hi' ->].
  pose proof (add_consistent _ _ _ _ _ Hc Hadd) as Hc1.
  pose proof (append_to_roi_consistent _ _ _ _ Hc1 Hclose) as Hc2.
  pose proof (add_index _ _ _ _ _ Hadd) as Hi1.
  pose proof (append_to_roi_index _ _ _ _ Hclose) as Hi2.
  assert (∀ j, j < S i →
            <[i:=getRT sp]> rt !! j = getRT <$> msexp !! (start + j)) as Hrt1.
  { intros j Hj. destruct (decide (j = i)) as [->|Hji].
    - rewrite list_lookup_insert_eq by done.
      unfold getSpectrum, getitem in Hsp.
      destruct (msexp !! (start + i)); [|done]. by injection Hsp as ->.
    - rewrite list_lookup_insert_ne by done. apply Hrt. lia. }
  unfold scans_done. simpl.
  split; [done|]. split; [lia|]. split; [rewrite length_insert; lia|].
  split; [done|].
  destruct (append_to_roi_emits _ _ _ _ Hclose) as (_ & emitted & -> & Hem).
  destruct (add_same_thresholds _ _ _ _ _ Hadd) as [_ ->].
  apply Forall_app. split; [done|].
  apply Forall_forall. intros r (j & Hj)%list_elem_of_lookup.
  destruct (Forall2_lookup_r _ _ _ _ _ Hem Hj) as (ind & _ & He).
  eapply emits_aligned; [exact Hc1| | |exact He].
  - rewrite length_insert. lia.
  - intros j' Hj'. apply Hrt1. lia.
Qed.

Lemma scan_loop_done msexp start targeted n i st st' :
  scans_done msexp start i st →
  scan_loop msexp start targeted st (seq (start + i) n) = Ok st' →
  scans_done msexp start (i + n) st'.
Proof.
  revert i st. induction n as [|n IH]; simpl; intros i st Hd H.
  - injection H as <-. by rewrite Nat.add_0_r.
  - apply bind_Ok in H as (st1 & H1 & H).
    replace (i + S n) with (S i + n) by lia. apply (IH (S i) st1).
    + by eapply scan_step_done.
    + by replace (start + S i) with (S (start + i)) by lia.
Qed.

(** X12: every ROI that [make_roi] returns has m/z, intensity and retention
    time arrays of the same length, and its retention times are those of
    the scans [start + first_scan], [start + first_scan + 1], ... of the
    experiment: [first_scan] counts from the first scan of the run. *)
Theorem make_roi_aligned msexp tolerance max_missing min_length min_intensity
    multiple_match targeted_mz start end_ mz_reduce sp_reduce mode rois :
  make_roi msexp tolerance max_missing min_length min_intensity multiple_match
    targeted_mz start end_ mz_reduce sp_reduce mode = Ok rois →
  Forall (roi_aligned msexp (default 0 start)) rois.
Proof.
  unfold make_roi. intros H.
  apply bind_Ok in H as ([mz_seed targeted] & _ & H).
  apply bind_Ok in H as (rt & Hrt & H).
  apply bind_Ok in H as (p0 & Hinit & H).
  apply bind_Ok in H as ([p rt'] & Hloop & H).
  apply bind_Ok in H as (p' & Hflush & H). injection H as <-.
  set (s := default 0 start) in *. set (e := default (length msexp) end_) in *.
  case_decide as Hse; [done|]. injection Hrt as <-.
  assert (scans_done msexp s 0 (p0, replicate (e - s) 0%Q)) as H0.
  { split; [by eapply init_consistent|].
    unfold RoiProcessor_init in Hinit. repeat case_decide; try done.
    injection Hinit as <-. simpl. split; [done|]. split; [lia|].
    split; [intros j Hj; lia|constructor]. }
  unfold arange in Hloop.
  assert (seq s (e - s) = seq (s + 0) (e - s)) as Hseq by (f_equal; lia).
  rewrite Hseq in Hloop.
  pose proof (scan_loop_done _ _ _ _ _ _ _ H0 Hloop)
    as (Hc & Hi & Hlen & Hrt & Hroi).
  simpl in *.
  destruct (append_to_roi_emits _ _ _ _ Hflush) as (_ & emitted & -> & Hem).
  simpl. apply Forall_app. split; [done|].
  apply Forall_forall. intros r (j & Hj)%list_elem_of_lookup.
  destruct (Forall2_lookup_r _ _ _ _ _ Hem Hj) as (ind & _ & He).
  eapply emits_aligned; [|  | |exact He].
  - by apply flag_as_completed_consistent.
  - simpl. lia.
  - simpl. intros j' Hj'. apply Hrt. lia.
Qed.

(** ** The [reduce] policy, and runs that return *)

Lemma call_callable (r : reducer) (l : list Q) :
  callable r → call r l = Ok (apply_reducer r l).
Proof. by destruct r. Qed.

Lemma setitem_in_range {A} (a : list A) (i : nat) (v : A) :
  i < length a → setitem a i v = Ok (<[i:=v]> a).
Proof. intros H. unfold setitem. by rewrite decide_True. Qed.

Lemma reduce_loop_Ok mzr spr (mz_m sp_m : list Q) (it : list (nat * nat * nat))
    (mz_match sp_match : list Q) :
  callable mzr → callable spr →
  Forall (λ x, x.1.1 < length mz_match) it →
  length sp_match = length mz_match →
  reduce_loop mzr spr mz_m sp_m it mz_match sp_match
  = Ok (put_all mz_match
          ((λ x, (x.1.1, apply_reducer mzr (slice mz_m x.1.2 (x.1.2 + x.2))))
             <$> it),
        put_all sp_match
          ((λ x, (x.1.1, apply_reducer spr (slice sp_m x.1.2 (x.1.2 + x.2))))
             <$> it)).
Proof.
  intros Hm Hs. revert mz_match sp_match.
  induction it as [|[[fi ix] ct] it IH]; intros mz_match sp_match Hit L;
    [done|].
  apply Forall_cons in Hit as [Hfi Hit]. simpl in Hfi.
  cbn [reduce_loop]. rewrite !call_callable by done. rewrite bind_Ok_l.
  rewrite setitem_in_range, bind_Ok_l by done. rewrite bind_Ok_l.
  rewrite setitem_in_range, bind_Ok_l by lia.
  rewrite IH.
  - done.
  - eapply Forall_impl; [exact Hit|]. intros x Hx. by rewrite length_insert.
  - by rewrite !length_insert.
Qed.

Lemma iterator_pairs {B} (val : nat * nat → B) (a b c : list nat) :
  length a = length b → length b = length c →
  (λ x, (x.1.1, val (group_of x))) <$> zip (zip a b) c
  = zip a (val <$> zip b c).
Proof.
  revert b c. induction a as [|x a IH]; intros [|y b] [|z c]; try done.
  intros [= L1] [= L2]. cbn [zip_with fmap list_fmap]. f_equal.
  by apply IH.
Qed.

Lemma group_value_single (r : reducer) (a : list Q) (g : nat * nat) :
  contended g = false → group_value r a g = nth_Q a g.1.
Proof. unfold group_value. by intros ->. Qed.

Lemma match_mz_reduce_eq mz1 mz2 sp2 tolerance mz_reduce sp_reduce :
  mz1 ≠ [] → length sp2 = length mz2 →
  callable mz_reduce → callable sp_reduce →
  let m := in_range mz1 mz2 tolerance in
  let l := select m (find_closest mz1 mz2) in
  _match_mz mz1 mz2 sp2 tolerance "reduce" mz_reduce sp_reduce
  = Ok (merge_sort le (remove_dups l),
        group_value mz_reduce (select m mz2) <$> groups l,
        group_value sp_reduce (select m sp2) <$> groups l,
        select (negb <$> m) mz2, select (negb <$> m) sp2).
Proof.
  intros Hne Hsp Hcm Hcs m l. unfold _match_mz.
  rewrite np_take_in_range by by apply find_closest_lt.
  rewrite bind_Ok_l.
  unfold np_zip at 1.
  rewrite decide_True by by rewrite length_fmap, find_closest_length.
  rewrite bind_Ok_l. fold (distances mz1 mz2). fold (in_range mz1 mz2 tolerance).
  fold m.
  assert (length m = length mz2) as Lm by apply in_range_length.
  rewrite (np_mask_same_length (find_closest mz1 mz2))
    by by rewrite find_closest_length.
  rewrite bind_Ok_l. fold l. unfold np_unique.
  cbv zeta. cbv iota.
  rewrite <-(groups_fst l), <-(groups_snd l).
  assert ((λ c, bool_decide (1 < c)) <$> (groups l).*2 = contended <$> groups l)
    as ->.
  { by rewrite <-list_fmap_compose. }
  set (G := groups l).
  assert (length (select m sp2) = length l) as Lsp.
  { unfold l. rewrite !select_length; [done|..];
      by rewrite ?find_closest_length; lia. }
  assert (length (select m mz2) = length l) as Lmz.
  { unfold l. rewrite !select_length; [done|..];
      by rewrite ?find_closest_length; lia. }
  assert (∀ a : list Q, length a = length l →
            Forall (λ i, i < length a) G.*1) as Hfi.
  { intros a La. apply Forall_fmap, Forall_forall. intros g Hg.
    apply groups_range in Hg. simpl. lia. }
  rewrite (np_mask_same_length sp2) by lia. rewrite bind_Ok_l.
  rewrite np_take_in_range by by apply Hfi. rewrite bind_Ok_l.
  rewrite (np_mask_same_length mz2) by lia. rewrite bind_Ok_l.
  rewrite np_take_in_range by by apply Hfi. rewrite bind_Ok_l.
  rewrite (np_mask_same_length G.*1) by by rewrite !length_fmap.
  rewrite bind_Ok_l.
  rewrite <-!list_fmap_compose.
  set (mm := contended <$> G).
  assert (length (np_where mm) = length (select mm G.*1)) as La.
  { unfold np_where. rewrite !select_length; [done|..];
      unfold mm; by rewrite ?length_fmap, ?length_seq. }
  assert (length (select mm G.*1) = length (select mm G.*2)) as Lb.
  { rewrite !select_length; [done|..]; unfold mm; by rewrite ?length_fmap. }
  assert (zip (select mm G.*1) (select mm G.*2) = select mm G) as Ezip.
  { rewrite select_zip by by rewrite !length_fmap. by rewrite zip_fst_snd. }
  assert (∀ (r : reducer) (a : list Q),
            put_all ((nth_Q a ∘ fst) <$> G)
              ((λ x, (x.1.1, apply_reducer r (slice a x.1.2 (x.1.2 + x.2))))
                 <$> zip (zip (np_where mm) (select mm G.*1)) (select mm G.*2))
            = group_value r a <$> G) as Hpatch.
  { intros r a.
    rewrite (iterator_pairs (λ g, apply_reducer r (slice a g.1 (g.1 + g.2))))
      by done.
    rewrite Ezip. unfold np_where, mm. rewrite length_fmap.
    assert ((λ g, apply_reducer r (slice a g.1 (g.1 + g.2)))
              <$> select (contended <$> G) G
            = group_value r a <$> select (contended <$> G) G) as ->.
    { rewrite select_by_test. apply list_fmap_ext.
      intros i g (Hg & _)%list_elem_of_lookup_2%list_elem_of_filter.
      unfold group_value. by rewrite Hg. }
    apply put_all_patch_by_test. intros g _ Hg. simpl.
    by rewrite group_value_single. }
  match goal with |- ?blk ≫= _ = _ =>
    assert (blk = Ok (group_value mz_reduce (select m mz2) <$> G,
                      group_value sp_reduce (select m sp2) <$> G,
                      negb <$> m)) as ->
  end.
  { destruct (decide (0 < length (select mm G.*1))) as [Hc|Hc].
    - rewrite (np_mask_same_length G.*2)
        by (unfold mm; by rewrite !length_fmap).
      rewrite bind_Ok_l. rewrite decide_False by done.
      rewrite decide_True by done.
      rewrite reduce_loop_Ok; [| done | done | | by rewrite !length_fmap].
      + rewrite bind_Ok_l. cbv beta iota. by rewrite !Hpatch.
      + apply Forall_forall. intros [[fi ix] ct] Hx. simpl.
        apply elem_of_zip_l, elem_of_zip_l in Hx. rewrite length_fmap.
        unfold np_where in Hx.
        pose proof (elem_of_sublist _ _ _ Hx
          (select_sublist mm (seq 0 (length mm)))) as Hj.
        apply elem_of_seq in Hj. unfold mm in Hj. rewrite length_fmap in Hj.
        lia.
    - assert (select mm G = []) as Enil.
      { apply nil_length_inv.
        rewrite select_length in Hc by (unfold mm; by rewrite !length_fmap).
        rewrite select_length by (unfold mm; by rewrite length_fmap). lia. }
      assert (∀ (r : reducer) (a : list Q),
                (nth_Q a ∘ fst) <$> G = group_value r a <$> G) as Hsame.
      { intros r a. apply list_fmap_ext. intros i g Hg. simpl.
        rewrite group_value_single; [done|].
        destruct (contended g) eqn:E; [|done]. exfalso.
        assert (g ∈ select mm G) as Hin.
        { unfold mm. rewrite select_by_test. apply list_elem_of_filter.
          split; [done|]. by eapply list_elem_of_lookup_2. }
        rewrite Enil in Hin. by apply elem_of_nil in Hin. }
      by rewrite (Hsame mz_reduce), (Hsame sp_reduce). }
  rewrite bind_Ok_l. cbv beta iota.
  rewrite (np_mask_same_length mz2) by by rewrite length_fmap.
  rewrite bind_Ok_l.
  rewrite (np_mask_same_length sp2) by (rewrite length_fmap; lia).
  by rewrite bind_Ok_l.
Qed.

Lemma count_occ_nat_cons (k x : nat) (l : list nat) :
  count_occ_nat k (x :: l)
  = if decide (x = k) then S (count_occ_nat k l) else count_occ_nat k l.
Proof.
  unfold count_occ_nat. destruct (decide (x = k)) as [->|H].
  - by rewrite filter_cons_True.
  - by rewrite filter_cons_False.
Qed.

Lemma peaks_of_notin (k : nat) (l : list nat) (a : list Q) :
  k ∉ l → peaks_of k l a = [].
Proof.
  unfold peaks_of. revert a. induction l as [|x l IH]; intros [|y a] Hk;
    try done.
  cbn [zip zip_with]. rewrite filter_cons_False.
  - apply IH. intros H. apply Hk. by apply list_elem_of_further.
  - simpl. intros ->. apply Hk. apply list_elem_of_here.
Qed.

Lemma sorted_group_slice (k : nat) (l : list nat) (a : list Q) :
  StronglySorted le l → length a = length l →
  slice a (first_occ k l) (first_occ k l + count_occ_nat k l)
  = peaks_of k l a.
Proof.
  intros Hs. revert a. induction Hs as [|x l Hs IH Hx]; intros a L.
  - by destruct a.
  - destruct a as [|y a]; [done|]. injection L as L.
    rewrite count_occ_nat_cons. cbn [first_occ]. unfold peaks_of.
    cbn [zip zip_with]. destruct (decide (x = k)) as [->|Hxk].
    + rewrite filter_cons_True by done. rewrite fmap_cons. simpl snd.
      fold (peaks_of k l a). rewrite <-(IH a L).
      destruct (decide (k ∈ l)) as [Hin|Hin].
      * assert (first_occ k l = 0) as ->.
        { destruct l as [|z l]; [by apply elem_of_nil in Hin|].
          simpl. apply Forall_cons in Hx as [Hz _].
          apply StronglySorted_inv in Hs as [_ Hall].
          rewrite decide_True; [done|].
          apply elem_of_cons in Hin as [->|Hin]; [done|].
          rewrite Forall_forall in Hall. specialize (Hall _ Hin). lia. }
        unfold slice. simpl. by rewrite !Nat.sub_0_r.
      * assert (count_occ_nat k l = 0) as ->.
        { pose proof (count_occ_nat_pos k l). 
          destruct (count_occ_nat k l); [done|]. exfalso. apply Hin.
          apply H. lia. }
        unfold slice. simpl. rewrite Nat.add_0_r, Nat.sub_diag. done.
    + rewrite filter_cons_False by done. fold (peaks_of k l a).
      rewrite <-(IH a L). done.
Qed.

Lemma group_value_reduced (r : reducer) (l : list nat) (a : list Q) (k : nat) :
  StronglySorted le l → length a = length l → k ∈ l →
  group_value r a (first_occ k l, count_occ_nat k l)
  = reduced r (peaks_of k l a).
Proof.
  intros Hs L Hk. unfold group_value, contended. simpl.
  rewrite sorted_group_slice by done.
  pose proof (first_occ_lt l k Hk) as [Hle _].
  pose proof (proj1 (count_occ_nat_pos k l) Hk) as Hpos.
  assert (length (peaks_of k l a) = count_occ_nat k l) as Lp.
  { rewrite <-sorted_group_slice by done. apply slice_length. lia. }
  destruct (bool_decide (1 < count_occ_nat k l)) eqn:E.
  - apply bool_decide_eq_true in E.
    destruct (peaks_of k l a) as [|x [|y p]]; simpl in Lp; try done; lia.
  - apply bool_decide_eq_false in E.
    assert (count_occ_nat k l = 1) as E1 by lia.
    pose proof (sorted_group_slice k l a Hs L) as Hsl. rewrite E1 in Hsl.
    pose proof (slice_lookup a (first_occ k l) 1 0 ltac:(lia)) as H0.
    rewrite Hsl, Nat.add_0_r in H0.
    destruct (peaks_of k l a) as [|x [|y p]]; simpl in Lp; try lia.
    simpl in H0. unfold reduced.
    rewrite lookup_nth_Q in H0 by lia. by injection H0 as ->.
Qed.

(** X13: under the [reduce] policy with callable reducers, on an ascending
    scan, every trace with an in-range peak is matched once: to that peak
    when it is the only one, and otherwise to [mz_reduce] of the m/z and
    [sp_reduce] of the intensities of all the in-range peaks that have the
    trace as their nearest one.  The unmatched output holds exactly the
    peaks that are out of tolerance. *)
Theorem reduce_policy (self : RoiProcessor) (mz sp : list Q) :
  self_multiple_match self = "reduce" →
  self_mz_mean self ≠ [] → Sorted Qle mz → length sp = length mz →
  callable (self_mz_reduce self) → callable (self_spint_reduce self) →
  let m := in_range (self_mz_mean self) mz (self_tolerance self) in
  let l := select m (find_closest (self_mz_mean self) mz) in
  ∃ match_index mz_match sp_match,
    _match_mz (self_mz_mean self) mz sp (self_tolerance self)
      (self_multiple_match self) (self_mz_reduce self) (self_spint_reduce self)
    = Ok (match_index, mz_match, sp_match,
          select (negb <$> m) mz, select (negb <$> m) sp) ∧
    NoDup match_index ∧ (∀ k, k ∈ match_index ↔ k ∈ l) ∧
    ∀ t k, match_index !! t = Some k →
      mz_match !! t
      = Some (reduced (self_mz_reduce self) (peaks_of k l (select m mz))) ∧
      sp_match !! t
      = Some (reduced (self_spint_reduce self) (peaks_of k l (select m sp))).
Proof.
  intros Hmode Hne Hasc Hsp Hcm Hcs m l. rewrite Hmode.
  rewrite match_mz_reduce_eq by done. fold m. fold l.
  eexists _, _, _. split; [done|].
  assert (∀ k, k ∈ merge_sort le (remove_dups l) ↔ k ∈ l) as Hmem.
  { intros k. by rewrite merge_sort_Permutation, elem_of_remove_dups. }
  split.
  { rewrite merge_sort_Permutation. apply NoDup_remove_dups. }
  split; [done|].
  intros t k Ht.
  assert (StronglySorted le l) as Hs.
  { apply select_StronglySorted. by apply find_closest_sorted. }
  assert (length m = length mz) as Lm by apply in_range_length.
  assert (∀ a : list Q, length a = length mz → length (select m a) = length l)
    as Hla.
  { intros a La. unfold l. rewrite !select_length; [done|..];
      by rewrite ?find_closest_length; lia. }
  assert (k ∈ l) as Hk.
  { apply Hmem. by eapply list_elem_of_lookup_2. }
  unfold groups. rewrite <-!list_fmap_compose, !list_lookup_fmap, Ht. simpl.
  by rewrite !group_value_reduced by (done || by apply Hla).
Qed.

Lemma np_take_Ok {A} (a : list A) (idx : list nat) :
  Forall (λ i, i < length a) idx → ∃ r, np_take a idx = Ok r.
Proof.
  unfold np_take. induction 1 as [|i idx Hi _ [r IH]]; [by exists []|].
  destruct (lookup_lt_is_Some_2 a i Hi) as [x Hx].
  exists (x :: r). simpl.
  assert (getitem a i = Ok x) as -> by (unfold getitem; by rewrite Hx).
  simpl. by rewrite IH.
Qed.

Lemma np_put_Ok {A} (a : list A) (idx : list nat) (vals : list A) :
  length vals = length idx → Forall (λ i, i < length a) idx →
  ∃ r, np_put a idx vals = Ok r.
Proof.
  intros L Hidx. rewrite np_put_same_length by done.
  eexists. apply put_seq_in_range. apply Forall_forall. intros [i v] Hiv.
  apply elem_of_zip_l in Hiv. rewrite Forall_forall in Hidx. by apply Hidx.
Qed.

Lemma np_put_all_Ok {A} (a : list A) (idx : list nat) (v : A) :
  Forall (λ i, i < length a) idx → ∃ r, np_put_all a idx v = Ok r.
Proof.
  intros Hidx. unfold np_put_all. eexists. apply put_seq_in_range.
  apply Forall_forall. intros [i w] Hiv.
  apply elem_of_zip_l in Hiv. rewrite Forall_forall in Hidx. by apply Hidx.
Qed.

Lemma np_zip_same_length {A B C} (f : A → B → C) (a : list A) (b : list B) :
  length a = length b → np_zip f a b = Ok (zip_with f a b).
Proof. intros L. unfold np_zip. by rewrite decide_True. Qed.

Lemma select_none {A} (m : list bool) (a : list A) :
  length m = length a → select m a = [] → Forall (λ b, b = false) m.
Proof.
  revert a. induction m as [|b m IH]; intros [|x a] L H; try done.
  injection L as L. destruct b; [done|]. constructor; [done|]. by eapply IH.
Qed.

Lemma match_mz_Ok mz1 mz2 sp2 tolerance mode mz_reduce sp_reduce :
  mz1 ≠ [] → Sorted Qle mz2 → length sp2 = length mz2 →
  policy_ok mode mz_reduce sp_reduce →
  ∃ mi mzm spm nm snm,
    _match_mz mz1 mz2 sp2 tolerance mode mz_reduce sp_reduce
    = Ok (mi, mzm, spm, nm, snm) ∧
    Forall (λ k, k < length mz1) mi ∧
    length mzm = length mi ∧ length spm = length mi ∧
    (mz2 ≠ [] → mi ≠ [] ∨ nm ≠ []).
Proof.
  intros Hne Hasc Hsp Hpol.
  set (m := in_range mz1 mz2 tolerance).
  set (l := select m (find_closest mz1 mz2)).
  assert (length m = length mz2) as Lm by apply in_range_length.
  assert (Forall (λ k, k < length mz1) (merge_sort le (remove_dups l))) as Hin.
  { apply Forall_forall. intros k Hk.
    rewrite merge_sort_Permutation, elem_of_remove_dups in Hk.
    pose proof (elem_of_sublist _ _ _ Hk (select_sublist _ _)) as Hk'.
    pose proof (find_closest_lt mz1 mz2 Hne) as Hlt.
    rewrite Forall_forall in Hlt. by apply Hlt. }
  assert (∀ {B} (f : nat * nat → B),
            length (f <$> groups l) = length (merge_sort le (remove_dups l)))
    as Hlen.
  { intros B f. unfold groups. by rewrite !length_fmap. }
  assert (merge_sort le (remove_dups l) = [] → negb <$> m = replicate (length mz2) true)
    as Hnil.
  { intros E. assert (l = []) as El.
    { destruct l as [|k l'] eqn:E'; [done|]. exfalso.
      assert (k ∈ merge_sort le (remove_dups (k :: l'))) as Hk.
      { rewrite merge_sort_Permutation, elem_of_remove_dups.
        apply list_elem_of_here. }
      rewrite E in Hk. by apply elem_of_nil in Hk. }
    pose proof (select_none m (find_closest mz1 mz2)
                  ltac:(by rewrite find_closest_length) El) as Hall.
    rewrite <-Lm. clear -Hall. induction Hall as [|b m' -> _ IH]; [done|].
    simpl. f_equal. exact IH. }
  assert (∀ a : list Q, length a = length mz2 →
            select (replicate (length mz2) true) a = a) as Hsel.
  { intros a La. apply select_all_true; [by rewrite length_replicate|].
    apply Forall_forall. by intros b [-> _]%elem_of_replicate. }
  destruct Hpol as [->|(-> & Hcm & Hcs)].
  - rewrite match_mz_closest_eq by done. fold m. fold l.
    eexists _, _, _, _, _. split; [done|]. split; [done|].
    split; [apply Hlen|]. split; [apply Hlen|].
    intros Hmz. destruct (merge_sort le (remove_dups l)) as [|k ks] eqn:E;
      [right|by left].
    assert (l = []) as El.
    { destruct l as [|k l'] eqn:E'; [done|]. exfalso.
      assert (k ∈ merge_sort le (remove_dups (k :: l'))) as Hk.
      { rewrite merge_sort_Permutation, elem_of_remove_dups.
        apply list_elem_of_here. }
      rewrite E in Hk. by apply elem_of_nil in Hk. }
    rewrite El. unfold losers, groups. simpl.
    unfold put_all. simpl. rewrite Hnil by done. by rewrite Hsel.
  - rewrite match_mz_reduce_eq by done. fold m. fold l.
    eexists _, _, _, _, _. split; [done|]. split; [done|].
    split; [apply Hlen|]. split; [apply Hlen|].
    intros Hmz. destruct (merge_sort le (remove_dups l)) as [|k ks] eqn:E;
      [right|by left].
    rewrite Hnil by done. by rewrite Hsel.
Qed.

Lemma append_samples_Ok roi_index index (ms : list (nat * Q * Q)) d :
  (∀ k, k ∈ ms.*1.*1 → ∃ id, roi_index !! k = Some id ∧ is_Some (d !! id)) →
  ∃ d', append_samples roi_index index d ms = Ok d'.
Proof.
  revert d. induction ms as [|[[k k_mz] k_sp] ms IH]; intros d H;
    [by exists d|].
  destruct (H k) as (id & Hid & [t Ht]); [apply list_elem_of_here|].
  cbn [append_samples].
  assert (getitem roi_index k = Ok id) as ->
    by (unfold getitem; by rewrite Hid).
  rewrite bind_Ok_l, Ht. apply IH.
  intros k' Hk'. destruct (H k') as (id' & Hid' & Hs');
    [by apply list_elem_of_further|].
  exists id'. split; [done|]. apply lookup_insert_is_Some'. by right.
Qed.

Lemma np_argsort_lt (l : list Q) :
  Forall (λ i, i < length l) (np_argsort l).
Proof.
  apply Forall_forall. intros i Hi. rewrite np_argsort_Permutation in Hi.
  apply elem_of_seq in Hi. lia.
Qed.

Lemma extend_Ok self mz sp :
  slots self (length (self_roi_index self)) → self_roi_index self ≠ [] →
  ∃ self', extend self mz sp = Ok self'.
Proof.
  intros (S1 & S2 & S3 & S4 & S5) Hne. unfold extend.
  destruct (self_roi_index self) as [|i0 ri] eqn:Eri; [done|].
  cbn [np_max]. rewrite bind_Ok_l. cbv zeta.
  set (new := (λ i, (Z.of_nat i + foldl Z.max i0 ri + 1)%Z)
                <$> seq 0 (length mz)).
  assert (length new = length mz) as Lnew.
  { unfold new. by rewrite length_fmap, length_seq. }
  set (sorted := np_argsort (self_mz_mean self ++ mz)).
  assert (∀ {A} (a : list A), length a = length (self_mz_mean self ++ mz) →
            ∃ r, np_take a sorted = Ok r) as Htake.
  { intros A a La. apply np_take_Ok. rewrite La. apply np_argsort_lt. }
  destruct (Htake _ (self_mz_mean self ++ mz) eq_refl) as [r1 ->].
  rewrite bind_Ok_l.
  destruct (Htake _ ((i0 :: ri) ++ new)) as [r2 ->].
  { rewrite !length_app. simpl in *. lia. }
  rewrite bind_Ok_l.
  destruct (Htake _ (self_n_missing self ++ replicate (length new) 0%Z))
    as [r3 ->].
  { rewrite !length_app, length_replicate. simpl in *. lia. }
  rewrite bind_Ok_l.
  destruct (Htake _ (self_length self ++ replicate (length new) 1%Z))
    as [r4 ->].
  { rewrite !length_app, length_replicate. simpl in *. lia. }
  rewrite bind_Ok_l.
  destruct (Htake _ (self_max_intensity self ++ replicate (length new) 0%Q))
    as [r5 ->].
  { rewrite !length_app, length_replicate. simpl in *. lia. }
  rewrite bind_Ok_l. by eexists.
Qed.

Lemma add_Ok self mz sp targeted :
  consistent self → self_mz_mean self ≠ [] →
  Sorted Qle mz → length sp = length mz →
  policy_ok (self_multiple_match self) (self_mz_reduce self)
    (self_spint_reduce self) →
  ∃ self', add self mz sp targeted = Ok self'.
Proof.
  intros ((S1 & S2 & S3 & S4 & S5) & Hnd & Hok) Hne Hasc Hsp Hpol.
  destruct (match_mz_Ok (self_mz_mean self) mz sp (self_tolerance self) _ _ _
              Hne Hasc Hsp Hpol)
    as (mi & mzm & spm & nm & snm & Hm & Hin & L1 & L2 & _).
  set (n := length (self_roi_index self)) in *.
  assert (∀ {A} (a : list A), length a = n → Forall (λ i, i < length a) mi)
    as Hrange.
  { intros A a La. rewrite La, <-S1. exact Hin. }
  unfold add. rewrite Hm, bind_Ok_l. cbv beta iota.
  destruct (append_samples_Ok (self_roi_index self) (self_index self)
              (zip (zip mi mzm) spm) (self_temp_roi_dict self)) as [d ->].
  { intros k Hk.
    assert (k < n) as Hkn.
    { rewrite Forall_forall in Hin. rewrite <-S1. apply Hin.
      apply list_elem_of_fmap in Hk as ([km ks] & -> & Hk).
      apply list_elem_of_fmap in Hk as ([[k1 k2] k3] & -> & Hk). simpl.
      apply elem_of_zip_l in Hk. by apply elem_of_zip_l in Hk. }
    destruct (lookup_lt_is_Some_2 (self_roi_index self) k) as [id Hid];
      [done|].
    destruct (lookup_lt_is_Some_2 (self_length self) k) as [len Hlen]; [lia|].
    destruct (lookup_lt_is_Some_2 (self_max_intensity self) k) as [mx Hmx];
      [lia|].
    destruct (Hok _ _ _ _ Hid Hlen Hmx) as (t & Ht & _).
    exists id. split; [done|]. by exists t. }
  rewrite bind_Ok_l.
  destruct (np_take_Ok (self_mz_mean self) mi) as [mean_m Hmean];
    [by apply Hrange|].
  rewrite Hmean, bind_Ok_l.
  destruct (np_take_Ok (self_length self) mi) as [len_m Hlen];
    [by apply Hrange|].
  rewrite Hlen, bind_Ok_l.
  pose proof (np_take_length _ _ _ Hmean) as Lmean.
  pose proof (np_take_length _ _ _ Hlen) as Llen.
  rewrite np_zip_same_length, bind_Ok_l by lia.
  rewrite np_zip_same_length, bind_Ok_l by (rewrite length_zip_with; lia).
  rewrite np_zip_same_length, bind_Ok_l by (rewrite !length_zip_with; lia).
  destruct (np_put_Ok (self_length self) mi ((λ n, (n + 1)%Z) <$> len_m))
    as [len Hlenp]; [by rewrite length_fmap|by apply Hrange|].
  rewrite Hlenp, bind_Ok_l.
  pose proof (np_put_length _ _ _ _ Hlenp) as Llenp.
  destruct (np_put_all_Ok ((λ n, (n + 1)%Z) <$> self_n_missing self) mi 0%Z)
    as [nmiss Hnmiss]; [apply Hrange; by rewrite length_fmap|].
  rewrite Hnmiss, bind_Ok_l.
  pose proof (np_put_all_length _ _ _ _ Hnmiss) as Lnmiss.
  rewrite length_fmap in Lnmiss.
  destruct (np_take_Ok (self_max_intensity self) mi) as [max_m Hmax];
    [by apply Hrange|].
  rewrite Hmax, bind_Ok_l.
  pose proof (np_take_length _ _ _ Hmax) as Lmax.
  rewrite np_zip_same_length, bind_Ok_l by lia.
  destruct (np_put_Ok (self_max_intensity self) mi
              (zip_with Qmaximum max_m spm)) as [maxi Hmaxi];
    [rewrite length_zip_with; lia|by apply Hrange|].
  rewrite Hmaxi, bind_Ok_l.
  pose proof (np_put_length _ _ _ _ Hmaxi) as Lmaxi.
  destruct targeted.
  - rewrite bind_Ok_l. by eexists.
  - match goal with |- context [np_put (self_mz_mean self) mi ?u] =>
      destruct (np_put_Ok (self_mz_mean self) mi u) as [mm Hmm]
    end.
    { rewrite !length_zip_with. lia. } { by apply Hrange. }
    rewrite Hmm, bind_Ok_l.
    pose proof (np_put_length _ _ _ _ Hmm) as Lmm.
    match goal with |- context [extend ?s nm snm] =>
      destruct (extend_Ok s nm snm) as [self2 ->]
    end.
    + unfold slots. simpl. fold n. repeat split; lia.
    + simpl. intros E. unfold n in S1. rewrite E in S1. simpl in S1.
      destruct (self_mz_mean self); [done|by simpl in S1].
    + rewrite bind_Ok_l. by eexists.
Qed.

Lemma close_loop_Ok roi_index valid rt mode idxs d roi :
  NoDup idxs → NoDup roi_index →
  (∀ i, i ∈ idxs →
     ∃ id t v, roi_index !! i = Some id ∧ d !! id = Some t ∧
               valid !! i = Some v ∧
               (v = true → is_Ok (tmp_roi_to_roi t rt mode))) →
  ∃ d' roi', close_loop roi_index valid rt mode idxs d roi = Ok (d', roi').
Proof.
  intros Hidx Hnd. revert d roi.
  induction Hidx as [|i idxs Hi Hidx IH]; intros d roi H;
    [by exists d, roi|].
  destruct (H i) as (id & t & v & Hid & Ht & Hv & Hr); [apply list_elem_of_here|].
  cbn [close_loop].
  assert (getitem roi_index i = Ok id) as ->
    by (unfold getitem; by rewrite Hid).
  rewrite bind_Ok_l, Ht.
  assert (getitem valid i = Ok v) as -> by (unfold getitem; by rewrite Hv).
  rewrite bind_Ok_l.
  assert (∀ roi1, ∃ d' roi',
            close_loop roi_index valid rt mode idxs (delete id d) roi1
            = Ok (d', roi')) as Hrest.
  { intros roi1. apply IH. intros i' Hi'.
    destruct (H i') as (id' & t' & v' & Hid' & Ht' & Hv' & Hr');
      [by apply list_elem_of_further|].
    exists id', t', v'. split; [done|]. split; [|done].
    rewrite lookup_delete_ne; [done|]. intros ->.
    assert (i = i') as -> by by eapply (NoDup_lookup roi_index).
    done. }
  destruct v.
  - destruct (Hr eq_refl) as [r ->]. rewrite !bind_Ok_l. apply Hrest.
  - rewrite bind_Ok_l. apply Hrest.
Qed.

Lemma np_where_NoDup (m : list bool) : NoDup (np_where m).
Proof.
  unfold np_where.
  exact (sublist_NoDup _ _ (NoDup_seq 0 (length m)) (select_sublist _ _)).
Qed.

Lemma np_mask_put_all_same_length {A} (a : list A) (m : list bool) (v : A) :
  length m = length a →
  np_mask_put_all a m v
  = Ok (zip_with (λ (b : bool) x, if b then v else x) m a).
Proof. intros L. unfold np_mask_put_all. by rewrite decide_True. Qed.

Lemma append_to_roi_Ok self rt targeted :
  consistent self → valid_mode (self_mode self) →
  (0 < self_min_length self)%Z →
  (targeted = true → self_roi_index self ≠ []) →
  ∃ self', append_to_roi self rt targeted = Ok self'.
Proof.
  intros ((S1 & S2 & S3 & S4 & S5) & Hnd & Hok) Hmode Hmin Hne.
  set (n := length (self_roi_index self)) in *.
  unfold append_to_roi.
  rewrite np_zip_same_length, bind_Ok_l by (rewrite !length_fmap; lia).
  fold (is_valid_roi self). fold (is_completed self).
  assert (length (is_completed self) = n) as Lc.
  { unfold is_completed. by rewrite length_fmap. }
  assert (length (is_valid_roi self) = n) as Lv.
  { unfold is_valid_roi. rewrite length_zip_with, !length_fmap. lia. }
  destruct (close_loop_Ok (self_roi_index self) (is_valid_roi self) rt
              (self_mode self) (np_where (is_completed self))
              (self_temp_roi_dict self) (self_roi self))
    as (d & roi & ->); [apply np_where_NoDup|done| |].
  { intros i Hi%np_where_lookup.
    assert (i < n) as Hin. { rewrite <-Lc. by eapply lookup_lt_Some. }
    destruct (lookup_lt_is_Some_2 (self_roi_index self) i) as [id Hid];
      [done|].
    destruct (lookup_lt_is_Some_2 (self_length self) i) as [len Hlen]; [lia|].
    destruct (lookup_lt_is_Some_2 (self_max_intensity self) i) as [mx Hmx];
      [lia|].
    destruct (lookup_lt_is_Some_2 (is_valid_roi self) i) as [v Hv]; [lia|].
    destruct (Hok _ _ _ _ Hid Hlen Hmx) as (t & Ht & Htok).
    exists id, t, v. repeat split; try done.
    intros ->. apply is_valid_roi_lookup in Hv
      as (len' & mx' & Hlen' & Hl & _ & _).
    assert (len' = len) as -> by congruence.
    destruct Htok as (-> & Lmz & Lscan & Hsorted & _ & _).
    assert (t_scan t ≠ []) as Hscan.
    { intros E. rewrite E in Lscan. simpl in Lscan. rewrite <-Lscan in Hl.
      simpl in Hl. lia. }
    destruct (proj2 (head_is_Some (t_scan t)) Hscan) as [first Hf].
    destruct (proj2 (last_is_Some (t_scan t)) Hscan) as [lst Hla].
    destruct (tmp_roi_to_roi_Ok t rt (self_mode self) first lst Hf Hla Hsorted
                ltac:(lia) ltac:(lia) Hmode) as [m Hm].
    by eexists. }
  rewrite bind_Ok_l. cbv beta iota.
  destruct targeted.
  - rewrite !np_mask_put_all_same_length by lia. rewrite !bind_Ok_l.
    destruct (self_roi_index self) as [|i0 ri] eqn:Eri; [by destruct Hne|].
    cbn [np_max]. rewrite bind_Ok_l. cbv zeta.
    unfold np_mask_put. rewrite decide_True by (simpl in *; lia).
    rewrite decide_True by by rewrite length_fmap, length_seq.
    rewrite bind_Ok_l. by eexists.
  - rewrite !np_mask_same_length by (rewrite length_fmap; lia).
    rewrite !bind_Ok_l. by eexists.
Qed.

Lemma add_settings self mz sp targeted self' :
  add self mz sp targeted = Ok self' → settings self' = settings self.
Proof.
  intros Hadd. apply add_inv in Hadd
    as (mi & mzm & spm & nm & snm & d & mean_m & len_m & max_m & len & nmiss
        & maxi & _ & _ & _ & _ & _ & _ & _ & _ & _ & _ & Hrest).
  cbv zeta in Hrest. destruct targeted.
  - by subst self'.
  - destruct Hrest as (mm & self2 & _ & Hext & ->).
    apply extend_inv in Hext
      as (? & ? & ? & ? & ? & ? & _ & _ & _ & _ & _ & _ & ->). done.
Qed.

Lemma append_to_roi_settings self rt targeted self' :
  append_to_roi self rt targeted = Ok self' → settings self' = settings self.
Proof.
  destruct targeted; intros H.
  - apply append_to_roi_targeted_inv in H
      as (d & roi & mx & _ & _ & _ & _ & _ & ->). done.
  - apply append_to_roi_untargeted_inv in H
      as (d & roi & _ & _ & _ & _ & _ & ->). done.
Qed.

Lemma select_true_nonempty {A} (m : list bool) (a : list A) (j : nat) :
  m !! j = Some true → j < length a → select m a ≠ [].
Proof.
  revert a j. induction m as [|b m IH]; intros [|x a] j Hj Hlt; try done.
  - simpl in Hlt. lia.
  - destruct j as [|j]; simpl in *.
    + by injection Hj as ->.
    + destruct b; [done|]. apply (IH a j); [done|lia].
Qed.

Lemma add_untargeted_fresh self mz sp self' :
  consistent self → self_mz_mean self ≠ [] → Sorted Qle mz →
  length sp = length mz → mz ≠ [] →
  policy_ok (self_multiple_match self) (self_mz_reduce self)
    (self_spint_reduce self) →
  add self mz sp false = Ok self' →
  ∃ j, self_n_missing self' !! j = Some 0%Z.
Proof.
  intros Hc Hne Hasc Hsp Hmz Hpol Hadd.
  destruct (match_mz_Ok (self_mz_mean self) mz sp (self_tolerance self) _ _ _
              Hne Hasc Hsp Hpol)
    as (mi & mzm & spm & nm & snm & Hm & Hin & L1 & L2 & Hsome).
  apply add_inv in Hadd
    as (mi' & mzm' & spm' & nm' & snm' & d & mean_m & len_m & max_m & len
        & nmiss & maxi & Hm' & _ & _ & _ & _ & _ & _ & Hnmiss & _ & _ & Hrest).
  rewrite Hm in Hm'. injection Hm' as <- <- <- <- <-.
  cbv zeta in Hrest. destruct Hrest as (mm & self2 & Hmm & Hext & ->).
  apply extend_inv in Hext
    as (mx & r1 & r2 & r3 & r4 & r5 & _ & T1 & _ & T3 & _ & _ & ->).
  cbv zeta in *. simpl in *.
  destruct Hc as ((S1 & S2 & S3 & S4 & S5) & _ & _).
  pose proof (np_put_all_length _ _ _ _ Hnmiss) as Lnm.
  rewrite length_fmap in Lnm.
  assert (∃ k, (nmiss ++ replicate (length (new_indices_of mx (length nm)))
                            0%Z) !! k = Some 0%Z) as [k Hk].
  { destruct (Hsome Hmz) as [Hmi|Hnm].
    - destruct mi as [|k0 mi]; [done|]. exists k0.
      apply Forall_cons in Hin as [Hk0 _].
      rewrite lookup_app_l by lia.
      rewrite (np_put_all_lookup _ _ _ _ k0 Hnmiss).
      rewrite decide_True; [done|]. split; [apply list_elem_of_here|].
      rewrite length_fmap. lia.
    - exists (length nmiss). rewrite lookup_app_r by lia.
      rewrite Nat.sub_diag. apply lookup_replicate. split; [done|].
      unfold new_indices_of. rewrite length_fmap, length_seq.
      destruct nm; [done|simpl; lia]. }
  pose proof (np_put_length _ _ _ _ Hmm) as Lmm.
  destruct (np_argsort_position (mm ++ nm) k) as [j Hj].
  { apply lookup_lt_Some in Hk. rewrite !length_app in *.
    rewrite length_replicate in Hk. unfold new_indices_of in Hk.
    rewrite length_fmap, length_seq in Hk. lia. }
  exists j. destruct (np_take_lookup _ _ _ _ _ T3 Hj) as [-> _]. done.
Qed.

Lemma settings_inv self self' :
  settings self' = settings self →
  self_mz_reduce self' = self_mz_reduce self ∧
  self_spint_reduce self' = self_spint_reduce self ∧
  self_max_missing self' = self_max_missing self ∧
  self_min_length self' = self_min_length self ∧
  self_multiple_match self' = self_multiple_match self ∧
  self_mode self' = self_mode self.
Proof. unfold settings. intros [= -> -> _ -> -> _ -> ->]. done. Qed.

Lemma scan_ready targeted self rt sp :
  engine_ready targeted self → ascending sp →
  (targeted = false → peaks_mz sp ≠ []) →
  ∃ p1 p2,
    add self (peaks_mz sp) (peaks_spint sp) targeted = Ok p1 ∧
    append_to_roi p1 rt targeted = Ok p2 ∧
    engine_ready targeted p2 ∧ Sorted Qle (self_mz_mean p2).
Proof.
  intros (Hc & Hne & Hs & Hpol & Hmode & Hmin & Hmax) [Hasc Hlen] Hpeaks.
  destruct (add_Ok self (peaks_mz sp) (peaks_spint sp) targeted Hc Hne Hasc
              Hlen Hpol) as [p1 Hadd].
  pose proof (add_consistent _ _ _ _ _ Hc Hadd) as Hc1.
  destruct (settings_inv _ _ (add_settings _ _ _ _ _ Hadd))
    as (E1 & E2 & E3 & E4 & E5 & E6).
  assert (Sorted Qle (self_mz_mean p1)) as Hs1.
  { eapply add_sorted; [exact Hadd|]. destruct targeted; [right|left]; auto. }
  assert (self_mz_mean p1 ≠ [] ∧
          (targeted = false → ∃ j, self_n_missing p1 !! j = Some 0%Z))
    as [Hne1 Hfresh].
  { destruct targeted.
    - split; [|done]. by rewrite (add_targeted_mz_mean _ _ _ _ Hadd).
    - destruct (add_untargeted_fresh _ _ _ _ Hc Hne Hasc Hlen
                  (Hpeaks eq_refl) Hpol Hadd) as [j Hj].
      split; [|by exists j]. intros E.
      destruct Hc1 as ((S1 & _ & S3 & _) & _).
      apply lookup_lt_Some in Hj. rewrite E in S1. simpl in S1. lia. }
  destruct (append_to_roi_Ok p1 rt targeted Hc1) as [p2 Hclose].
  { by rewrite E6. } { by rewrite E4. }
  { intros _ E. destruct Hc1 as ((S1 & _) & _). rewrite E in S1.
    by destruct (self_mz_mean p1). }
  pose proof (append_to_roi_consistent _ _ _ _ Hc1 Hclose) as Hc2.
  destruct (settings_inv _ _ (append_to_roi_settings _ _ _ _ Hclose))
    as (F1 & F2 & F3 & F4 & F5 & F6).
  pose proof (append_to_roi_sorted _ _ _ _ Hclose Hs1) as Hs2.
  exists p1, p2. split; [done|]. split; [done|]. split; [|done].
  split; [done|]. split.
  { destruct targeted.
    - apply append_to_roi_targeted_inv in Hclose
        as (d & roi & mx & _ & _ & _ & _ & _ & ->). done.
    - destruct (Hfresh eq_refl) as [j Hj].
      apply append_to_roi_untargeted_inv in Hclose
        as (d & roi & _ & _ & Lk & _ & _ & ->). simpl.
      apply (select_true_nonempty _ _ j).
      + rewrite list_lookup_fmap, (is_completed_lookup _ _ _ Hj). simpl.
        rewrite bool_decide_eq_false_2; [done|].
        rewrite E3. specialize (Hmax eq_refl). lia.
      + rewrite <-Lk, length_fmap. unfold is_completed. rewrite length_fmap.
        by eapply lookup_lt_Some. }
  split; [done|]. rewrite F5, F1, F2, F6, F4, F3, E5, E1, E2, E6, E4, E3.
  done.
Qed.

Lemma scan_loop_ready msexp start targeted n i p rt :
  engine_ready targeted p → i + n ≤ length rt →
  (∀ k, start + i ≤ k < start + i + n →
     ∃ sp, msexp !! k = Some sp ∧ ascending sp ∧
           (targeted = false → peaks_mz sp ≠ [])) →
  ∃ p' rt',
    scan_loop msexp start targeted (p, rt) (seq (start + i) n) = Ok (p', rt') ∧
    engine_ready targeted p'.
Proof.
  revert i p rt. induction n as [|n IH]; intros i p rt Hr Hlen Hsp.
  - exists p, rt. done.
  - destruct (Hsp (start + i)) as (sp & Hk & Hasc & Hpk); [lia|].
    destruct (scan_ready targeted p (<[i := getRT sp]> rt) sp Hr Hasc Hpk)
      as (p1 & p2 & Hadd & Hclose & Hr2 & Hs2).
    destruct (IH (S i) p2 (<[i := getRT sp]> rt)) as (p' & rt' & Hloop & Hr').
    { done. } { rewrite length_insert. lia. }
    { intros k Hkr. apply Hsp. lia. }
    exists p', rt'. split; [|done].
    cbn [seq scan_loop]. unfold scan_step, getSpectrum.
    assert (getitem msexp (start + i) = Ok sp) as ->
      by (unfold getitem; by rewrite Hk).
    rewrite bind_Ok_l. replace (start + i - start) with i by lia.
    rewrite setitem_in_range by lia. rewrite bind_Ok_l.
    rewrite Hadd, bind_Ok_l, Hclose, bind_Ok_l.
    rewrite (proj2 (diff_nonneg_Sorted _) Hs2). rewrite bind_Ok_l.
    by replace (S (start + i)) with (start + S i) by lia.
Qed.

(** X14: [make_roi] returns, with no exception of any kind, for every
    experiment whose scans in the range have at least one peak, ascending
    m/z values and one intensity for each of them, when the policy is
    [closest], or [reduce] with reducers that are functions or names the
    constructor knows, the mode is one that [Roi] accepts, [min_length] is
    positive, and [max_missing], [max_missing + 1] and [min_length] fit a
    64-bit integer, as the arrays they are stored in and compared with
    require; in untargeted mode the first scan must exist and [max_missing]
    must not be negative; in targeted mode the targets must be a non-empty
    ascending one-dimensional array. *)
Theorem make_roi_returns (msexp : list spectrum) (tolerance : Q)
    (max_missing min_length : Z) (min_intensity : Q) (multiple_match : string)
    (targeted_mz : option ndarray) (start end_ : option nat)
    (mz_reduce sp_reduce : reducer) (mode : option string) :
  let s := default 0 start in
  let e := default (length msexp) end_ in
  s ≤ e → e ≤ length msexp →
  (∀ k sp, s ≤ k < e → msexp !! k = Some sp →
           ascending sp ∧ peaks_mz sp ≠ []) →
  match targeted_mz with
  | None => s < length msexp ∧ (0 ≤ max_missing)%Z
  | Some t => length (shape t) = 1 ∧ data t ≠ [] ∧ Sorted Qle (data t)
  end →
  multiple_match = "closest" ∨
  (multiple_match = "reduce" ∧ known_reducer ["mean"] mz_reduce ∧
   known_reducer ["mean"; "sum"] sp_reduce) →
  valid_mode mode → (0 < min_length)%Z →
  int64 max_missing → int64 (max_missing + 1) → int64 min_length →
  is_Ok (make_roi msexp tolerance max_missing min_length min_intensity
           multiple_match targeted_mz start end_ mz_reduce sp_reduce mode).
Proof.
  intros s e Hse He Hscans Htarget Hpol Hmode Hmin _ _ _.
  assert (∀ k sp, s ≤ k < e → msexp !! k = Some sp → ascending sp) as Hasc.
  { intros k sp Hk Hsp. by apply (Hscans k sp). }
  assert (∀ k sp, s ≤ k < e → msexp !! k = Some sp → peaks_mz sp ≠ [])
    as Hne.
  { intros k sp Hk Hsp. by apply (Hscans k sp). }
  unfold make_roi.
  fold s. fold e.
  set (targeted := match targeted_mz with None => false | Some _ => true end).
  assert (∃ mz_seed,
            match targeted_mz with
            | None => sp ← getSpectrum msexp s; Ok (vector (peaks_mz sp), false)
            | Some t => Ok (t, true)
            end = Ok (mz_seed, targeted) ∧
            length (shape mz_seed) = 1 ∧
            (targeted = true → data mz_seed ≠ [] ∧ Sorted Qle (data mz_seed)) ∧
            (targeted = false → s < e → data mz_seed ≠ []))
    as (mz_seed & -> & Hshape & Hseed_t & Hseed_u).
  { destruct targeted_mz as [t|].
    - destruct Htarget as (H1 & H2 & H3). exists t. repeat split; try done.
    - destruct Htarget as (H1 & _). pose proof Hne as H3.
      destruct (lookup_lt_is_Some_2 msexp s H1) as [sp0 Hsp0].
      exists (vector (peaks_mz sp0)). unfold getSpectrum, getitem.
      rewrite Hsp0. split; [done|]. split; [done|]. split; [done|].
      intros _ Hlt. simpl. apply (H3 s); [lia|done]. }
  rewrite bind_Ok_l. cbv beta iota.
  rewrite decide_False by lia. rewrite bind_Ok_l.
  assert (multiple_match ∈ ["closest"; "reduce"]) as Hmm.
  { destruct Hpol as [->|[-> _]];
      [apply list_elem_of_here|apply list_elem_of_further, list_elem_of_here]. }
  set (mzr := match mz_reduce with ByName "mean" => NpMean | _ => mz_reduce end).
  set (spr := match sp_reduce with
              | ByName "mean" => NpMean
              | ByName "sum" => NpSum
              | _ => sp_reduce
              end).
  assert (policy_ok multiple_match mzr spr) as Hpol'.
  { destruct Hpol as [->|(-> & Hkm & Hks)]; [by left|right].
    split; [done|]. split.
    - unfold mzr. destruct mz_reduce as [nm|f| |]; try done. simpl in Hkm.
      apply list_elem_of_singleton in Hkm as ->. done.
    - unfold spr. destruct sp_reduce as [nm|f| |]; try done. simpl in Hks.
      apply elem_of_cons in Hks as [->|Hks]; [done|].
      apply list_elem_of_singleton in Hks as ->. done. }
  destruct (RoiProcessor_init mz_seed max_missing min_length min_intensity
              tolerance multiple_match mz_reduce sp_reduce mode)
    as [p0|e0] eqn:Hinit.
  2:{ unfold RoiProcessor_init in Hinit.
      rewrite decide_False in Hinit by (intros H; by apply H).
      rewrite decide_False in Hinit by (intros H; by apply H). done. }
  pose proof (init_consistent _ _ _ _ _ _ _ _ _ _ Hinit) as Hc0.
  assert (self_mz_mean p0 = data mz_seed ∧ self_mode p0 = mode ∧
          self_min_length p0 = min_length ∧ self_max_missing p0 = max_missing ∧
          self_multiple_match p0 = multiple_match ∧
          self_mz_reduce p0 = mzr ∧ self_spint_reduce p0 = spr)
    as (I1 & I2 & I3 & I4 & I5 & I6 & I7).
  { unfold RoiProcessor_init in Hinit. repeat case_decide; try done.
    by injection Hinit as <-. }
  rewrite bind_Ok_l.
  assert (∃ p rt',
            scan_loop msexp s targeted (p0, replicate (e - s) 0%Q)
              (arange s e) = Ok (p, rt') ∧
            consistent p ∧ valid_mode (self_mode p) ∧
            (0 < self_min_length p)%Z) as (p & rt' & -> & Hc & Hm & Hl).
  { unfold arange. destruct (decide (s < e)) as [Hlt|Hge].
    - assert (engine_ready targeted p0) as Hr0.
      { split; [done|]. rewrite I1, I2, I3, I4, I5, I6, I7.
        split.
        { destruct targeted eqn:Et; [by apply Hseed_t|by apply Hseed_u]. }
        split; [intros Et; by apply Hseed_t|]. split; [done|].
        split; [done|]. split; [done|].
        intros Et. unfold targeted in Et.
        destruct targeted_mz; [done|]. by destruct Htarget as (_ & ?). }
      destruct (scan_loop_ready msexp s targeted (e - s) 0 p0
                  (replicate (e - s) 0%Q) Hr0) as (p & rt' & Hloop & Hr).
      { rewrite length_replicate. lia. }
      { intros k Hk.
        destruct (lookup_lt_is_Some_2 msexp k) as [sp Hsp]; [lia|].
        exists sp. split; [done|]. split; [apply (Hasc k); [lia|done]|].
        intros Et. unfold targeted in Et.
        destruct targeted_mz; [done|]. pose proof Hne as H3.
        apply (H3 k); [lia|done]. }
      rewrite Nat.add_0_r in Hloop. exists p, rt'. split; [done|].
      destruct Hr as (? & _ & _ & _ & ? & ? & _). done.
    - replace (e - s) with 0 by lia. exists p0, []. simpl.
      split; [done|]. rewrite I2, I3. done. }
  rewrite bind_Ok_l. cbv beta iota.
  destruct (append_to_roi_Ok (flag_as_completed p) rt' false) as [p' ->];
    [by apply flag_as_completed_consistent|done|done|done|].
  rewrite bind_Ok_l. by eexists.
Qed.

(** X15: in every state of the engine, the five parallel arrays have the
    same length, the identities of the open traces are pairwise distinct,
    and every open trace has an entry in the table whose three sample lists
    have [length[i]] entries each, with strictly increasing scan numbers
    below the scan counter, and [max_intensity[i]] is zero or one of the
    recorded intensities. *)
Theorem reachable_consistent (self : RoiProcessor) :
  reachable self →
  slots self (length (self_roi_index self)) ∧
  NoDup (self_roi_index self) ∧
  ∀ i id, self_roi_index self !! i = Some id →
    ∃ t len maxi,
      self_temp_roi_dict self !! id = Some t ∧
      self_length self !! i = Some len ∧
      self_max_intensity self !! i = Some maxi ∧
      len = Z.of_nat (length (t_sp t)) ∧
      length (t_mz t) = length (t_sp t) ∧
      length (t_scan t) = length (t_sp t) ∧
      StronglySorted lt (t_scan t) ∧
      Forall (λ s, s < self_index self) (t_scan t) ∧
      (maxi = 0%Q ∨ maxi ∈ t_sp t).
Proof.
  intros Hr.
  assert (consistent self) as ((S1 & S2 & S3 & S4 & S5) & Hnd & Hok).
  { induction Hr.
    - by eapply init_consistent.
    - by eapply add_consistent.
    - by eapply append_to_roi_consistent.
    - by apply flag_as_completed_consistent. }
  split; [done|]. split; [done|].
  intros i id Hid. pose proof (lookup_lt_Some _ _ _ Hid) as Hlt.
  destruct (lookup_lt_is_Some_2 (self_length self) i) as [len Hlen]; [lia|].
  destruct (lookup_lt_is_Some_2 (self_max_intensity self) i) as [mx Hmx];
    [lia|].
  destruct (Hok _ _ _ _ Hid Hlen Hmx) as (t & Ht & Htok).
  exists t, len, mx. by repeat split; try apply Htok.
Qed.

(** A mask without [True] selects nothing. *)
Lemma select_all_false {A} (m : list bool) (a : list A) :
  Forall (λ b, b = false) m → select m a = [].
Proof.
  intros H. revert a. induction H as [|b m -> _ IH]; intros [|x a]; try done.
  simpl. apply IH.
Qed.

(** X16: [flag_as_completed] marks every open trace as completed: the
    untargeted finalize pass that follows it, as at the end of [make_roi],
    leaves no active trace, so that every later untargeted [add] raises. *)
Theorem flush_empties (self self' : RoiProcessor) (rt : list Q) :
  append_to_roi (flag_as_completed self) rt false = Ok self' →
  self_mz_mean self' = [] ∧ self_roi_index self' = [] ∧
  self_n_missing self' = [] ∧ self_max_intensity self' = [] ∧
  self_length self' = [] ∧
  ∀ mz sp, is_Raise (add self' mz sp false).
Proof.
  intros H. apply append_to_roi_untargeted_inv in H
    as (d & roi & _ & _ & _ & _ & _ & ->).
  assert (Forall (λ b, b = false)
            (negb <$> is_completed (flag_as_completed self))) as Hall.
  { unfold is_completed, flag_as_completed. simpl.
    rewrite <-!list_fmap_compose. apply Forall_fmap, Forall_forall.
    intros n _. simpl. rewrite bool_decide_eq_true_2 by lia. done. }
  unfold with_arrays, with_stores. simpl.
  rewrite !(select_all_false _ _ Hall).
  repeat split; try done.
  intros mz sp. by apply add_empty_raises.
Qed.

(** X17: [add] moves the scan counter on by one and counts the misses:
    the trace at position [k] is found again with the same identity, with
    a missing count of zero when it was matched and one more than before
    when it was not; in targeted mode it stays at position [k]. *)
Theorem add_counts_misses (self self' : RoiProcessor) (mz sp : list Q)
    (targeted : bool) match_index mz_match sp_match mz_no_match sp_no_match :
  consistent self →
  _match_mz (self_mz_mean self) mz sp (self_tolerance self)
    (self_multiple_match self) (self_mz_reduce self) (self_spint_reduce self)
  = Ok (match_index, mz_match, sp_match, mz_no_match, sp_no_match) →
  add self mz sp targeted = Ok self' →
  self_index self' = self_index self + 1 ∧
  ∀ k id missing,
    self_roi_index self !! k = Some id →
    self_n_missing self !! k = Some missing →
    ∃ j, (targeted = true → j = k) ∧
         self_roi_index self' !! j = Some id ∧
         self_n_missing self' !! j
         = Some (if decide (k ∈ match_index) then 0 else missing + 1)%Z.
Proof.
  intros ((S1 & S2 & S3 & S4 & S5) & _ & _) Hm Hadd.
  split; [by eapply add_index|].
  intros k id n Hid Hn.
  apply add_inv in Hadd
    as (mi & mzm & spm & nm & snm & d & mean_m & len_m & max_m & len & nmiss
        & maxi & Hm' & _ & _ & _ & _ & _ & _ & Hnmiss & _ & _ & Hrest).
  rewrite Hm in Hm'. injection Hm' as <- <- <- <- <-.
  pose proof (lookup_lt_Some _ _ _ Hid) as Hlt.
  assert (nmiss !! k
          = Some (if decide (k ∈ match_index) then 0 else n + 1)%Z) as Ek.
  { rewrite (np_put_all_lookup _ _ _ _ k Hnmiss).
    rewrite length_fmap, list_lookup_fmap, Hn. simpl.
    destruct (decide (k ∈ match_index)) as [Hin|Hin].
    - rewrite decide_True; [done|]. split; [done|lia].
    - rewrite decide_False; [done|]. by intros [? _]. }
  cbv zeta in Hrest. destruct targeted.
  - subst self'. exists k. simpl. done.
  - destruct Hrest as (mm & self2 & Hmm & Hext & ->).
    apply extend_inv in Hext
      as (mx & r1 & r2 & r3 & r4 & r5 & _ & _ & T2 & T3 & _ & _ & ->).
    simpl in *. pose proof (np_put_length _ _ _ _ Hmm) as Lmm.
    destruct (np_argsort_position (mm ++ mz_no_match) k) as [j Hj].
    { rewrite length_app. lia. }
    exists j. split; [done|].
    destruct (np_take_lookup _ _ _ _ _ T2 Hj) as [-> _].
    destruct (np_take_lookup _ _ _ _ _ T3 Hj) as [-> _].
    rewrite !lookup_app_l; eauto using lookup_lt_Some.
Qed.

(** X18: a finalize pass raises when it closes a trace that has no sample
    and passes the validity test, which needs [min_length <= 0] and a
    [min_intensity] that is not above its [max_intensity]: the conversion
    to a ROI reads the first scan of an empty list.  A target that was
    never matched is such a trace. *)
Theorem append_to_roi_empty_trace_raises (self : RoiProcessor) (rt : list Q)
    (targeted : bool) (i : nat) (missing : Z) (maxi : Q) :
  consistent self →
  self_n_missing self !! i = Some missing →
  (self_max_missing self < missing)%Z →
  self_length self !! i = Some 0%Z →
  self_max_intensity self !! i = Some maxi →
  (self_min_length self ≤ 0)%Z → (self_min_intensity self <= maxi)%Q →
  is_Raise (append_to_roi self rt targeted).
Proof.
  intros Hc Hn Hmiss Hlen Hmx Hmin Hint.
  destruct (append_to_roi self rt targeted) as [self'|e] eqn:E;
    [exfalso|by exists e].
  destruct (append_to_roi_emits _ _ _ _ E) as (_ & emitted & _ & Hem).
  assert (i ∈ closed_valid self) as Hi.
  { unfold closed_valid. apply list_elem_of_filter. split.
    - apply is_valid_roi_lookup. by exists 0%Z, maxi.
    - apply np_where_lookup. rewrite (is_completed_lookup _ _ _ Hn).
      by rewrite bool_decide_eq_true_2. }
  apply list_elem_of_lookup in Hi as [t Ht].
  destruct (Forall2_lookup_l _ _ _ _ _ Hem Ht) as (r & _ & Hr).
  destruct Hr as (missing' & len' & maxi' & id & tmp_roi & _ & _ & Hlen' & _
                  & Hmx' & _ & Hid & Hd & Hroi).
  destruct Hc as (_ & _ & Hok).
  destruct (Hok _ _ _ _ Hid Hlen' Hmx') as (t' & Ht' & Htok).
  assert (t' = tmp_roi) as -> by congruence.
  assert (len' = 0%Z) as -> by congruence.
  destruct Htok as (Hl & _ & Lscan & _).
  destruct (tmp_roi_to_roi_inv _ _ _ _ Hroi) as (_ & first & lst & Hf & _).
  destruct (t_scan tmp_roi); [done|]. simpl in Lscan. lia.
Qed.

(** ** Targeted runs *)

Lemma add_targeted_roi_index self mz sp self' :
  add self mz sp true = Ok self' → self_roi_index self' = self_roi_index self.
Proof.
  intros H. apply add_inv in H
    as (mi & mzm & spm & nm & snm & d & mean_m & len_m & max_m & len & nmiss
        & maxi & _ & _ & _ & _ & _ & _ & _ & _ & _ & _ & ->).
  done.
Qed.

Lemma scan_loop_targeted_run self0 msexp start scans st st' :
  targeted_run self0 st.1 →
  scan_loop msexp start true st scans = Ok st' → targeted_run self0 st'.1.
Proof.
  revert st. induction scans as [|k scans IH]; simpl; intros st Hrun H.
  - by injection H as <-.
  - apply bind_Ok in H as (st1 & H1 & H). apply (IH st1); [|done].
    destruct st as [p rt].
    apply scan_step_inv in H1
      as (sp & rt1 & p1 & p2 & _ & _ & Hadd & Hclose & _ & ->).
    simpl in *. eapply run_close; [|exact Hclose].
    eapply run_add; [exact Hrun|exact Hadd].
Qed.

Lemma flush_slots self rt self' :
  append_to_roi (flag_as_completed self) rt false = Ok self' → slots self' 0.
Proof.
  intros H. apply append_to_roi_untargeted_inv in H
    as (d & roi & _ & _ & _ & _ & _ & ->).
  assert (Forall (λ b, b = false)
            (negb <$> is_completed (flag_as_completed self))) as Hall.
  { unfold is_completed, flag_as_completed. simpl.
    rewrite <-!list_fmap_compose. apply Forall_fmap, Forall_forall.
    intros n _. simpl. rewrite bool_decide_eq_true_2 by lia. done. }
  unfold with_arrays, with_stores, slots. simpl.
  by rewrite !(select_all_false _ _ Hall).
Qed.

(** C6: in targeted mode, with a seed of [n] target masses, the five
    parallel arrays keep exactly [n] entries after every [add] and every
    [append_to_roi] of the scan loop, which are the calls with
    [targeted = True]; [add] spawns nothing: it leaves the identities and
    the mean masses as they are; and a finalize pass resets each closed
    slot in place (missing count, length and maximum intensity zero, a
    fresh identity bound to an empty [TempRoi]) and leaves the other slots
    as they are.  The last finalize pass of [make_roi], after
    [flag_as_completed], is called without [targeted]: it removes every
    slot. *)
Theorem targeted_slot_count mz_seed max_missing min_length min_intensity
    tolerance multiple_match mz_reduce sp_reduce mode self0 self :
  RoiProcessor_init mz_seed max_missing min_length min_intensity tolerance
    multiple_match mz_reduce sp_reduce mode = Ok self0 →
  targeted_run self0 self →
  let n := length (data mz_seed) in
  slots self n ∧
  (∀ mz sp self', add self mz sp true = Ok self' →
     slots self' n ∧ self_roi_index self' = self_roi_index self ∧
     self_mz_mean self' = self_mz_mean self) ∧
  (∀ rt self', append_to_roi self rt true = Ok self' →
     slots self' n ∧
     (∀ i missing, self_n_missing self !! i = Some missing →
        if bool_decide (self_max_missing self < missing)%Z
        then slot_reset self self' i else slot_kept self self' i)) ∧
  (∀ msexp start rt scans self' rt',
     scan_loop msexp start true (self, rt) scans = Ok (self', rt') →
     targeted_run self0 self' ∧ slots self' n) ∧
  (∀ rt self', append_to_roi (flag_as_completed self) rt false = Ok self' →
     slots self' 0).
Proof.
  intros Hinit Hrun n.
  pose proof (init_slots _ _ _ _ _ _ _ _ _ _ Hinit) as H0.
  assert (slots self n) as Hs by (by eapply targeted_run_slots).
  split; [done|]. split; [|split; [|split]].
  - intros mz sp self' H. split; [by eapply add_targeted_slots|].
    split; [by eapply add_targeted_roi_index|by eapply add_targeted_mz_mean].
  - intros rt self' H. split; [by eapply append_to_roi_targeted_slots|].
    intros i missing Hi. by eapply append_to_roi_targeted_slot.
  - intros msexp start rt scans self' rt' Hloop.
    pose proof (scan_loop_targeted_run self0 msexp start scans (self, rt)
                  (self', rt') Hrun Hloop) as Hrun'.
    split; [done|]. by eapply targeted_run_slots.
  - intros rt self' H. by eapply flush_slots.
Qed.

(** ** The theorems on concrete runs *)

Lemma sorted_100_200 : Sorted Qle [100; 200]%Q.
Proof. repeat constructor. by vm_compute. Defined.

Lemma mz_mean_sorted_every_scan_witness :
  ∃ self0 self rt,
    Sorted Qle (data (vector [100; 200]%Q)) ∧
    mean_sum_processor [100; 200]%Q 1 0 = Ok self0 ∧
    scan_loop demo_msexp 0 false (self0, [0; 0; 0]%Q) [0; 1; 2]
    = Ok (self, rt) ∧
    Sorted Qle (self_mz_mean self).
Proof.
  do 3 eexists.
  split; [exact sorted_100_200|].
  match goal with |- ?init = Ok ?s0 ∧ _ =>
    assert (init = Ok s0) as H0 by (vm_compute; reflexivity)
  end.
  split; [exact H0|].
  match goal with |- ?loop = Ok (?s, ?rt) ∧ _ =>
    assert (loop = Ok (s, rt)) as H1 by (vm_compute; reflexivity)
  end.
  split; [exact H1|].
  exact (proj1 (mz_mean_sorted_every_scan (vector [100; 200]%Q) _ _ _ _ _ _ _
                  _ _ _ _ _ _ _ _ _ sorted_100_200 H0 H1)).
Defined.



Lemma add_running_mean_witness :
  ∃ self self',
    (p ← mean_sum_processor [100%Q] 1 0; add p [100%Q] [5%Q] false) = Ok self ∧
    _match_mz (self_mz_mean self) [100002 # 1000]%Q [6%Q] (self_tolerance self)
      (self_multiple_match self) (self_mz_reduce self) (self_spint_reduce self)
    = Ok ([0], [100002 # 1000]%Q, [6%Q], [], []) ∧
    add self [100002 # 1000]%Q [6%Q] false = Ok self' ∧
    ∃ j mean, self_mz_mean self !! 0 = Some mean ∧
              self_roi_index self' !! j = Some 0%Z ∧
              self_length self' !! j = Some (1 + 1)%Z ∧
              self_mz_mean self' !! j
              = Some ((mean * inject_Z 1 + (100002 # 1000)) / inject_Z (1 + 1))%Q.
Proof.
  do 2 eexists.
  split; [vm_compute; reflexivity|].
  split; [vm_compute; reflexivity|].
  split; [vm_compute; reflexivity|].
  match goal with |- ∃ j mean, self_mz_mean ?s !! 0 = _ ∧
                          self_roi_index ?s' !! _ = _ ∧ _ =>
    assert (_match_mz (self_mz_mean s) [100002 # 1000]%Q [6%Q]
              (self_tolerance s) (self_multiple_match s) (self_mz_reduce s)
              (self_spint_reduce s)
            = Ok ([0], [100002 # 1000]%Q, [6%Q], [], [])) as Hm
      by (vm_compute; reflexivity);
    assert (add s [100002 # 1000]%Q [6%Q] false = Ok s') as Hadd
      by (vm_compute; reflexivity);
    pose proof (add_running_mean s s' _ _ false _ _ _ _ _ Hm Hadd) as Hmean
  end.
  cbv beta iota in Hmean.
  edestruct (Hmean 0 0 (100002 # 1000)%Q) as (j & H1 & H2 & H3);
    [reflexivity..|].
  exists j. eexists. split; [reflexivity|]. split; [exact H1|].
  split; [exact H2|exact H3].
Defined.

Lemma closest_policy_witness :
  ∃ self,
    mean_sum_processor [100%Q] 1 0 = Ok self ∧
    self_multiple_match self = "closest" ∧ self_mz_mean self ≠ [] ∧
    Sorted Qle [100001 # 1000; 100004 # 1000]%Q ∧
    length [10; 20]%Q = length [100001 # 1000; 100004 # 1000]%Q ∧
    ∃ match_index mz_match sp_match mz_no_match sp_no_match,
      _match_mz (self_mz_mean self) [100001 # 1000; 100004 # 1000]%Q
        [10; 20]%Q (self_tolerance self) (self_multiple_match self)
        (self_mz_reduce self) (self_spint_reduce self)
      = Ok (match_index, mz_match, sp_match, mz_no_match, sp_no_match) ∧
      NoDup match_index.
Proof.
  eexists.
  split; [vm_compute; reflexivity|].
  assert (Sorted Qle [100001 # 1000; 100004 # 1000]%Q) as Hs
    by (repeat constructor; by vm_compute).
  split; [reflexivity|]. split; [by intros [=]|]. split; [exact Hs|].
  split; [reflexivity|].
  match goal with |- ∃ _ _ _ _ _, _match_mz (self_mz_mean ?s) _ _ _ _ _ _ = _ ∧ _ =>
    destruct (closest_policy s [100001 # 1000; 100004 # 1000]%Q [10; 20]%Q
                eq_refl ltac:(by intros [=]) Hs eq_refl)
      as (mi & mzm & spm & nm & snm & Heq & Hnd & _)
  end.
  by exists mi, mzm, spm, nm, snm.
Defined.

Lemma targeted_slot_count_witness :
  ∃ self0 self1 self u,
    RoiProcessor_init (vector [100; 200]%Q) 0 1 0 (5 # 1000) "closest"
      (ByName "mean") (ByName "sum") None = Ok self0 ∧
    add self0 [100; 150]%Q [7; 9]%Q true = Ok self1 ∧
    add self0 [100; 150]%Q [7; 9]%Q false = Ok u ∧ slots u 3 ∧
    is_completed self1 = [false; true] ∧
    append_to_roi self1 [1%Q] true = Ok self ∧
    targeted_run self0 self1 ∧
    slots self1 2 ∧ slots self 2 ∧
    slot_kept self1 self 0 ∧ slot_reset self1 self 1.
Proof.
  do 4 eexists.
  match goal with |- ?i = Ok ?s0 ∧ _ =>
    assert (i = Ok s0) as Hinit by (vm_compute; reflexivity)
  end.
  split; [exact Hinit|].
  match goal with |- ?a = Ok ?s1 ∧ _ =>
    assert (a = Ok s1) as Hadd by (vm_compute; reflexivity)
  end.
  split; [exact Hadd|].
  split; [vm_compute; reflexivity|].
  split; [by vm_compute|].
  split; [vm_compute; reflexivity|].
  match goal with |- ?c = Ok ?s ∧ _ =>
    assert (c = Ok s) as Hclose by (vm_compute; reflexivity)
  end.
  split; [exact Hclose|].
  pose proof (run_add _ _ _ _ _ (run_start _) Hadd) as Hrun.
  split; [exact Hrun|].
  destruct (targeted_slot_count _ _ _ _ _ _ _ _ _ _ _ Hinit Hrun)
    as (Hs1 & _ & Hpass & _).
  destruct (Hpass _ _ Hclose) as [Hs Hslot].
  split; [exact Hs1|]. split; [exact Hs|].
  split; [exact (Hslot 0 0%Z eq_refl)|exact (Hslot 1 1%Z eq_refl)].
Defined.

(** A targeted run of [make_roi] on two targets: two slots after the scan
    loop, none after the last finalize pass. *)
Lemma targeted_final_pass_removes_slots :
  ∃ self0 self rt self',
    RoiProcessor_init (vector [100; 200]%Q) 1 1 0 (5 # 1000) "closest"
      (ByName "mean") (ByName "sum") None = Ok self0 ∧
    scan_loop demo_msexp 0 true (self0, replicate 3 0%Q) (arange 0 3)
    = Ok (self, rt) ∧
    slots self 2 ∧
    append_to_roi (flag_as_completed self) rt false = Ok self' ∧
    make_roi demo_msexp (5 # 1000) 1 1 0 "closest"
      (Some (vector [100; 200]%Q)) None None (ByName "mean") (ByName "sum")
      None = Ok (self_roi self') ∧
    slots self' 0 ∧ length (data (vector [100; 200]%Q)) = 2.
Proof.
  do 4 eexists.
  split; [vm_compute; reflexivity|].
  split; [vm_compute; reflexivity|].
  split; [by vm_compute|].
  split; [vm_compute; reflexivity|].
  split; [vm_compute; reflexivity|].
  split; [by vm_compute|done].
Qed.

Lemma tmp_roi_to_roi_dense_witness :
  let tmp_roi := mkTempRoi [100; 100002 # 1000]%Q [5; 7]%Q [3; 5] in
  head (t_scan tmp_roi) = Some 3 ∧ last (t_scan tmp_roi) = Some 5 ∧
  StronglySorted lt (t_scan tmp_roi) ∧
  length (t_mz tmp_roi) = length (t_scan tmp_roi) ∧
  length (t_sp tmp_roi) = length (t_scan tmp_roi) ∧
  valid_mode None ∧
  ∃ roi, tmp_roi_to_roi tmp_roi [10; 11; 12; 13; 14; 15; 16]%Q None = Ok roi ∧
         length (roi_mz roi) = 5 - 3 + 1 ∧
         roi_rt roi = [13; 14; 15]%Q.
Proof.
  intros tmp_roi.
  assert (StronglySorted lt (t_scan tmp_roi)) as Hs.
  { repeat constructor; simpl; lia. }
  split; [reflexivity|]. split; [reflexivity|]. split; [exact Hs|].
  split; [reflexivity|]. split; [reflexivity|]. split; [exact I|].
  destruct (tmp_roi_to_roi_dense tmp_roi [10; 11; 12; 13; 14; 15; 16]%Q None
              3 5 eq_refl eq_refl Hs eq_refl eq_refl I)
    as (roi & Hroi & Hlen & _ & _ & _ & Hrt & _).
  exists roi. split; [exact Hroi|]. split; [exact Hlen|exact Hrt].
Defined.

Lemma add_after_emptied_raises_witness :
  ∃ self self',
    flag_as_completed <$> (match mean_sum_processor [100%Q] 1 0 with
                           | Ok p => Some p | Raise _ => None end)
    = Some self ∧
    append_to_roi self [] false = Ok self' ∧
    active_count self' = 0 ∧
    is_Raise (add self' [100%Q] [5%Q] false) ∧
    extend self' [100%Q] [5%Q] = Raise ValueError.
Proof.
  do 2 eexists.
  split; [vm_compute; reflexivity|].
  match goal with |- append_to_roi ?s _ _ = Ok ?s' ∧ _ =>
    assert (append_to_roi s [] false = Ok s') as H
      by (vm_compute; reflexivity);
    assert (active_count s' = 0) as H0 by reflexivity;
    exact (conj H (conj H0
             (add_after_emptied_raises s s' [] [100%Q] [5%Q] H H0)))
  end.
Defined.

Lemma Roi_mode_has_cwt_params_witness :
  Roi_init [] [] [] 0 None = Ok (mkRoi [] [] [] 0 "uplc") ∧
  is_Ok (get_lc_cwt_params "uplc") ∧ is_Ok (make_widths_lc "uplc").
Proof.
  split; [reflexivity|].
  exact (Roi_mode_has_cwt_params [] [] [] 0 None (mkRoi [] [] [] 0 "uplc")
           eq_refl).
Defined.

Lemma find_peaks_needs_qtof_witness :
  "orbitrap" ≠ "qtof" ∧
  MSSpectrum_find_peaks (Peak := unit) (λ _ _ _ _, Ok [])
    (mkMSSpectrum [100%Q] [5%Q] None "orbitrap") "orbitrap" None
  = Raise ValueError.
Proof.
  assert ("orbitrap" ≠ "qtof") as H by discriminate.
  split; [exact H|].
  exact (proj1 (find_peaks_needs_qtof (λ _ _ _ _, Ok [])
                  (mkMSSpectrum [100%Q] [5%Q] None "orbitrap") "orbitrap" None
                  H)).
Defined.

Lemma isotopes_within_tolerance_witness :
  1%Z ≠ 0%Z ∧
  find_isotopic_distribution_aux closest_one demo_peaks 100 1 3 (5 # 1000)
  = Ok [0; 2; 3] ∧
  length [0; 2; 3] ≤ Z.to_nat 3.
Proof.
  assert (1%Z ≠ 0%Z) as H by discriminate.
  assert (find_isotopic_distribution_aux closest_one demo_peaks 100 1 3
            (5 # 1000) = Ok [0; 2; 3]) as H' by (vm_compute; reflexivity).
  split; [exact H|]. split; [exact H'|].
  exact (proj1 (isotopes_within_tolerance closest_one demo_peaks 100 1 3
                  (5 # 1000) [0; 2; 3] H H')).
Defined.

Lemma largest_charge_wins_witness :
  find_isotopic_distribution_aux closest_one demo_peaks 100 1 3 (5 # 1000)
  = Ok [0; 2; 3] ∧
  find_isotopic_distribution closest_one demo_peaks 100 3 3 (5 # 1000)
  = Ok [0] ∧
  ((3 ≤ 0)%Z → [0] = @nil nat).
Proof.
  assert (find_isotopic_distribution closest_one demo_peaks 100 3 3
            (5 # 1000) = Ok [0]) as H by (vm_compute; reflexivity).
  split; [vm_compute; reflexivity|]. split; [exact H|].
  exact (proj1 (largest_charge_wins closest_one demo_peaks 100 3 3
                  (5 # 1000) [0] H)).
Defined.

Lemma eic_msexp_peaks :
  Forall (λ sp, peaks_spint sp ≠ []) (take (default (length eic_msexp) None)
                                         eic_msexp).
Proof. repeat constructor; discriminate. Defined.

Lemma chromatogram_window_sum_witness :
  ∃ rt eic,
    chromatogram eic_msexp [100; 200; 300]%Q 2 None None "sum" = Ok (rt, eic) ∧
    length rt = 3 ∧ length eic = 3.
Proof.
  destruct (chromatogram_window_sum eic_msexp [100; 200; 300]%Q 2 None None
              eq_refl (le_n 3) eic_msexp_peaks)
    as (rt & eic & H & Lrt & Leic & _).
  exists rt, eic. split; [exact H|]. split; [exact Lrt|exact Leic].
Defined.

Lemma chromatogram_misses_last_peak_witness :
  ∃ rt eic,
    chromatogram eic_msexp [100; 200; 300]%Q 2 (Some 0) None "sum"
    = Ok (rt, eic).
Proof.
  destruct (chromatogram_misses_last_peak eic_msexp [100; 200; 300]%Q 2
              (Some 0) None eq_refl (le_n 3) eic_msexp_peaks)
    as (rt & eic & H & _).
  exists rt, eic. exact H.
Defined.

Lemma chromatogram_offset_raises_witness :
  0 < 1 ∧ 1 < 3 ∧
  chromatogram eic_msexp [100; 200; 300]%Q 2 (Some 1) None "sum"
  = Raise IndexError.
Proof.
  split; [exact (le_n 1)|]. split; [exact (le_S 2 2 (le_n 2))|].
  exact (chromatogram_offset_raises eic_msexp [100; 200; 300]%Q 2 1 None "sum"
           (le_n 1) (le_S 2 2 (le_n 2)) (le_n 3) (list_elem_of_here _ _)).
Defined.

Lemma make_roi_valid_witness :
  ∃ rois,
    make_roi demo_msexp (5 # 1000) 1 2 5 "closest" None None None
      (ByName "mean") (ByName "sum") None = Ok rois ∧
    rois ≠ [] ∧ Forall (roi_valid 2 5) rois.
Proof.
  eexists.
  match goal with |- ?run = Ok ?r ∧ _ =>
    assert (run = Ok r) as H by (vm_compute; reflexivity);
    pose proof (make_roi_valid _ _ _ _ _ _ _ _ _ _ _ _ _ H) as Hv
  end.
  split; [exact H|]. split; [discriminate|exact Hv].
Defined.

Lemma make_roi_aligned_witness :
  ∃ rois,
    make_roi demo_msexp (5 # 1000) 1 1 0 "reduce" None (Some 1) None
      (ByName "mean") (ByName "sum") None = Ok rois ∧
    Forall (roi_aligned demo_msexp 1) rois.
Proof.
  eexists.
  match goal with |- ?run = Ok ?r ∧ _ =>
    assert (run = Ok r) as H by (vm_compute; reflexivity);
    exact (conj H (make_roi_aligned _ _ _ _ _ _ _ _ _ _ _ _ _ H))
  end.
Defined.

Lemma sorted_two_peaks : Sorted Qle [100001 # 1000; 100004 # 1000]%Q.
Proof. repeat constructor. by vm_compute. Defined.

Lemma reduce_policy_witness :
  ∃ self match_index mz_match sp_match mz_no_match sp_no_match,
    RoiProcessor_init (vector [100%Q]) 1 1 0 (5 # 1000) "reduce"
      (ByName "mean") (ByName "sum") None = Ok self ∧
    _match_mz (self_mz_mean self) [100001 # 1000; 100004 # 1000]%Q [10; 20]%Q
      (self_tolerance self) (self_multiple_match self) (self_mz_reduce self)
      (self_spint_reduce self)
    = Ok (match_index, mz_match, sp_match, mz_no_match, sp_no_match) ∧
    NoDup match_index.
Proof.
  eexists.
  match goal with |- ∃ _ _ _ _ _, ?init = Ok ?s ∧ _ =>
    assert (init = Ok s) as H0 by (vm_compute; reflexivity)
  end.
  match type of H0 with _ = Ok ?s =>
    destruct (reduce_policy s [100001 # 1000; 100004 # 1000]%Q [10; 20]%Q
                eq_refl ltac:(discriminate) sorted_two_peaks eq_refl I I)
      as (mi & mzm & spm & H & Hnd & _)
  end.
  exists mi, mzm, spm. do 2 eexists.
  split; [exact H0|]. split; [exact H|exact Hnd].
Defined.

Lemma demo_msexp_ascending (k : nat) (sp : spectrum) :
  0 ≤ k < 3 → demo_msexp !! k = Some sp → ascending sp ∧ peaks_mz sp ≠ [].
Proof.
  intros _ H. destruct k as [|[|[|k]]]; simpl in H; try discriminate H;
    injection H as <-; (split; [split; [|reflexivity]|discriminate]);
    repeat constructor; by vm_compute.
Qed.

Lemma make_roi_returns_witness :
  is_Ok (make_roi demo_msexp (5 # 1000) 1 1 0 "closest" None None None
           (ByName "mean") (ByName "sum") None).
Proof.
  apply (make_roi_returns demo_msexp (5 # 1000) 1 1 0 "closest" None None None
           (ByName "mean") (ByName "sum") None).
  - simpl. lia.
  - simpl. lia.
  - intros k sp Hk Hsp. exact (demo_msexp_ascending k sp Hk Hsp).
  - split; [simpl; lia|lia].
  - left. reflexivity.
  - exact I.
  - lia.
  - unfold int64. lia.
  - unfold int64. lia.
  - unfold int64. lia.
Defined.

(** The demo state is a state of the engine. *)
Lemma demo_state_reachable (self : RoiProcessor) :
  demo_state = Ok self → reachable self.
Proof.
  unfold demo_state, mean_sum_processor. intros H.
  apply bind_Ok in H as (p0 & H0 & H). apply bind_Ok in H as (p1 & H1 & H).
  apply bind_Ok in H as (p2 & H2 & H).
  eapply reach_add; [|exact H]. eapply reach_add; [|exact H2].
  eapply reach_add; [|exact H1]. by eapply reach_init.
Qed.

Lemma reachable_consistent_witness :
  ∃ self,
    demo_state = Ok self ∧ reachable self ∧
    slots self (length (self_roi_index self)) ∧
    NoDup (self_roi_index self).
Proof.
  eexists.
  match goal with |- ?st = Ok ?s ∧ _ =>
    assert (st = Ok s) as Hs by (vm_compute; reflexivity);
    pose proof (demo_state_reachable s Hs) as Hr;
    destruct (reachable_consistent s Hr) as (A & B & _);
    exact (conj Hs (conj Hr (conj A B)))
  end.
Defined.

Lemma flush_empties_witness :
  ∃ self self',
    demo_state = Ok self ∧
    append_to_roi (flag_as_completed self) [1; 2; 3]%Q false = Ok self' ∧
    self_roi_index self ≠ [] ∧ self_roi_index self' = [] ∧
    self_mz_mean self' = [] ∧
    is_Raise (add self' [100%Q] [7%Q] false).
Proof.
  do 2 eexists.
  split; [vm_compute; reflexivity|].
  match goal with |- append_to_roi ?s ?rt false = Ok ?s' ∧ _ =>
    assert (append_to_roi s rt false = Ok s') as H
      by (vm_compute; reflexivity);
    destruct (flush_empties _ _ _ H) as (A & B & _ & _ & _ & C)
  end.
  split; [exact H|]. split; [by vm_compute|].
  split; [exact B|]. split; [exact A|]. apply C.
Defined.

(** The state after the first scan of the demo run is consistent. *)
Lemma two_traces_consistent (self : RoiProcessor) :
  (p ← mean_sum_processor [100; 200]%Q 1 0;
   add p [100; 200]%Q [7; 9]%Q false) = Ok self →
  consistent self.
Proof.
  intros H. apply bind_Ok in H as (p0 & H0 & H).
  eapply add_consistent; [|exact H]. by eapply init_consistent.
Qed.

Lemma add_counts_misses_witness :
  ∃ self self',
    (p ← mean_sum_processor [100; 200]%Q 1 0;
     add p [100; 200]%Q [7; 9]%Q false) = Ok self ∧
    add self [100%Q] [7%Q] false = Ok self' ∧
    self_index self' = self_index self + 1 ∧
    ∃ j, self_roi_index self' !! j = Some 1%Z ∧
         self_n_missing self' !! j = Some (0 + 1)%Z.
Proof.
  do 2 eexists.
  match goal with |- ?st = Ok ?s ∧ _ =>
    assert (st = Ok s) as Hs by (vm_compute; reflexivity)
  end.
  split; [exact Hs|].
  match goal with |- add ?s ?mz ?sp false = Ok ?s' ∧ _ =>
    assert (add s mz sp false = Ok s') as Hadd by (vm_compute; reflexivity);
    assert (_match_mz (self_mz_mean s) mz sp (self_tolerance s)
              (self_multiple_match s) (self_mz_reduce s)
              (self_spint_reduce s)
            = Ok ([0], [100%Q], [7%Q], [], [])) as Hm
      by (vm_compute; reflexivity);
    destruct (add_counts_misses s s' mz sp false _ _ _ _ _
                (two_traces_consistent s Hs) Hm Hadd) as [Hix Hall];
    destruct (Hall 1 1%Z 0%Z eq_refl eq_refl) as (j & _ & Hid & Hn)
  end.
  split; [exact Hadd|]. split; [exact Hix|].
  exists j. split; [exact Hid|]. exact Hn.
Defined.

(** A targeted processor after one scan without its target. *)
Lemma silent_target_consistent (self : RoiProcessor) :
  (p ← RoiProcessor_init (vector [100%Q]) 0 0 0 (5 # 1000) "closest"
         (ByName "mean") (ByName "sum") None;
   add p [200%Q] [5%Q] true) = Ok self →
  consistent self.
Proof.
  intros H. apply bind_Ok in H as (p0 & H0 & H).
  eapply add_consistent; [|exact H]. by eapply init_consistent.
Qed.

Lemma append_to_roi_empty_trace_raises_witness :
  ∃ self,
    (p ← RoiProcessor_init (vector [100%Q]) 0 0 0 (5 # 1000) "closest"
           (ByName "mean") (ByName "sum") None;
     add p [200%Q] [5%Q] true) = Ok self ∧
    is_Raise (append_to_roi self [1%Q] true).
Proof.
  eexists.
  match goal with |- ?st = Ok ?s ∧ _ =>
    assert (st = Ok s) as Hs by (vm_compute; reflexivity);
    refine (conj Hs (append_to_roi_empty_trace_raises s [1%Q] true 0 1%Z 0%Q
                       (silent_target_consistent s Hs) eq_refl _ eq_refl
                       eq_refl _ _))
  end.
  - vm_compute. reflexivity.
  - vm_compute. discriminate.
  - vm_compute. discriminate.
Defined.
